(** * SMILES skill: the tool layer over smiles-js

    A shallow embedding of the tool implementations of the skill
    (src/index.js: astToObject, objectToAst, reconstructAttachments and the
    five exported tools) together with the part of the JavaScript value
    model they rely on.  The engine itself (parse, buildSMILES, decompile,
    isValidRoundTrip and the node constructors) is imported from the
    smiles-js package; it enters the development as a record of operations,
    and a reference instance of that record is written from the
    specification of the engine.

    The tools are embedded twice: as functions on trees of values, which
    is what their results are compared by, and as programs on a store of
    objects with identity, in which an assignment to a property is a write
    to a cell.  The second embedding shows which objects a call writes to,
    and that the first one loses nothing. *)

From Stdlib Require Import String Ascii List ZArith Bool Arith Lia.
From Stdlib Require Import DecimalString.
Import ListNotations.
Local Open Scope string_scope.
Local Open Scope list_scope.
Set Warnings "-register-all".

(** ** JavaScript values *)

Module JS.

(** The values that cross the tool boundary and the objects the engine
    hands back.  Numbers are the integers the records carry (sizes, ring
    numbers, offsets, positions).  An object is the list of its own
    enumerable data properties in enumeration order.  [VNode] is an object
    created by smiles-js: the same data, plus the methods and accessors the
    library attaches ([toObject], [smiles]).  A function value is opaque;
    only its identity is kept. *)
Inductive val : Type :=
| VUndef
| VNull
| VBool (b : bool)
| VNum (n : Z)
| VStr (s : string)
| VFun (name : string)
| VArr (elems : list val)
| VObj (props : list (string * val))
| VNode (props : list (string * val)).

(** Induction over values that reaches the elements of arrays and the
    property values of objects. *)
Section ValInduction.
Variable P : val -> Prop.
Hypothesis Hundef : P VUndef.
Hypothesis Hnull : P VNull.
Hypothesis Hbool : forall b, P (VBool b).
Hypothesis Hnum : forall n, P (VNum n).
Hypothesis Hstr : forall s, P (VStr s).
Hypothesis Hfun : forall f, P (VFun f).
Hypothesis Harr : forall elems, Forall P elems -> P (VArr elems).
Hypothesis Hobj : forall props, Forall (fun kv => P (snd kv)) props -> P (VObj props).
Hypothesis Hnode : forall props, Forall (fun kv => P (snd kv)) props -> P (VNode props).

Fixpoint val_deep_ind (v : val) : P v :=
  let fix elems_ind (l : list val) : Forall P l :=
    match l with
    | [] => Forall_nil _
    | x :: l' => Forall_cons x (val_deep_ind x) (elems_ind l')
    end in
  let fix props_ind (l : list (string * val)) : Forall (fun kv => P (snd kv)) l :=
    match l with
    | [] => Forall_nil _
    | kv :: l' =>
        Forall_cons (P := fun kv => P (snd kv)) kv (val_deep_ind (snd kv)) (props_ind l')
    end in
  match v with
  | VUndef => Hundef
  | VNull => Hnull
  | VBool b => Hbool b
  | VNum n => Hnum n
  | VStr s => Hstr s
  | VFun f => Hfun f
  | VArr elems => Harr elems (elems_ind elems)
  | VObj props => Hobj props (props_ind props)
  | VNode props => Hnode props (props_ind props)
  end.
End ValInduction.

(** Nesting depth of a value: the recursion depth a traversal needs. *)
Fixpoint height (v : val) : nat :=
  let fix elems_height (l : list val) : nat :=
    match l with
    | [] => 0
    | x :: l' => Nat.max (height x) (elems_height l')
    end in
  let fix props_height (l : list (string * val)) : nat :=
    match l with
    | [] => 0
    | kv :: l' => Nat.max (height (snd kv)) (props_height l')
    end in
  match v with
  | VArr elems => S (elems_height elems)
  | VObj props | VNode props => S (props_height props)
  | _ => 0
  end.

(** *** Exceptions *)

(** What is thrown: an Error instance (Error, TypeError, RangeError, or one
    of the engine's error kinds), read by the tools through [error.message]. *)
Record JsError : Type := mkError { errName : string; errMessage : string }.

Inductive res (A : Type) : Type :=
| Ok (a : A)
| Throw (e : JsError).
Arguments Ok {A} a.
Arguments Throw {A} e.

Definition bind {A B} (c : res A) (k : A -> res B) : res B :=
  match c with
  | Ok a => k a
  | Throw e => Throw e
  end.

(** [try { body } catch (error) { handler }] *)
Definition try_catch {A} (body : res A) (handler : JsError -> res A) : res A :=
  match body with
  | Ok a => Ok a
  | Throw e => handler e
  end.

Definition TypeError (msg : string) : JsError := mkError "TypeError" msg.

(** *** Operators *)

(** ToBoolean. *)
Definition truthy (v : val) : bool :=
  match v with
  | VUndef | VNull => false
  | VBool b => b
  | VNum n => negb (Z.eqb n 0)
  | VStr s => negb (String.eqb s EmptyString)
  | VFun _ | VArr _ | VObj _ | VNode _ => true
  end.

Definition typeof (v : val) : string :=
  match v with
  | VUndef => "undefined"
  | VNull => "object"
  | VBool _ => "boolean"
  | VNum _ => "number"
  | VStr _ => "string"
  | VFun _ => "function"
  | VArr _ | VObj _ | VNode _ => "object"
  end.

(** [a || b] *)
Definition or_else (a b : val) : val := if truthy a then a else b.

(** [v === 'literal'] *)
Definition is_str (v : val) (lit : string) : bool :=
  match v with
  | VStr s => String.eqb s lit
  | _ => false
  end.

(** [v !== undefined] *)
Definition is_defined (v : val) : bool :=
  match v with
  | VUndef => false
  | _ => true
  end.

Definition isArray (v : val) : bool :=
  match v with
  | VArr _ => true
  | _ => false
  end.

(** The elements of an array, none for anything else. *)
Definition array_elements (v : val) : list val :=
  match v with
  | VArr l => l
  | _ => []
  end.

(** [key.startsWith('_')] *)
Definition startsWith_underscore (key : string) : bool :=
  match key with
  | String c _ => Ascii.eqb c "_"
  | EmptyString => false
  end.

(** *** Properties *)

Fixpoint lookup {A} (k : string) (props : list (string * A)) : option A :=
  match props with
  | [] => None
  | (k', v) :: rest => if String.eqb k k' then Some v else lookup k rest
  end.

(** [o.k] for a key that no built-in prototype defines: the own data
    property, [undefined] when there is none.  Reading a property of
    [undefined] or [null] is a TypeError; the tools do it only when they
    destructure their argument, see [destructure]. *)
Definition get (o : val) (k : string) : val :=
  match o with
  | VObj props | VNode props =>
      match lookup k props with
      | Some v => v
      | None => VUndef
      end
  | _ => VUndef
  end.

(** The parameter pattern [({ k })]. *)
Definition destructure (arg : val) (k : string) : res val :=
  match arg with
  | VUndef => Throw (TypeError "Cannot destructure property of undefined")
  | VNull => Throw (TypeError "Cannot destructure property of null")
  | _ => Ok (get arg k)
  end.

Definition nat_key (i : nat) : string := NilEmpty.string_of_uint (Nat.to_uint i).

Fixpoint indexed_from {A} (i : nat) (l : list A) : list (string * A) :=
  match l with
  | [] => []
  | x :: l' => (nat_key i, x) :: indexed_from (S i) l'
  end.

Fixpoint chars (s : string) : list val :=
  match s with
  | EmptyString => []
  | String c s' => VStr (String c EmptyString) :: chars s'
  end.

(** [Object.entries(v)] for a value that is not [undefined] or [null]. *)
Definition Object_entries (v : val) : list (string * val) :=
  match v with
  | VObj props | VNode props => props
  | VArr elems => indexed_from 0 elems
  | VStr s => indexed_from 0 (chars s)
  | _ => []
  end.

(** Keys that are array indices ("0", "1", ... without leading zeros) come
    first in an object, in ascending order; the other keys follow in
    insertion order. *)
Definition digit_of (c : ascii) : option N :=
  let n := N_of_ascii c in
  if ((48 <=? n) && (n <=? 57))%N then Some (n - 48)%N else None.

Fixpoint digits_value (s : string) (acc : N) : option N :=
  match s with
  | EmptyString => Some acc
  | String c s' =>
      match digit_of c with
      | Some d => digits_value s' (acc * 10 + d)%N
      | None => None
      end
  end.

Definition array_index (k : string) : option N :=
  match k with
  | EmptyString => None
  | String c rest =>
      if Ascii.eqb c "0" && negb (String.eqb rest EmptyString) then None
      else match digits_value k 0 with
           | Some n => if (n <? 4294967295)%N then Some n else None
           | None => None
           end
  end.

Fixpoint has_key {A} (k : string) (props : list (string * A)) : bool :=
  match props with
  | [] => false
  | (k', _) :: rest => String.eqb k k' || has_key k rest
  end.

Fixpoint replace_prop {A} (k : string) (v : A) (props : list (string * A)) :=
  match props with
  | [] => []
  | (k', v') :: rest =>
      if String.eqb k k' then (k', v) :: rest else (k', v') :: replace_prop k v rest
  end.

Fixpoint insert_index {A} (n : N) (k : string) (v : A) (props : list (string * A)) :=
  match props with
  | [] => [(k, v)]
  | (k', v') :: rest =>
      match array_index k' with
      | Some m => if (m <? n)%N then (k', v') :: insert_index n k v rest
                  else (k, v) :: props
      | None => (k, v) :: props
      end
  end.

(** [o[k] = v] on the properties of [o], whatever the values are: the
    own property [k] is replaced or added.  This is the assignment for
    every key but [__proto__], for which it sets the prototype of [o] and
    adds no property; objects have no prototype here, and what is stated
    about an assignment whose key comes from the caller excludes that
    key. *)
Definition set_prop {A} (props : list (string * A)) (k : string) (v : A) :=
  if has_key k props then replace_prop k v props
  else match array_index k with
       | Some n => insert_index n k v props
       | None => props ++ [(k, v)]
       end.

End JS.

(** ** The smiles-js interface *)

Module SmilesJs.
Import JS.

(** What src/index.js imports from 'smiles-js' and 'smiles-js/common',
    and what the runtime does with the objects the tools cannot look into:
    [toObject] and [smiles] are the method and the accessor of a library
    node (applied to the node), [call f this args] is the result of calling
    the function value [f], and [objectToString] is string conversion of an
    object. *)
Record Library : Type := {
  parse : val -> res val;
  buildSMILES : val -> res val;
  decompile : val -> res val;
  isValidRoundTrip : val -> res val;
  Ring : val -> res val;
  Linear : val -> val -> val -> res val;
  FusedRing : val -> res val;
  Molecule : val -> res val;
  common : list (string * val);
  toObject : val -> res val;
  smiles : val -> res val;
  call : string -> val -> list val -> res val;
  objectToString : val -> res string
}.

End SmilesJs.

(** ** The tools (src/index.js) *)

Module Skill.
Import JS SmilesJs.

Notation "x <- c ;; k" := (bind c (fun x => k))
  (at level 61, c at next level, right associativity).

Fixpoint mapM {A B} (f : A -> res B) (l : list A) : res (list B) :=
  match l with
  | [] => Ok []
  | x :: l' => y <- f x ;; ys <- mapM f l' ;; Ok (y :: ys)
  end.

Definition dquote : string := String "034"%char EmptyString.

Definition string_of_Z (n : Z) : string := NilZero.string_of_int (Z.to_int n).

Definition RangeError : JsError :=
  mkError "RangeError" "Maximum call stack size exceeded".

Section Tools.
Variable lib : Library.

(** String conversion inside a template literal.  A number is an integer
    here and is printed in decimal, which is what JavaScript prints for
    the integers below 10^21 in absolute value. *)
Definition ToString (v : val) : res string :=
  match v with
  | VUndef => Ok "undefined"
  | VNull => Ok "null"
  | VBool true => Ok "true"
  | VBool false => Ok "false"
  | VNum n => Ok (string_of_Z n)
  | VStr s => Ok s
  | _ => objectToString lib v
  end.

(** [list.map(callback)]: the array method on an array; on anything else
    whatever its own [map] property is, called if it is a function. *)
Definition method_map (callback : string) (f : val -> res val) (list : val) : res val :=
  match list with
  | VArr elems => elems' <- mapM f elems ;; Ok (VArr elems')
  | VUndef => Throw (TypeError "Cannot read properties of undefined (reading 'map')")
  | VNull => Throw (TypeError "Cannot read properties of null (reading 'map')")
  | VObj props | VNode props =>
      match lookup "map" props with
      | Some (VFun g) => call lib g list [VFun callback]
      | _ => Throw (TypeError "map is not a function")
      end
  | _ => Throw (TypeError "map is not a function")
  end.

(** [node.toObject()], reached when [node.toObject] is truthy. *)
Definition call_toObject (node : val) : res val :=
  match node with
  | VNode _ => toObject lib node
  | _ =>
      match get node "toObject" with
      | VFun f => call lib f node []
      | _ => Throw (TypeError "node.toObject is not a function")
      end
  end.

(** [node.toObject] as a condition. *)
Definition has_toObject (node : val) : bool :=
  match node with
  | VNode _ => true
  | _ => truthy (get node "toObject")
  end.

(** The loop of astToObject over [Object.entries(node)], filling [result];
    the recursive call is the parameter [astToObject]. *)
Fixpoint copy_loop (astToObject : val -> res val)
  (entries result : list (string * val)) : res (list (string * val)) :=
  match entries with
  | [] => Ok result
  | (key, value) :: rest =>
      if startsWith_underscore key then copy_loop astToObject rest result
      else if String.eqb (typeof value) "function" then copy_loop astToObject rest result
      else v <- astToObject value ;; copy_loop astToObject rest (set_prop result key v)
  end.

(** Convert an AST node to a plain object for JSON serialization
    (src/index.js, astToObject).  The cases of the match are the
    statements of the function in order: the early return for a falsy or
    non-object argument, the [toObject] delegation (an array has no such
    property), the array case, and the loop over the entries. *)
Fixpoint astToObject (node : val) : res val :=
  match node with
  | VUndef | VNull | VBool _ | VNum _ | VStr _ | VFun _ => Ok node
  | VNode _ => call_toObject node
  | VArr elems => elems' <- mapM astToObject elems ;; Ok (VArr elems')
  | VObj props =>
      if has_toObject node then call_toObject node
      else result <- copy_loop astToObject props [] ;; Ok (VObj result)
  end.

(** Reconstruct attachments from plain object (src/index.js,
    reconstructAttachments).  The function and [objectToAst] call each
    other; here the callee is a parameter, and [objectToAst_at] passes
    itself. *)
Fixpoint attach_loop (objectToAst : val -> res val)
  (entries result : list (string * val)) : res (list (string * val)) :=
  match entries with
  | [] => Ok result
  | (pos, list) :: rest =>
      v <- method_map "objectToAst" objectToAst list ;;
      attach_loop objectToAst rest (set_prop result pos v)
  end.

Definition reconstructAttachments (objectToAst : val -> res val)
  (attachments : val) : res val :=
  if negb (truthy attachments) then Ok (VObj [])
  else
    result <- attach_loop objectToAst (Object_entries attachments) [] ;;
    Ok (VObj result).

(** The argument of [Ring({...})] in the ring branch of objectToAst. *)
Definition ring_options (obj attachments : val) : val :=
  VObj [ ("atoms", get obj "atoms");
         ("size", get obj "size");
         ("ringNumber", or_else (get obj "ringNumber") (VNum 1));
         ("offset", or_else (get obj "offset") (VNum 0));
         ("substitutions", or_else (get obj "substitutions") (VObj []));
         ("attachments", attachments);
         ("bonds", or_else (get obj "bonds") (VArr [])) ].

(** Reconstruct an AST node from a plain object (src/index.js,
    objectToAst), with the call depth that is left: a call at depth 0 is
    the stack overflow of the runtime. *)
Fixpoint objectToAst_at (depth : nat) (obj : val) : res val :=
  match depth with
  | O => Throw RangeError
  | S depth' =>
      if negb (truthy obj) || negb (String.eqb (typeof obj) "object") then Ok obj
      else
        let type := get obj "type" in
        if is_str type "ring" then
          attachments <-
            reconstructAttachments (objectToAst_at depth') (get obj "attachments") ;;
          Ring lib (ring_options obj attachments)
        else if is_str type "linear" then
          attachments <-
            reconstructAttachments (objectToAst_at depth') (get obj "attachments") ;;
          Linear lib (or_else (get obj "atoms") (VArr []))
                     (or_else (get obj "bonds") (VArr []))
                     attachments
        else if is_str type "fused_ring" then
          rings <- method_map "objectToAst" (objectToAst_at depth')
                     (or_else (get obj "rings") (VArr [])) ;;
          FusedRing lib rings
        else if is_str type "molecule" then
          components <- method_map "objectToAst" (objectToAst_at depth')
                          (or_else (get obj "components") (VArr [])) ;;
          Molecule lib components
        else Ok obj
  end.

(** A record of nesting depth [height obj] needs no deeper recursion than
    that, so this is objectToAst on a stack that is deep enough. *)
Definition objectToAst (obj : val) : res val :=
  objectToAst_at (S (height obj)) obj.

(** *** The exported tools *)

Definition failure (error : JsError) : res val :=
  Ok (VObj [("success", VBool false); ("error", VStr (errMessage error))]).

(** Parse a SMILES string into an AST. *)
Definition parse_smiles (input : val) : res val :=
  smiles <- destructure input "smiles" ;;
  try_catch
    (ast <- parse lib smiles ;;
     astObject <- astToObject ast ;;
     Ok (VObj [("success", VBool true); ("smiles", smiles); ("ast", astObject)]))
    failure.

(** Build a SMILES string from an AST object. *)
Definition build_smiles (input : val) : res val :=
  ast <- destructure input "ast" ;;
  try_catch
    (node <- objectToAst ast ;;
     smiles <- buildSMILES lib node ;;
     Ok (VObj [("success", VBool true); ("smiles", smiles)]))
    failure.

(** Decompile a SMILES string to JavaScript constructor code. *)
Definition decompile_smiles (input : val) : res val :=
  smiles <- destructure input "smiles" ;;
  try_catch
    (ast <- parse lib smiles ;;
     code <- decompile lib ast ;;
     Ok (VObj [("success", VBool true); ("smiles", smiles); ("code", code)]))
    failure.

Definition mismatch_message (smiles regenerated : string) : string :=
  "Round-trip mismatch: expected " ++ dquote ++ smiles ++ dquote
  ++ ", got " ++ dquote ++ regenerated ++ dquote.

(** Validate SMILES round-trip fidelity. *)
Definition validate_roundtrip (input : val) : res val :=
  smiles <- destructure input "smiles" ;;
  try_catch
    (isValid <- isValidRoundTrip lib smiles ;;
     if truthy isValid then
       Ok (VObj [("success", VBool true); ("smiles", smiles); ("valid", VBool true);
                 ("message", VStr "SMILES round-trip validation passed")])
     else
       ast <- parse lib smiles ;;
       regenerated <- buildSMILES lib ast ;;
       expected <- ToString smiles ;;
       got <- ToString regenerated ;;
       Ok (VObj [("success", VBool true); ("smiles", smiles); ("valid", VBool false);
                 ("regenerated", regenerated);
                 ("message", VStr (mismatch_message expected got))]))
    failure.

(** [fragment.smiles]: the accessor of a library node, a data property of
    anything else. *)
Definition read_smiles (fragment : val) : res val :=
  match fragment with
  | VNode _ => smiles lib fragment
  | _ => Ok (get fragment "smiles")
  end.

Definition categories : val :=
  VObj [ ("alkyl", VArr (map VStr ["methyl"; "ethyl"; "propyl"; "isopropyl"; "butyl"; "tertButyl"]));
         ("functional", VArr (map VStr ["hydroxyl"; "amino"; "carboxyl"; "carbonyl"; "ester";
                                        "ether"; "aldehyde"; "ketone"]));
         ("aromatic", VArr (map VStr ["phenyl"; "benzyl"]));
         ("rings", VArr (map VStr ["benzene"; "cyclohexane"; "cyclopentane"; "pyridine";
                                   "furan"; "pyrrole"; "imidazole"]));
         ("halides", VArr (map VStr ["fluoro"; "chloro"; "bromo"; "iodo"]));
         ("other", VArr (map VStr ["nitro"; "cyano"; "sulfhydryl"; "sulfonyl"; "phosphate"])) ].

(** The body of the loop of get_common_fragments, with its try/catch. *)
Definition add_fragment (fragments : list (string * val)) (entry : string * val)
  : list (string * val) :=
  let '(name, fragment) := entry in
  let body :=
    if truthy fragment && String.eqb (typeof fragment) "object" then
      probe <- read_smiles fragment ;;
      if is_defined probe then
        s <- read_smiles fragment ;;
        Ok (set_prop fragments name (VObj [("smiles", s); ("type", get fragment "type")]))
      else Ok fragments
    else Ok fragments in
  match body with
  | Ok fragments' => fragments'
  | Throw _ => fragments
  end.

(** Get common molecular fragments. *)
Definition get_common_fragments : res val :=
  let fragments := fold_left add_fragment (common lib) [] in
  Ok (VObj [("success", VBool true); ("fragments", VObj fragments);
            ("categories", categories)]).

(** Expose all tools. *)
Inductive tool : Type :=
| tool_parse_smiles
| tool_build_smiles
| tool_decompile_smiles
| tool_validate_roundtrip
| tool_get_common_fragments.

Definition tools (t : tool) (input : val) : res val :=
  match t with
  | tool_parse_smiles => parse_smiles input
  | tool_build_smiles => build_smiles input
  | tool_decompile_smiles => decompile_smiles input
  | tool_validate_roundtrip => validate_roundtrip input
  | tool_get_common_fragments => get_common_fragments
  end.

End Tools.
End Skill.

(** ** A reference engine, from the specification *)

Module Engine.
Import JS SmilesJs Skill.

(** *** Nodes (data model) *)

(** The node constructors of smiles-js, which src/index.js calls as
    [Ring({...})], [Linear(atoms, bonds, attachments)], [FusedRing(rings)]
    and [Molecule(components)], are not part of the skill.  A node is a
    record with a discriminant field and the attributes of the data model. *)

(** A default applies to an attribute that is [undefined]. *)
Definition default (v d : val) : val := if is_defined v then v else d.

Definition mkRing (atoms size ringNumber offset substitutions attachments bonds : val) : val :=
  VNode [ ("type", VStr "ring"); ("atoms", atoms); ("size", size);
          ("ringNumber", ringNumber); ("offset", offset);
          ("substitutions", substitutions); ("attachments", attachments);
          ("bonds", bonds) ].

Definition mkLinear (atoms bonds attachments : val) : val :=
  VNode [ ("type", VStr "linear"); ("atoms", atoms); ("bonds", bonds);
          ("attachments", attachments) ].

(** Modelled from the spec: the constructor [Ring] of smiles-js.  A Ring
    has a base atom type, a size, a ring-closure number, an offset,
    substitutions, attachments and bonds; [Ring({ atoms: 'c', size: 6 })]
    is benzene, so the other attributes have defaults. *)
Definition Ring (options : val) : res val :=
  Ok (mkRing (get options "atoms") (get options "size")
             (default (get options "ringNumber") (VNum 1))
             (default (get options "offset") (VNum 0))
             (default (get options "substitutions") (VObj []))
             (default (get options "attachments") (VObj []))
             (default (get options "bonds") (VArr []))).

(** Modelled from the spec: the constructor [Linear] of smiles-js: atoms,
    bonds and attachments, the last two optional ([Linear(['C'])]). *)
Definition Linear (atoms bonds attachments : val) : res val :=
  Ok (mkLinear atoms (default bonds (VArr [])) (default attachments (VObj []))).

(** Modelled from the spec: the constructor [FusedRing] of smiles-js, an
    ordered list of rings. *)
Definition FusedRing (rings : val) : res val :=
  Ok (VNode [("type", VStr "fused_ring"); ("rings", rings)]).

(** A nested molecule is flattened into its parent's component list. *)
Definition flatten (component : val) : list val :=
  if is_str (get component "type") "molecule" then
    match get component "components" with
    | VArr inner => inner
    | _ => [component]
    end
  else [component].

Definition mkMolecule (components : list val) : val :=
  VNode [("type", VStr "molecule"); ("components", VArr (flat_map flatten components))].

(** Modelled from the spec: the constructor [Molecule] of smiles-js, an
    ordered list of components in which a nested molecule is flattened. *)
Definition Molecule (components : val) : res val :=
  match components with
  | VArr l => Ok (mkMolecule l)
  | _ => Ok (VNode [("type", VStr "molecule"); ("components", components)])
  end.

(** Modelled from the spec: the [toObject] method of a node, which
    src/index.js calls but does not contain.  The AST exchanged across the
    boundary is a plain structural record with the discriminant field and
    the attributes of the data model: the node and the nodes inside it as
    plain objects. *)
Fixpoint toObject (node : val) : val :=
  match node with
  | VNode props | VObj props => VObj (map (fun kv => (fst kv, toObject (snd kv))) props)
  | VArr elems => VArr (map toObject elems)
  | _ => node
  end.

(** *** Errors *)

Definition engine_error (kind detail : string) : JsError :=
  mkError kind (kind ++ ": " ++ detail).

Definition UnclosedRing (digit position : nat) : JsError :=
  engine_error "UnclosedRing"
    ("ring closure " ++ nat_key digit ++ " opened at position " ++ nat_key position
     ++ " is never closed").

Definition InvalidAtom (position : nat) (token : string) : JsError :=
  engine_error "InvalidAtom" (token ++ " at position " ++ nat_key position).

Definition InvalidBond (position : nat) (symbol : string) : JsError :=
  engine_error "InvalidBond" (symbol ++ " at position " ++ nat_key position).

Definition MismatchedParen (position : nat) : JsError :=
  engine_error "MismatchedParen" ("at position " ++ nat_key position).

Definition DepthExceeded (position : nat) : JsError :=
  engine_error "DepthExceeded" ("at position " ++ nat_key position).

Definition StructuralInvariantViolation (detail : string) : JsError :=
  engine_error "StructuralInvariantViolation" detail.

(** Ring fusion is described by the specification at design level only;
    the reference engine reports it instead of guessing. *)
Definition FusionNotModelled (detail : string) : JsError :=
  engine_error "FusionNotModelled" detail.

(** *** Parser *)

Inductive token : Type :=
| TAtom (symbol : string)
| TBond (symbol : string)
| TDigit (d : nat)
| TOpen
| TClose.

Definition ch (c : ascii) : string := String c EmptyString.

Definition one_of (c : ascii) (set : string) : bool :=
  existsb (Ascii.eqb c) (list_ascii_of_string set).

(** Bare element symbols: the organic subset, lower case for aromatic. *)
Definition is_element (c : ascii) : bool := one_of c "BCNOPSFIbcnops".

Definition two_letter (c c2 : ascii) : bool :=
  (Ascii.eqb c "C" && Ascii.eqb c2 "l") || (Ascii.eqb c "B" && Ascii.eqb c2 "r").

Definition single_token (pos : nat) (c : ascii) : res token :=
  if is_element c then Ok (TAtom (ch c))
  else if one_of c "-=#:" then Ok (TBond (ch c))
  else if Ascii.eqb c "(" then Ok TOpen
  else if Ascii.eqb c ")" then Ok TClose
  else match digit_of c with
       | Some d => Ok (TDigit (N.to_nat d))
       | None => Throw (InvalidAtom pos (ch c))
       end.

(** Tokens with the position they start at.  [bracket] is the bracketed
    atom being read, an opaque token. *)
Fixpoint tokenize (bracket : option (nat * string)) (pos : nat) (text : string)
  : res (list (nat * token)) :=
  match text with
  | EmptyString =>
      match bracket with
      | Some (start, inside) => Throw (InvalidAtom start inside)
      | None => Ok []
      end
  | String c rest =>
      match bracket with
      | Some (start, inside) =>
          if Ascii.eqb c "]" then
            toks <- tokenize None (S pos) rest ;;
            Ok ((start, TAtom (inside ++ "]")) :: toks)
          else tokenize (Some (start, (inside ++ ch c)%string)) (S pos) rest
      | None =>
          if Ascii.eqb c "[" then tokenize (Some (pos, "[")) (S pos) rest
          else
            let single :=
              tok <- single_token pos c ;;
              toks <- tokenize None (S pos) rest ;;
              Ok ((pos, tok) :: toks) in
            match rest with
            | String c2 rest2 =>
                if two_letter c c2 then
                  toks <- tokenize None (S (S pos)) rest2 ;;
                  Ok ((pos, TAtom (ch c ++ ch c2)) :: toks)
                else single
            | EmptyString => single
            end
      end
  end.

(** An atom of the chain under construction: its symbol, the bond
    entering it, and the branches attached to it. *)
Record entry : Type := mkEntry {
  e_atom : string;
  e_bond : option string;
  e_branches : list val
}.

(** A matched ring closure: the digit, the two atom indices it pairs, and
    the closure bond. *)
Record span : Type := mkSpan {
  s_digit : nat;
  s_from : nat;
  s_to : nat;
  s_bond : option string
}.

(** An open ring closure: the digit, the pending atom index, the pending
    bond symbol, and the text position of the digit. *)
Record opening : Type := mkOpening {
  o_digit : nat;
  o_index : nat;
  o_bond : option string;
  o_pos : nat
}.

(** The chain under construction at one branch level. *)
Record frame : Type := mkFrame {
  f_entries : list entry;
  f_open : list opening;
  f_spans : list span
}.

(** The state of the scan: the current chain, the branch stack, and the
    bond symbol read but not yet used. *)
Record pstate : Type := mkState {
  cur : frame;
  stack : list frame;
  pending : option (nat * string)
}.

Definition empty_frame : frame := mkFrame [] [] [].

Definition bond_val (b : option string) : val :=
  match b with
  | Some s => VStr s
  | None => VNull
  end.

Definition attachments_of (entries : list entry) : list (string * val) :=
  flat_map (fun ie : string * entry =>
              match e_branches (snd ie) with
              | [] => []
              | branches => [(fst ie, VArr branches)]
              end)
           (indexed_from 0 entries).

(** A run of atoms outside any ring: a Linear with one bond fewer than
    atoms. *)
Definition linear_of (entries : list entry) : list val :=
  match entries with
  | [] => []
  | _ :: later =>
      [ mkLinear (VArr (map (fun e => VStr (e_atom e)) entries))
                 (VArr (map (fun e => bond_val (e_bond e)) later))
                 (VObj (attachments_of entries)) ]
  end.

(** The run of atoms between the two indices of a closure: a Ring whose
    size is the index distance plus one, whose base atom is the first atom
    of the run, and whose last bond is the closure bond. *)
Definition ring_of (s : span) (entries : list entry) : val :=
  let base := match entries with
              | e :: _ => e_atom e
              | [] => EmptyString
              end in
  let substitutions :=
    flat_map (fun ie : string * entry =>
                if String.eqb (e_atom (snd ie)) base then []
                else [(fst ie, VStr (e_atom (snd ie)))])
             (indexed_from 0 entries) in
  mkRing (VStr base) (VNum (Z.of_nat (s_to s - s_from s + 1)))
         (VNum (Z.of_nat (s_digit s))) (VNum 0)
         (VObj substitutions) (VObj (attachments_of entries))
         (VArr (map (fun e => bond_val (e_bond e)) (tl entries) ++ [bond_val (s_bond s)])).

(** The components of a finished chain, left to right.  [offset] is the
    index of the first atom of [entries] in the chain. *)
Fixpoint components_of (offset : nat) (entries : list entry) (spans : list span)
  : res (list val) :=
  match spans with
  | [] => Ok (linear_of entries)
  | s :: spans' =>
      if Nat.ltb (s_from s) offset then
        Throw (FusionNotModelled ("ring closure " ++ nat_key (s_digit s)))
      else
        let before := firstn (s_from s - offset) entries in
        let inside := firstn (s_to s - s_from s + 1) (skipn (s_from s - offset) entries) in
        let after := skipn (s_to s + 1 - offset) entries in
        rest <- components_of (s_to s + 1) after spans' ;;
        Ok (linear_of before ++ [ring_of s inside] ++ rest)
  end.

(** End of a chain: an open ring closure is an error; more than one
    component is wrapped in a Molecule. *)
Definition finish_frame (pos : nat) (f : frame) : res val :=
  match f_open f with
  | o :: _ => Throw (UnclosedRing (o_digit o) (o_pos o))
  | [] =>
      components <- components_of 0 (f_entries f) (f_spans f) ;;
      match components with
      | [] => Throw (InvalidAtom pos EmptyString)
      | [component] => Ok component
      | _ => Ok (mkMolecule components)
      end
  end.

Fixpoint find_open (d : nat) (opens : list opening) : option opening :=
  match opens with
  | [] => None
  | o :: rest => if Nat.eqb (o_digit o) d then Some o else find_open d rest
  end.

Definition remove_open (d : nat) (opens : list opening) : list opening :=
  filter (fun o => negb (Nat.eqb (o_digit o) d)) opens.

(** Attach a finished branch to the last atom of a chain. *)
Fixpoint attach_last (branch : val) (entries : list entry) : list entry :=
  match entries with
  | [] => []
  | [e] => [mkEntry (e_atom e) (e_bond e) (e_branches e ++ [branch])]
  | e :: rest => e :: attach_last branch rest
  end.

Definition no_pending (st : pstate) : res unit :=
  match pending st with
  | Some (pos, b) => Throw (InvalidBond pos b)
  | None => Ok tt
  end.

(** One step of the scan. *)
Definition step (max_depth : nat) (st : pstate) (ptok : nat * token) : res pstate :=
  let '(pos, tok) := ptok in
  let f := cur st in
  match tok with
  | TAtom a =>
      let e := mkEntry a (option_map snd (pending st)) [] in
      Ok (mkState (mkFrame (f_entries f ++ [e]) (f_open f) (f_spans f)) (stack st) None)
  | TBond b =>
      _ <- no_pending st ;;
      match f_entries f, stack st with
      | [], [] => Throw (InvalidBond pos b)
      | _, _ => Ok (mkState f (stack st) (Some (pos, b)))
      end
  | TDigit d =>
      match f_entries f with
      | [] => Throw (InvalidAtom pos (nat_key d))
      | _ :: _ =>
          let index := length (f_entries f) - 1 in
          let bond := option_map snd (pending st) in
          match find_open d (f_open f) with
          | None =>
              Ok (mkState (mkFrame (f_entries f) (f_open f ++ [mkOpening d index bond pos])
                                   (f_spans f))
                          (stack st) None)
          | Some o =>
              let closure := match bond with
                             | Some b => Some b
                             | None => o_bond o
                             end in
              Ok (mkState (mkFrame (f_entries f) (remove_open d (f_open f))
                                   (f_spans f ++ [mkSpan d (o_index o) index closure]))
                          (stack st) None)
          end
      end
  | TOpen =>
      _ <- no_pending st ;;
      match f_entries f with
      | [] => Throw (MismatchedParen pos)
      | _ :: _ =>
          if Nat.leb max_depth (length (stack st)) then Throw (DepthExceeded pos)
          else Ok (mkState empty_frame (f :: stack st) None)
      end
  | TClose =>
      _ <- no_pending st ;;
      match stack st with
      | [] => Throw (MismatchedParen pos)
      | parent :: below =>
          branch <- finish_frame pos f ;;
          Ok (mkState (mkFrame (attach_last branch (f_entries parent)) (f_open parent)
                               (f_spans parent))
                      below None)
      end
  end.

Fixpoint scan (max_depth : nat) (st : pstate) (tokens : list (nat * token)) : res pstate :=
  match tokens with
  | [] => Ok st
  | ptok :: rest => st' <- step max_depth st ptok ;; scan max_depth st' rest
  end.

Definition first_open (st : pstate) : option opening :=
  match flat_map f_open (cur st :: stack st) with
  | o :: _ => Some o
  | [] => None
  end.

(** Modelled from the spec: the parser of smiles-js, [parse(text)], which
    src/index.js calls but does not contain.  A single left-to-right scan
    with a branch stack and a map of open ring closures; at end of input
    an open ring closure is UnclosedRing and a non-empty branch stack is
    MismatchedParen; one component is returned as it is and several are
    wrapped in a Molecule.  The closure of a ring around an earlier ring
    (ring fusion) is reported as FusionNotModelled. *)
Definition parse_text (max_depth : nat) (text : string) : res val :=
  tokens <- tokenize None 0 text ;;
  st <- scan max_depth (mkState empty_frame [] None) tokens ;;
  _ <- no_pending st ;;
  match first_open st with
  | Some o => Throw (UnclosedRing (o_digit o) (o_pos o))
  | None =>
      match stack st with
      | _ :: _ => Throw (MismatchedParen (String.length text))
      | [] => finish_frame (String.length text) (cur st)
      end
  end.

Definition parse (max_depth : nat) (text : val) : res val :=
  match text with
  | VStr s => parse_text max_depth s
  | _ => Throw (TypeError "SMILES must be a string")
  end.

(** *** Serializer *)

Definition bond_symbol (b : option val) : res string :=
  match b with
  | None | Some VNull | Some VUndef => Ok EmptyString
  | Some (VStr s) => Ok s
  | Some _ => Throw (StructuralInvariantViolation "bond")
  end.

Definition incoming_bond (bonds : val) (i : nat) : res string :=
  match i, bonds with
  | O, _ => Ok EmptyString
  | S before, VArr l => bond_symbol (nth_error l before)
  | S _, _ => bond_symbol None
  end.

Definition atom_symbol (a : val) : res string :=
  match a with
  | VStr s => Ok s
  | _ => Throw (StructuralInvariantViolation "atom")
  end.

Definition elements (v : val) : list val :=
  match v with
  | VArr l => l
  | _ => []
  end.

Fixpoint concatM {A} (f : A -> res string) (l : list A) : res string :=
  match l with
  | [] => Ok EmptyString
  | x :: l' => s <- f x ;; rest <- concatM f l' ;; Ok (s ++ rest)%string
  end.

(** The attachments at position [i], each in parentheses, in list order. *)
Definition branches (serialize : val -> res string) (attachments : val) (i : nat)
  : res string :=
  concatM (fun fragment => s <- serialize fragment ;; Ok ("(" ++ s ++ ")")%string)
          (elements (get attachments (nat_key i))).

Fixpoint emit_linear (serialize : val -> res string) (bonds attachments : val)
  (i : nat) (atoms : list val) : res string :=
  match atoms with
  | [] => Ok EmptyString
  | a :: atoms' =>
      bond <- incoming_bond bonds i ;;
      symbol <- atom_symbol a ;;
      attached <- branches serialize attachments i ;;
      rest <- emit_linear serialize bonds attachments (S i) atoms' ;;
      Ok (bond ++ symbol ++ attached ++ rest)%string
  end.

(** Positions [i], [i+1], ... of a ring, [todo] of them.  The closure digit
    ends the first and the last position; at the last the closure bond,
    for which the specification names no place, is written before it. *)
Fixpoint emit_ring (serialize : val -> res string) (node : val) (size : nat)
  (digit closure : string) (i todo : nat) : res string :=
  match todo with
  | O => Ok EmptyString
  | S todo' =>
      bond <- incoming_bond (get node "bonds") i ;;
      symbol <- atom_symbol (default (get (get node "substitutions") (nat_key i))
                                     (get node "atoms")) ;;
      let opened := if Nat.eqb i 0 then digit else EmptyString in
      let closed := if Nat.eqb (S i) size then (closure ++ digit)%string else EmptyString in
      attached <- branches serialize (get node "attachments") i ;;
      rest <- emit_ring serialize node size digit closure (S i) todo' ;;
      Ok (bond ++ symbol ++ attached ++ opened ++ closed ++ rest)%string
  end.

(** The serializer with the call depth that is left, as [objectToAst_at]. *)
Fixpoint serialize_at (depth : nat) (node : val) : res string :=
  match depth with
  | O => Throw RangeError
  | S depth' =>
      let type := get node "type" in
      if is_str type "linear" then
        emit_linear (serialize_at depth') (get node "bonds") (get node "attachments")
                    0 (elements (get node "atoms"))
      else if is_str type "ring" then
        match get node "size", get node "ringNumber" with
        | VNum size, VNum ringNumber =>
            if (size <? 0)%Z || (ringNumber <? 0)%Z then
              Throw (StructuralInvariantViolation "ring")
            else
              closure <- bond_symbol (nth_error (elements (get node "bonds"))
                                                (Z.to_nat size - 1)) ;;
              emit_ring (serialize_at depth') node (Z.to_nat size)
                        (string_of_Z ringNumber) closure 0 (Z.to_nat size)
        | _, _ => Throw (StructuralInvariantViolation "ring")
        end
      else if is_str type "molecule" then
        concatM (serialize_at depth') (elements (get node "components"))
      else if is_str type "fused_ring" then
        Throw (FusionNotModelled "serializer")
      else Throw (StructuralInvariantViolation "node")
  end.

(** Modelled from the spec: the serializer of smiles-js, [buildSMILES(node)],
    which src/index.js calls but does not contain.  Positions are walked in
    ascending order; at each one the incoming bond (omitted if default),
    the substituted atom if present else the base atom, the attachments in
    parentheses in list order, and the ring-closure digit at the open and
    close positions.  The components of a Molecule are concatenated with
    no separator.  A missing bond is the default bond (the tests of the
    skill build benzene from a record with no bonds). *)
Definition buildSMILES (node : val) : res val :=
  s <- serialize_at (S (height node)) node ;;
  Ok (VStr s).

(** *** Decompiler *)

Fixpoint join (sep : string) (l : list string) : string :=
  match l with
  | [] => EmptyString
  | [x] => x
  | x :: l' => (x ++ sep ++ join sep l')%string
  end.

Definition field (coded : list (string * string)) (k : string) : string :=
  match find (fun kc => String.eqb (fst kc) k) coded with
  | Some kc => snd kc
  | None => "undefined"
  end.

Definition object_literal (coded : list (string * string)) : string :=
  match coded with
  | [] => "{}"
  | _ => ("{ " ++ join ", " (map (fun kc => fst kc ++ ": " ++ snd kc) coded) ++ " }")%string
  end.

(** Constructor-call text for a node, literal text for the data in it. *)
Fixpoint code_of (v : val) : string :=
  match v with
  | VUndef => "undefined"
  | VNull => "null"
  | VBool true => "true"
  | VBool false => "false"
  | VNum n => string_of_Z n
  | VStr s => ("'" ++ s ++ "'")%string
  | VFun f => f
  | VArr elems => ("[" ++ join ", " (map code_of elems) ++ "]")%string
  | VObj props => object_literal (map (fun kv => (fst kv, code_of (snd kv))) props)
  | VNode props =>
      let coded := map (fun kv => (fst kv, code_of (snd kv))) props in
      let type := get v "type" in
      if is_str type "ring" then
        ("Ring(" ++ object_literal (filter (fun kc => negb (String.eqb (fst kc) "type")) coded)
         ++ ")")%string
      else if is_str type "linear" then
        ("Linear(" ++ field coded "atoms" ++ ", " ++ field coded "bonds" ++ ", "
         ++ field coded "attachments" ++ ")")%string
      else if is_str type "fused_ring" then
        ("FusedRing(" ++ field coded "rings" ++ ")")%string
      else if is_str type "molecule" then
        ("Molecule(" ++ field coded "components" ++ ")")%string
      else object_literal coded
  end.

(** Modelled from the spec: the decompiler of smiles-js, [decompile(node)],
    which src/index.js calls but does not contain: constructor-call text
    with literal arguments, nested for attachments and members. *)
Definition decompile (node : val) : res val :=
  match node with
  | VNode _ => Ok (VStr (code_of node))
  | _ => Throw (StructuralInvariantViolation "node")
  end.

(** *** Round-trip validator *)

(** [a === b] on a serialization and a text. *)
Definition same_text (a b : val) : bool :=
  match a, b with
  | VStr s, VStr t => String.eqb s t
  | _, _ => false
  end.

(** Modelled from the spec: [isValidRoundTrip(text)] of smiles-js, which
    src/index.js calls but does not contain: [parse(text)] succeeding and
    [serialize(parse(text)) == text] exactly; on parse failure the result
    is [false], not an error. *)
Definition isValidRoundTrip (parse serialize : val -> res val) (text : val) : res val :=
  match parse text with
  | Throw _ => Ok (VBool false)
  | Ok ast =>
      regenerated <- serialize ast ;;
      Ok (VBool (same_text regenerated text))
  end.

(** *** Fragment table *)

Definition chain (atoms : list string) : val :=
  mkLinear (VArr (map VStr atoms)) (VArr (repeat VNull (length atoms - 1))) (VObj []).

Definition cycle (atom : string) (size : nat) : val :=
  mkRing (VStr atom) (VNum (Z.of_nat size)) (VNum 1) (VNum 0) (VObj []) (VObj [])
         (VArr []).

(** Modelled from the spec: the exports of 'smiles-js/common', a static
    table from fragment name to a pre-built node, of which src/index.js
    has the names only.  The entries are those whose SMILES the
    documentation of the skill states, in the order the module namespace
    enumerates them. *)
Definition common : list (string * val) :=
  [ ("amino", chain ["N"]);
    ("benzene", cycle "c" 6);
    ("benzyl", mkMolecule [chain ["C"]; cycle "c" 6]);
    ("bromo", chain ["Br"]);
    ("chloro", chain ["Cl"]);
    ("cyclohexane", cycle "C" 6);
    ("cyclopentane", cycle "C" 5);
    ("ethyl", chain ["C"; "C"]);
    ("fluoro", chain ["F"]);
    ("hydroxyl", chain ["O"]);
    ("iodo", chain ["I"]);
    ("methyl", chain ["C"]);
    ("phenyl", cycle "c" 6);
    ("propyl", chain ["C"; "C"; "C"]) ].

(** *** The engine as a library *)

(** The reference engine packaged as the interface the tools import.  The
    nesting limit of the parser, which the specification requires without
    giving its value, is a parameter.  Nodes carry no function values. *)
Definition library (max_depth : nat) : Library :=
  {| SmilesJs.parse := parse max_depth;
     SmilesJs.buildSMILES := buildSMILES;
     SmilesJs.decompile := decompile;
     SmilesJs.isValidRoundTrip := isValidRoundTrip (parse max_depth) buildSMILES;
     SmilesJs.Ring := Ring;
     SmilesJs.Linear := Linear;
     SmilesJs.FusedRing := FusedRing;
     SmilesJs.Molecule := Molecule;
     SmilesJs.common := common;
     SmilesJs.toObject := fun node => Ok (toObject node);
     SmilesJs.smiles := buildSMILES;
     SmilesJs.call := fun f _ _ => Throw (TypeError (f ++ " is not a function"));
     SmilesJs.objectToString := fun _ => Ok "[object Object]" |}.

Definition reference : Library := library 64.

End Engine.

(** ** What the claims are stated with *)

Module ToolSpec.
Import JS SmilesJs Skill.

(** The argument record of the tools that take a SMILES string. *)
Definition smiles_input (s : string) : val := VObj [("smiles", VStr s)].

Definition nullish (v : val) : bool :=
  match v with
  | VUndef | VNull => true
  | _ => false
  end.

(** [haystack.includes(needle)] *)
Fixpoint includes (needle haystack : string) : bool :=
  String.prefix needle haystack ||
  match haystack with
  | EmptyString => false
  | String _ rest => includes needle rest
  end.

(** The two shapes of a result: a record whose [success] is [true], or
    exactly [{success: false, error}] with the message of the error. *)
Definition structured (r : val) : Prop :=
  exists props, r = VObj props /\
    (lookup "success" props = Some (VBool true) \/
     exists msg, props = [("success", VBool false); ("error", VStr msg)]).

Definition valid_result (smiles : val) : val :=
  VObj [("success", VBool true); ("smiles", smiles); ("valid", VBool true);
        ("message", VStr "SMILES round-trip validation passed")].

Definition mismatch_result (smiles regenerated : string) : val :=
  VObj [("success", VBool true); ("smiles", VStr smiles); ("valid", VBool false);
        ("regenerated", VStr regenerated);
        ("message", VStr (mismatch_message smiles regenerated))].

Definition failure_result (e : JsError) : val :=
  VObj [("success", VBool false); ("error", VStr (errMessage e))].

(** A ring record with ring number 0 and one with none. *)
Definition ring_record (ringNumber : list (string * val)) : val :=
  VObj ([("type", VStr "ring"); ("atoms", VStr "c"); ("size", VNum 6)] ++ ringNumber).

(** What a tool does inside its [try] block, in order: the calls of the
    library and the conversions (src/index.js, the bodies of the four
    tools that have a [try] block).  The first exception among them is
    the internal failure of the call.  get_common_fragments has no [try]
    block around its body: the failures inside its loop are caught there,
    one fragment at a time, and nothing else in it can throw. *)
Definition internal_steps (lib : Library) (t : tool) (input : val) : res unit :=
  match t with
  | tool_parse_smiles =>
      ast <- parse lib (get input "smiles") ;;
      _ <- astToObject lib ast ;;
      Ok tt
  | tool_build_smiles =>
      node <- objectToAst lib (get input "ast") ;;
      _ <- buildSMILES lib node ;;
      Ok tt
  | tool_decompile_smiles =>
      ast <- parse lib (get input "smiles") ;;
      _ <- decompile lib ast ;;
      Ok tt
  | tool_validate_roundtrip =>
      isValid <- isValidRoundTrip lib (get input "smiles") ;;
      if truthy isValid then Ok tt
      else
        ast <- parse lib (get input "smiles") ;;
        regenerated <- buildSMILES lib ast ;;
        _ <- ToString lib (get input "smiles") ;;
        _ <- ToString lib regenerated ;;
        Ok tt
  | tool_get_common_fragments => Ok tt
  end.

(** What a call reports: the failure record of the first exception among
    the steps of its [try] block, or a record whose [success] is [true]
    and that has no [error]. *)
Definition reported (lib : Library) (t : tool) (input r : val) : Prop :=
  match internal_steps lib t input with
  | Throw e => r = VObj [("success", VBool false); ("error", VStr (errMessage e))]
  | Ok _ => get r "success" = VBool true /\ get r "error" = VUndef
  end.

(** A record as astToObject leaves it: it holds no library object, and no
    object in it, at any depth, has a property whose value is a function
    or whose key begins with an underscore. *)
Definition swept_entry (swept : val -> bool) (kv : string * val) : bool :=
  negb (startsWith_underscore (fst kv))
  && negb (String.eqb (typeof (snd kv)) "function")
  && swept (snd kv).

Fixpoint swept (v : val) : bool :=
  match v with
  | VNode _ => false
  | VArr elems => forallb swept elems
  | VObj props => forallb (swept_entry swept) props
  | _ => true
  end.



(** The contract of the validator of the library at one text: it answers
    as the composition of the library's own parser and serializer does. *)
Definition validator_contract (lib : Library) (text : val) : Prop :=
  isValidRoundTrip lib text = Engine.isValidRoundTrip (parse lib) (buildSMILES lib) text.

End ToolSpec.

(** ** More of the tool layer: what the statements below are written with *)

Module ToolProps.
Import JS SmilesJs Skill ToolSpec.

(** The success record of decompile_smiles. *)
Definition decompiled_result (smiles code : val) : val :=
  VObj [("success", VBool true); ("smiles", smiles); ("code", code)].

(** The property of its argument that a tool reads (the parameter
    patterns [({ smiles })] and [({ ast })]); get_common_fragments has no
    parameter. *)
Definition argument_of (t : tool) : option string :=
  match t with
  | tool_parse_smiles | tool_decompile_smiles | tool_validate_roundtrip => Some "smiles"
  | tool_build_smiles => Some "ast"
  | tool_get_common_fragments => None
  end.

(** A type tag that objectToAst acts on. *)
Definition known_type (type : val) : bool :=
  is_str type "ring" || is_str type "linear" || is_str type "fused_ring"
  || is_str type "molecule".

(** The properties of a record that objectToAst reads, by the type of the
    record (src/index.js, the four branches of objectToAst). *)
Definition fields_of (type : val) : list string :=
  if is_str type "ring" then
    ["atoms"; "size"; "ringNumber"; "offset"; "substitutions"; "attachments"; "bonds"]
  else if is_str type "linear" then ["atoms"; "bonds"; "attachments"]
  else if is_str type "fused_ring" then ["rings"]
  else if is_str type "molecule" then ["components"]
  else [].

(** A value on which [.map(objectToAst)] can be called: an array, or an
    object with a function of its own under [map]. *)
Definition mappable (v : val) : bool :=
  match v with
  | VArr _ => true
  | VObj props | VNode props =>
      match lookup "map" props with
      | Some (VFun _) => true
      | _ => false
      end
  | _ => false
  end.

(** Values that astToObject converts by itself: no library node and no
    object with a truthy [toObject] is reached.  What the loop skips (keys
    with an underscore, function values) is not looked into. *)
Definition inert_entry (inert : val -> bool) (kv : string * val) : bool :=
  startsWith_underscore (fst kv) || String.eqb (typeof (snd kv)) "function"
  || inert (snd kv).

Fixpoint inert (v : val) : bool :=
  match v with
  | VNode _ => false
  | VArr elems => forallb inert elems
  | VObj props =>
      negb (truthy (match lookup "toObject" props with Some m => m | None => VUndef end))
      && forallb (inert_entry inert) props
  | _ => true
  end.

(** The properties of an object are in property order, each key once:
    assigning them one by one to an empty object gives them back. *)
Definition assign_all (props acc : list (string * val)) : list (string * val) :=
  fold_left (fun acc kv => set_prop acc (fst kv) (snd kv)) props acc.

Definition in_property_order (props : list (string * val)) : Prop :=
  assign_all props [] = props.

(** Data that needs no conversion: no function, no library node, no key
    with an underscore, no truthy [toObject], at any depth, and every
    object in property order. *)
Fixpoint tidy (v : val) : Prop :=
  match v with
  | VFun _ | VNode _ => False
  | VArr elems =>
      (fix all (l : list val) : Prop :=
         match l with
         | [] => True
         | x :: l' => tidy x /\ all l'
         end) elems
  | VObj props =>
      truthy (match lookup "toObject" props with Some m => m | None => VUndef end) = false
      /\ in_property_order props
      /\ (fix all (l : list (string * val)) : Prop :=
            match l with
            | [] => True
            | kv :: l' => (startsWith_underscore (fst kv) = false /\ tidy (snd kv)) /\ all l'
            end) props
  | _ => True
  end.

(** What get_common_fragments lists for a fragment: it is an object and
    its [smiles] can be read and is not [undefined]. *)
Definition listed (lib : Library) (fragment s : val) : Prop :=
  truthy fragment && String.eqb (typeof fragment) "object" = true
  /\ read_smiles lib fragment = Ok s /\ is_defined s = true.

Definition skipped (lib : Library) (fragment : val) : Prop :=
  truthy fragment && String.eqb (typeof fragment) "object" = false
  \/ (exists e, read_smiles lib fragment = Throw e)
  \/ read_smiles lib fragment = Ok VUndef.

End ToolProps.

(** ** The tools on a store of objects *)

Module Heap.
Import JS Skill.

(** Objects have identity: a value is a primitive, a function, or a
    reference to a cell of the store, and a cell is an array, a plain
    object or an object of smiles-js.  The store only grows; a cell is
    changed by assignment to one of its properties.  A function is kept
    by its name and is no cell: the tools never write to one, and whether
    two function values are the same object is not expressed. *)
Inductive hval : Type :=
| HUndef
| HNull
| HBool (b : bool)
| HNum (n : Z)
| HStr (s : string)
| HFun (name : string)
| HRef (l : nat).

Inductive cell : Type :=
| CArr (elems : list hval)
| CObj (props : list (string * hval))
| CNode (props : list (string * hval)).

Definition store : Type := list cell.

(** Computations on the store that may throw. *)
Definition M (A : Type) : Type := store -> res A * store.

Definition ret {A} (a : A) : M A := fun st => (Ok a, st).

Definition throw {A} (e : JsError) : M A := fun st => (Throw e, st).

Definition mbind {A B} (c : M A) (k : A -> M B) : M B :=
  fun st =>
    match c st with
    | (Ok a, st') => k a st'
    | (Throw e, st') => (Throw e, st')
    end.

Definition mtry {A} (body : M A) (handler : JsError -> M A) : M A :=
  fun st =>
    match body st with
    | (Ok a, st') => (Ok a, st')
    | (Throw e, st') => handler e st'
    end.

Notation "x <~ c ;; k" := (mbind c (fun x => k))
  (at level 61, c at next level, right associativity).

(** A new object: the next cell of the store. *)
Definition alloc (c : cell) : M nat := fun st => (Ok (length st), st ++ [c]).

Definition new (c : cell) : M hval := l <~ alloc c ;; ret (HRef l).

Fixpoint update (st : store) (l : nat) (f : cell -> cell) : store :=
  match st, l with
  | [], _ => []
  | c :: rest, O => f c :: rest
  | c :: rest, S l' => c :: update rest l' f
  end.

(** [target[k] = v] on the object in cell [target]. *)
Definition assign (target : nat) (k : string) (v : hval) : M unit :=
  fun st =>
    (Ok tt, update st target (fun c => match c with
                                       | CObj props => CObj (set_prop props k v)
                                       | CNode props => CNode (set_prop props k v)
                                       | CArr elems => CArr elems
                                       end)).

(** The next element of the array in cell [target]. *)
Definition push (target : nat) (v : hval) : M unit :=
  fun st =>
    (Ok tt, update st target (fun c => match c with
                                       | CArr elems => CArr (elems ++ [v])
                                       | other => other
                                       end)).

Definition cell_of (st : store) (v : hval) : option cell :=
  match v with
  | HRef l => nth_error st l
  | _ => None
  end.

Definition truthy (v : hval) : bool :=
  match v with
  | HUndef | HNull => false
  | HBool b => b
  | HNum n => negb (Z.eqb n 0)
  | HStr s => negb (String.eqb s EmptyString)
  | HFun _ | HRef _ => true
  end.

Definition typeof (v : hval) : string :=
  match v with
  | HUndef => "undefined"
  | HNull => "object"
  | HBool _ => "boolean"
  | HNum _ => "number"
  | HStr _ => "string"
  | HFun _ => "function"
  | HRef _ => "object"
  end.

Definition is_str (v : hval) (lit : string) : bool :=
  match v with
  | HStr s => String.eqb s lit
  | _ => false
  end.

Definition is_defined (v : hval) : bool :=
  match v with
  | HUndef => false
  | _ => true
  end.

Definition or_else (a b : hval) : hval := if truthy a then a else b.

(** [o.k] in the store [st]. *)
Definition get_in (st : store) (o : hval) (k : string) : hval :=
  match cell_of st o with
  | Some (CObj props) | Some (CNode props) =>
      match lookup k props with
      | Some v => v
      | None => HUndef
      end
  | _ => HUndef
  end.

Definition get (o : hval) (k : string) : M hval := fun st => (Ok (get_in st o k), st).

Definition destructure (arg : hval) (k : string) : M hval :=
  match arg with
  | HUndef => throw (TypeError "Cannot destructure property of undefined")
  | HNull => throw (TypeError "Cannot destructure property of null")
  | _ => get arg k
  end.

Fixpoint chars (s : string) : list hval :=
  match s with
  | EmptyString => []
  | String c s' => HStr (String c EmptyString) :: chars s'
  end.

Definition entries_in (st : store) (v : hval) : list (string * hval) :=
  match v with
  | HStr s => indexed_from 0 (chars s)
  | HRef l =>
      match nth_error st l with
      | Some (CObj props) | Some (CNode props) => props
      | Some (CArr elems) => indexed_from 0 elems
      | None => []
      end
  | _ => []
  end.

Definition Object_entries (v : hval) : M (list (string * hval)) :=
  fun st => (Ok (entries_in st v), st).

(** The interface of smiles-js on the store. *)
Record Library : Type := {
  parse : hval -> M hval;
  buildSMILES : hval -> M hval;
  decompile : hval -> M hval;
  isValidRoundTrip : hval -> M hval;
  Ring : hval -> M hval;
  Linear : hval -> hval -> hval -> M hval;
  FusedRing : hval -> M hval;
  Molecule : hval -> M hval;
  common : list (string * hval);
  toObject : hval -> M hval;
  smiles : hval -> M hval;
  call : string -> hval -> list hval -> M hval;
  objectToString : hval -> M string
}.

Section Tools.
Variable lib : Library.

Definition ToString (v : hval) : M string :=
  match v with
  | HUndef => ret "undefined"
  | HNull => ret "null"
  | HBool true => ret "true"
  | HBool false => ret "false"
  | HNum n => ret (string_of_Z n)
  | HStr s => ret s
  | _ => objectToString lib v
  end.

(** The loop of [Array.prototype.map]: the results are stored in the new
    array one by one. *)
Fixpoint fill (f : hval -> M hval) (target : nat) (elems : list hval) : M unit :=
  match elems with
  | [] => ret tt
  | e :: rest => v <~ f e ;; _ <~ push target v ;; fill f target rest
  end.

Definition method_map (callback : string) (f : hval -> M hval) (list : hval) : M hval :=
  fun st =>
    match list with
    | HUndef => throw (TypeError "Cannot read properties of undefined (reading 'map')") st
    | HNull => throw (TypeError "Cannot read properties of null (reading 'map')") st
    | HRef l =>
        match nth_error st l with
        | Some (CArr elems) =>
            (target <~ alloc (CArr []) ;;
             _ <~ fill f target elems ;;
             ret (HRef target)) st
        | Some (CObj props) | Some (CNode props) =>
            match lookup "map" props with
            | Some (HFun g) => call lib g list [HFun callback] st
            | _ => throw (TypeError "map is not a function") st
            end
        | None => throw (TypeError "map is not a function") st
        end
    | _ => throw (TypeError "map is not a function") st
    end.

Definition has_toObject (st : store) (node : hval) : bool :=
  match cell_of st node with
  | Some (CNode _) => true
  | _ => truthy (get_in st node "toObject")
  end.

Definition call_toObject (node : hval) : M hval :=
  fun st =>
    match cell_of st node with
    | Some (CNode _) => toObject lib node st
    | _ =>
        match get_in st node "toObject" with
        | HFun f => call lib f node [] st
        | _ => throw (TypeError "node.toObject is not a function") st
        end
    end.

Definition isArray (st : store) (v : hval) : bool :=
  match cell_of st v with
  | Some (CArr _) => true
  | _ => false
  end.

Definition elements_in (st : store) (v : hval) : list hval :=
  match cell_of st v with
  | Some (CArr elems) => elems
  | _ => []
  end.

Fixpoint copy_loop (astToObject : hval -> M hval) (result : nat)
  (entries : list (string * hval)) : M unit :=
  match entries with
  | [] => ret tt
  | (key, value) :: rest =>
      if startsWith_underscore key then copy_loop astToObject result rest
      else if String.eqb (typeof value) "function" then copy_loop astToObject result rest
      else
        v <~ astToObject value ;;
        _ <~ assign result key v ;;
        copy_loop astToObject result rest
  end.

(** astToObject, statement by statement, with the call depth that is
    left. *)
Fixpoint astToObject_at (depth : nat) (node : hval) : M hval :=
  match depth with
  | O => throw RangeError
  | S depth' =>
      fun st =>
        if negb (truthy node) || negb (String.eqb (typeof node) "object") then ret node st
        else if has_toObject st node then call_toObject node st
        else if isArray st node then
          (target <~ alloc (CArr []) ;;
           _ <~ fill (astToObject_at depth') target (elements_in st node) ;;
           ret (HRef target)) st
        else
          (result <~ alloc (CObj []) ;;
           _ <~ copy_loop (astToObject_at depth') result (entries_in st node) ;;
           ret (HRef result)) st
  end.

(** A traversal deeper than the store has cells is inside a cell it came
    from: it does not end, which the runtime reports as a RangeError.  So
    this depth is a stack that is deep enough. *)
Definition astToObject (node : hval) : M hval :=
  fun st => astToObject_at (S (length st)) node st.

Fixpoint attach_loop (objectToAst : hval -> M hval) (result : nat)
  (entries : list (string * hval)) : M unit :=
  match entries with
  | [] => ret tt
  | (pos, list) :: rest =>
      v <~ method_map "objectToAst" objectToAst list ;;
      _ <~ assign result pos v ;;
      attach_loop objectToAst result rest
  end.

Definition reconstructAttachments (objectToAst : hval -> M hval) (attachments : hval)
  : M hval :=
  if negb (truthy attachments) then new (CObj [])
  else
    result <~ alloc (CObj []) ;;
    entries <~ Object_entries attachments ;;
    _ <~ attach_loop objectToAst result entries ;;
    ret (HRef result).

(** [v || {}] and [v || []]: the literal is a new object. *)
Definition or_new (v : hval) (c : cell) : M hval :=
  if truthy v then ret v else new c.

Fixpoint objectToAst_at (depth : nat) (obj : hval) : M hval :=
  match depth with
  | O => throw RangeError
  | S depth' =>
      if negb (truthy obj) || negb (String.eqb (typeof obj) "object") then ret obj
      else
        type <~ get obj "type" ;;
        if is_str type "ring" then
          atoms <~ get obj "atoms" ;;
          size <~ get obj "size" ;;
          ringNumber <~ get obj "ringNumber" ;;
          offset <~ get obj "offset" ;;
          substitutions <~ get obj "substitutions" ;;
          substitutions' <~ or_new substitutions (CObj []) ;;
          attachments <~ get obj "attachments" ;;
          attachments' <~ reconstructAttachments (objectToAst_at depth') attachments ;;
          bonds <~ get obj "bonds" ;;
          bonds' <~ or_new bonds (CArr []) ;;
          options <~ new (CObj [ ("atoms", atoms); ("size", size);
                                 ("ringNumber", or_else ringNumber (HNum 1));
                                 ("offset", or_else offset (HNum 0));
                                 ("substitutions", substitutions');
                                 ("attachments", attachments');
                                 ("bonds", bonds') ]) ;;
          Ring lib options
        else if is_str type "linear" then
          atoms <~ get obj "atoms" ;;
          atoms' <~ or_new atoms (CArr []) ;;
          bonds <~ get obj "bonds" ;;
          bonds' <~ or_new bonds (CArr []) ;;
          attachments <~ get obj "attachments" ;;
          attachments' <~ reconstructAttachments (objectToAst_at depth') attachments ;;
          Linear lib atoms' bonds' attachments'
        else if is_str type "fused_ring" then
          rings <~ get obj "rings" ;;
          rings' <~ or_new rings (CArr []) ;;
          nodes <~ method_map "objectToAst" (objectToAst_at depth') rings' ;;
          FusedRing lib nodes
        else if is_str type "molecule" then
          components <~ get obj "components" ;;
          components' <~ or_new components (CArr []) ;;
          nodes <~ method_map "objectToAst" (objectToAst_at depth') components' ;;
          Molecule lib nodes
        else ret obj
  end.

Definition objectToAst (obj : hval) : M hval :=
  fun st => objectToAst_at (S (length st)) obj st.

Definition failure (error : JsError) : M hval :=
  new (CObj [("success", HBool false); ("error", HStr (errMessage error))]).

Definition parse_smiles (input : hval) : M hval :=
  smiles <~ destructure input "smiles" ;;
  mtry
    (ast <~ parse lib smiles ;;
     astObject <~ astToObject ast ;;
     new (CObj [("success", HBool true); ("smiles", smiles); ("ast", astObject)]))
    failure.

Definition build_smiles (input : hval) : M hval :=
  ast <~ destructure input "ast" ;;
  mtry
    (node <~ objectToAst ast ;;
     smiles <~ buildSMILES lib node ;;
     new (CObj [("success", HBool true); ("smiles", smiles)]))
    failure.

Definition decompile_smiles (input : hval) : M hval :=
  smiles <~ destructure input "smiles" ;;
  mtry
    (ast <~ parse lib smiles ;;
     code <~ decompile lib ast ;;
     new (CObj [("success", HBool true); ("smiles", smiles); ("code", code)]))
    failure.

Definition validate_roundtrip (input : hval) : M hval :=
  smiles <~ destructure input "smiles" ;;
  mtry
    (isValid <~ isValidRoundTrip lib smiles ;;
     if truthy isValid then
       new (CObj [("success", HBool true); ("smiles", smiles); ("valid", HBool true);
                  ("message", HStr "SMILES round-trip validation passed")])
     else
       ast <~ parse lib smiles ;;
       regenerated <~ buildSMILES lib ast ;;
       expected <~ ToString smiles ;;
       got <~ ToString regenerated ;;
       new (CObj [("success", HBool true); ("smiles", smiles); ("valid", HBool false);
                  ("regenerated", regenerated);
                  ("message", HStr (mismatch_message expected got))]))
    failure.

Definition read_smiles (fragment : hval) : M hval :=
  fun st =>
    match cell_of st fragment with
    | Some (CNode _) => smiles lib fragment st
    | _ => get fragment "smiles" st
    end.

Fixpoint each {A B} (f : A -> M B) (l : list A) : M (list B) :=
  match l with
  | [] => ret []
  | x :: l' => y <~ f x ;; ys <~ each f l' ;; ret (y :: ys)
  end.

(** A literal: new cells for the arrays and objects of a value, the inner
    ones first. *)
Fixpoint literal (v : val) : M hval :=
  match v with
  | VUndef => ret HUndef
  | VNull => ret HNull
  | VBool b => ret (HBool b)
  | VNum n => ret (HNum n)
  | VStr s => ret (HStr s)
  | VFun f => ret (HFun f)
  | VArr elems => elems' <~ each literal elems ;; new (CArr elems')
  | VObj props =>
      props' <~ each (fun kv => h <~ literal (snd kv) ;; ret (fst kv, h)) props ;;
      new (CObj props')
  | VNode props =>
      props' <~ each (fun kv => h <~ literal (snd kv) ;; ret (fst kv, h)) props ;;
      new (CNode props')
  end.

Definition add_fragment (fragments : nat) (entry : string * hval) : M unit :=
  let '(name, fragment) := entry in
  mtry
    (if truthy fragment && String.eqb (typeof fragment) "object" then
       probe <~ read_smiles fragment ;;
       if is_defined probe then
         s <~ read_smiles fragment ;;
         type <~ get fragment "type" ;;
         record <~ new (CObj [("smiles", s); ("type", type)]) ;;
         assign fragments name record
       else ret tt
     else ret tt)
    (fun _ => ret tt).

Fixpoint for_each {A} (body : A -> M unit) (l : list A) : M unit :=
  match l with
  | [] => ret tt
  | x :: l' => _ <~ body x ;; for_each body l'
  end.

Definition get_common_fragments : M hval :=
  fragments <~ alloc (CObj []) ;;
  _ <~ for_each (add_fragment fragments) (common lib) ;;
  groups <~ literal categories ;;
  new (CObj [("success", HBool true); ("fragments", HRef fragments);
             ("categories", groups)]).

Definition tools (t : tool) (input : hval) : M hval :=
  match t with
  | tool_parse_smiles => parse_smiles input
  | tool_build_smiles => build_smiles input
  | tool_decompile_smiles => decompile_smiles input
  | tool_validate_roundtrip => validate_roundtrip input
  | tool_get_common_fragments => get_common_fragments
  end.

End Tools.
End Heap.

(** ** Trees in the store *)

Module HeapSpec.
Import JS Skill Heap.

(** [rep D st h t]: in the store [st] the value [h] is the tree [t], and
    the cells it is made of are all in [D]. *)
Fixpoint rep (D : nat -> Prop) (st : store) (h : hval) (t : val) {struct t} : Prop :=
  match t with
  | VUndef => h = HUndef
  | VNull => h = HNull
  | VBool b => h = HBool b
  | VNum n => h = HNum n
  | VStr s => h = HStr s
  | VFun f => h = HFun f
  | VArr elems =>
      exists l hs, h = HRef l /\ D l /\ nth_error st l = Some (CArr hs) /\
        (fix all (hs : list hval) (ts : list val) {struct ts} : Prop :=
           match ts, hs with
           | [], [] => True
           | t' :: ts', h' :: hs' => rep D st h' t' /\ all hs' ts'
           | _, _ => False
           end) hs elems
  | VObj props =>
      exists l hps, h = HRef l /\ D l /\ nth_error st l = Some (CObj hps) /\
        (fix all (hps : list (string * hval)) (ps : list (string * val)) {struct ps} : Prop :=
           match ps, hps with
           | [], [] => True
           | p :: ps', hp :: hps' =>
               (fst hp = fst p /\ rep D st (snd hp) (snd p)) /\ all hps' ps'
           | _, _ => False
           end) hps props
  | VNode props =>
      exists l hps, h = HRef l /\ D l /\ nth_error st l = Some (CNode hps) /\
        (fix all (hps : list (string * hval)) (ps : list (string * val)) {struct ps} : Prop :=
           match ps, hps with
           | [], [] => True
           | p :: ps', hp :: hps' =>
               (fst hp = fst p /\ rep D st (snd hp) (snd p)) /\ all hps' ps'
           | _, _ => False
           end) hps props
  end.

(** A property of the store and one of the tree: the same key, and the
    value is the tree. *)
Definition rep_prop (D : nat -> Prop) (st : store) (hp : string * hval) (p : string * val)
  : Prop :=
  fst hp = fst p /\ rep D st (snd hp) (snd p).

Definition rep_res (D : nat -> Prop) (st : store) (r : res hval) (p : res val) : Prop :=
  match r, p with
  | Ok h, Ok t => rep D st h t
  | Throw e, Throw e' => e = e'
  | _, _ => False
  end.

(** Every cell that was in [st] and is in [P] is the same in [st']. *)
Definition agree (P : nat -> Prop) (st st' : store) : Prop :=
  length st <= length st' /\
  forall l, l < length st -> P l -> nth_error st' l = nth_error st l.

Definition everywhere : nat -> Prop := fun _ => True.

Definition bounded (D : nat -> Prop) (st : store) : Prop :=
  forall l, D l -> l < length st.

(** The cells of [D] and the cells that did not exist in [st]. *)
Definition grown (D : nat -> Prop) (st : store) : nat -> Prop :=
  fun l => D l \/ length st <= l.

(** Two properties with the same key and related values. *)
Definition related {A B} (R : A -> B -> Prop) (x : string * A) (y : string * B) : Prop :=
  fst x = fst y /\ R (snd x) (snd y).

(** The cells of [P] that exist in [st]. *)
Definition within (P : nat -> Prop) (st : store) : nat -> Prop :=
  fun l => P l /\ l < length st.

(** A run from [st] that changes no cell of [st] and ends as [p] does,
    with results related by [R] on the cells of [D] and the new cells. *)
Definition ok {A B} (R : (nat -> Prop) -> store -> A -> B -> Prop)
  (D : nat -> Prop) (st : store) (run : res A * store) (p : res B) : Prop :=
  agree everywhere st (snd run)
  /\ match fst run, p with
     | Ok a, Ok b => R (grown D st) (snd run) a b
     | Throw e, Throw e' => e = e'
     | _, _ => False
     end.

(** Results that are no objects are related when they are equal. *)
Definition same {A} : (nat -> Prop) -> store -> A -> A -> Prop := fun _ _ a b => a = b.

(** Relations that hold on a larger domain and in a later store. *)
Definition stable {A B} (R : (nat -> Prop) -> store -> A -> B -> Prop) : Prop :=
  forall D D' P st st' a b,
    agree P st st' ->
    (forall l, D l -> l < length st -> D' l /\ P l) ->
    R D st a b -> R D' st' a b.

(** The domain in which the later steps of a run see the earlier ones. *)
Definition later (D : nat -> Prop) (st st' : store) : nat -> Prop :=
  within (grown D st) st'.

(** The cells of [D] and the cells allocated after [target]. *)
Definition after (D : nat -> Prop) (target : nat) : nat -> Prop :=
  fun l => D l \/ target < l.

(** [f] on the store does what [f'] does on trees, for the tree [t]. *)
Definition simulates (f : hval -> M hval) (f' : val -> res val) (t : val) : Prop :=
  forall D st h, bounded D st -> rep D st h t -> ok rep D st (f h st) (f' t).

(** The cell of an array after [push], and the cell of an object after an
    assignment to a property. *)
Definition pushed (v : hval) (c : cell) : cell :=
  match c with
  | CArr elems => CArr (elems ++ [v])
  | other => other
  end.

Definition assigned (k : string) (v : hval) (c : cell) : cell :=
  match c with
  | CObj props => CObj (set_prop props k v)
  | CNode props => CNode (set_prop props k v)
  | CArr elems => CArr elems
  end.

(** A descent of distinct cells, one for each level of the tree. *)
Definition descent (D : nat -> Prop) (st : store) (t : val) (path : list nat) : Prop :=
  NoDup path /\ length path = height t
  /\ forall l, In l path ->
       l < length st /\ exists t', rep D st (HRef l) t' /\ height t' <= height t.

(** Modelled from the spec: the operations of the engine are
    side-effect-free over immutable values.  The library on the store does
    what the library on trees does: it changes no cell, and what it
    returns is made of the cells of its arguments and of new cells. *)
Record faithful (hlib : Heap.Library) (lib : SmilesJs.Library) : Prop := {
  sim_parse : forall t, simulates (Heap.parse hlib) (SmilesJs.parse lib) t;
  sim_buildSMILES : forall t, simulates (Heap.buildSMILES hlib) (SmilesJs.buildSMILES lib) t;
  sim_decompile : forall t, simulates (Heap.decompile hlib) (SmilesJs.decompile lib) t;
  sim_isValidRoundTrip :
    forall t, simulates (Heap.isValidRoundTrip hlib) (SmilesJs.isValidRoundTrip lib) t;
  sim_Ring : forall t, simulates (Heap.Ring hlib) (SmilesJs.Ring lib) t;
  sim_Linear :
    forall D st h1 h2 h3 t1 t2 t3,
      bounded D st -> rep D st h1 t1 -> rep D st h2 t2 -> rep D st h3 t3 ->
      ok rep D st (Heap.Linear hlib h1 h2 h3 st) (SmilesJs.Linear lib t1 t2 t3);
  sim_FusedRing : forall t, simulates (Heap.FusedRing hlib) (SmilesJs.FusedRing lib) t;
  sim_Molecule : forall t, simulates (Heap.Molecule hlib) (SmilesJs.Molecule lib) t;
  sim_toObject : forall t, simulates (Heap.toObject hlib) (SmilesJs.toObject lib) t;
  sim_smiles : forall t, simulates (Heap.smiles hlib) (SmilesJs.smiles lib) t;
  sim_call :
    forall f D st h t hs ts,
      bounded D st -> rep D st h t -> Forall2 (rep D st) hs ts ->
      ok rep D st (Heap.call hlib f h hs st) (SmilesJs.call lib f t ts);
  sim_objectToString :
    forall D st h t,
      bounded D st -> rep D st h t ->
      ok same D st (Heap.objectToString hlib h st) (SmilesJs.objectToString lib t)
}.

(** Relations that hold on the cells of the store alone, and their
    extension to lists. *)
Definition narrow {A B} (R : (nat -> Prop) -> store -> A -> B -> Prop) : Prop :=
  forall D st a b, R D st a b -> R (within D st) st a b.

Definition all_of {A B} (R : (nat -> Prop) -> store -> A -> B -> Prop)
  : (nat -> Prop) -> store -> list A -> list B -> Prop :=
  fun D st => Forall2 (R D st).

End HeapSpec.

(** ** A library on the store *)

Module HeapLibrary.
Import JS Skill Heap.

(** Every element has a result, or there is none. *)
Fixpoint all_some {A B} (f : A -> option B) (l : list A) : option (list B) :=
  match l with
  | [] => Some []
  | x :: l' =>
      match f x, all_some f l' with
      | Some y, Some ys => Some (y :: ys)
      | _, _ => None
      end
  end.

(** The tree that a value is in the store, read to the given depth. *)
Fixpoint reify_at (depth : nat) (st : store) (h : hval) : option val :=
  match depth with
  | O => None
  | S depth' =>
      let props hps :=
        all_some (fun kv => option_map (pair (fst kv)) (reify_at depth' st (snd kv))) hps in
      match h with
      | HUndef => Some VUndef
      | HNull => Some VNull
      | HBool b => Some (VBool b)
      | HNum n => Some (VNum n)
      | HStr s => Some (VStr s)
      | HFun f => Some (VFun f)
      | HRef l =>
          match nth_error st l with
          | Some (CArr hs) => option_map VArr (all_some (reify_at depth' st) hs)
          | Some (CObj hps) => option_map VObj (props hps)
          | Some (CNode hps) => option_map VNode (props hps)
          | None => None
          end
      end
  end.

Definition reify (st : store) (h : hval) : option val := reify_at (S (length st)) st h.

(** Modelled from the spec: what an operation of the engine returns is a
    new object; an operation that throws has changed nothing. *)
Definition returned (p : res val) : M hval :=
  match p with
  | Ok r => literal r
  | Throw e => throw e
  end.

(** Modelled from the spec: an operation of the engine depends on the
    value of its arguments only.  An argument that is no finite tree has no
    value: reading it does not end, which the runtime reports as a
    RangeError. *)
Definition lift (f : val -> res val) : hval -> M hval :=
  fun h st =>
    match reify st h with
    | Some t => returned (f t) st
    | None => throw RangeError st
    end.

Definition lift3 (f : val -> val -> val -> res val) : hval -> hval -> hval -> M hval :=
  fun h1 h2 h3 st =>
    match reify st h1, reify st h2, reify st h3 with
    | Some t1, Some t2, Some t3 => returned (f t1 t2 t3) st
    | _, _, _ => throw RangeError st
    end.

Definition lift_call (f : val -> list val -> res val) : hval -> list hval -> M hval :=
  fun h hs st =>
    match reify st h, all_some (reify st) hs with
    | Some t, Some ts => returned (f t ts) st
    | _, _ => throw RangeError st
    end.

(** String conversion returns no object. *)
Definition lift_string (f : val -> res string) : hval -> M string :=
  fun h st =>
    match reify st h with
    | Some t => match f t with
                | Ok s => ret s st
                | Throw e => throw e st
                end
    | None => throw RangeError st
    end.

(** Modelled from the spec: the operations of the engine are
    side-effect-free over immutable values.  On the store an operation
    reads its arguments and returns new objects; the table of fragments is
    in the cells [table]. *)
Definition on_store (lib : SmilesJs.Library) (table : list (string * hval)) : Heap.Library :=
  {| Heap.parse := lift (SmilesJs.parse lib);
     Heap.buildSMILES := lift (SmilesJs.buildSMILES lib);
     Heap.decompile := lift (SmilesJs.decompile lib);
     Heap.isValidRoundTrip := lift (SmilesJs.isValidRoundTrip lib);
     Heap.Ring := lift (SmilesJs.Ring lib);
     Heap.Linear := lift3 (SmilesJs.Linear lib);
     Heap.FusedRing := lift (SmilesJs.FusedRing lib);
     Heap.Molecule := lift (SmilesJs.Molecule lib);
     Heap.common := table;
     Heap.toObject := lift (SmilesJs.toObject lib);
     Heap.smiles := lift (SmilesJs.smiles lib);
     Heap.call := fun f => lift_call (SmilesJs.call lib f);
     Heap.objectToString := lift_string (SmilesJs.objectToString lib) |}.

(** The module of fragments is loaded: its objects are the first cells of
    the store. *)
Definition install (lib : SmilesJs.Library) : res (list (string * hval)) * store :=
  each (fun kv => h <~ literal (snd kv) ;; ret (fst kv, h)) (SmilesJs.common lib) [].

Definition loaded_table (lib : SmilesJs.Library) : list (string * hval) :=
  match fst (install lib) with
  | Ok table => table
  | Throw _ => []
  end.

Definition loaded_store (lib : SmilesJs.Library) : store := snd (install lib).

Definition loaded (lib : SmilesJs.Library) : Heap.Library := on_store lib (loaded_table lib).

End HeapLibrary.

Module HeapClaims.
Import JS Skill Heap HeapSpec.

(** In the store [st] the value [h] is the record [t]. *)
Definition represents (st : store) (h : hval) (t : val) : Prop := rep everywhere st h t.

(** The outcome of a call, as a record or an exception. *)
Definition outcome (st : store) (r : res hval) (p : res val) : Prop :=
  rep_res everywhere st r p.

(** The table of fragments of the library is in the store. *)
Definition table_in (hlib : Heap.Library) (lib : SmilesJs.Library) (st : store) : Prop :=
  Forall2 (rep_prop everywhere st) (Heap.common hlib) (SmilesJs.common lib).

(** A record written down in the store: its cells are new. *)
Definition place (tree : val) (st : store) : hval * store :=
  match literal tree st with
  | (Ok h, st') => (h, st')
  | (Throw _, st') => (HUndef, st')
  end.

(** The input [{ ast: { type: 'linear', atoms: ['C', 'C', 'O'], bonds: [] } }]. *)
Definition ethanol_input : val :=
  VObj [("ast", VObj [("type", VStr "linear");
                      ("atoms", VArr [VStr "C"; VStr "C"; VStr "O"]);
                      ("bonds", VArr [])])].

End HeapClaims.

(** ** New objects *)

Module HeapProps.
Import JS Skill Heap HeapSpec.

(** No cell of the store. *)
Definition nowhere : nat -> Prop := fun _ => False.

(** The cells that did not exist in [st]. *)
Definition new_in (st : store) : nat -> Prop := fun l => length st <= l.

(** [f] on the store does what [f'] does on trees, for the tree [t], and
    what it returns is made of new cells only. *)
Definition builds (f : hval -> M hval) (f' : val -> res val) (t : val) : Prop :=
  forall D st h, bounded D st -> rep D st h t -> ok rep nowhere st (f h st) (f' t).

(** No function in a value, at any depth. *)
Definition function_free_entry (function_free : val -> bool) (kv : string * val) : bool :=
  function_free (snd kv).

Fixpoint function_free (v : val) : bool :=
  match v with
  | VFun _ => false
  | VArr elems => forallb function_free elems
  | VObj props | VNode props => forallb (function_free_entry function_free) props
  | _ => true
  end.

(** A node as it may come from elsewhere: data, a private field and a
    method. *)
Definition annotated_chain : val :=
  VObj [("type", VStr "linear"); ("_cache", VObj [("hits", VNum 3)]);
        ("atoms", VArr [VStr "C"; VStr "O"]); ("clone", VFun "clone")].

End HeapProps.

(** ** Facts about values *)

Module ValueFacts.
Import JS.

(** *** Nesting depth *)

Lemma height_elem (elems : list val) (e : val) :
  In e elems -> height e < height (VArr elems).
Proof.
  intros Hin. simpl. apply Nat.lt_succ_r.
  induction elems as [ | x l IH ]; [ destruct Hin | ].
  destruct Hin as [ <- | Hin ].
  - apply Nat.le_max_l.
  - etransitivity; [ apply IH, Hin | apply Nat.le_max_r ].
Qed.

Lemma height_prop (props : list (string * val)) (k : string) (v : val) :
  In (k, v) props -> height v < height (VObj props).
Proof.
  intros Hin. simpl. apply Nat.lt_succ_r.
  induction props as [ | x l IH ]; [ destruct Hin | ].
  destruct Hin as [ -> | Hin ].
  - apply Nat.le_max_l.
  - etransitivity; [ apply IH, Hin | apply Nat.le_max_r ].
Qed.

Lemma lookup_In (k : string) (props : list (string * val)) (v : val) :
  lookup k props = Some v -> In (k, v) props.
Proof.
  induction props as [ | [k' v'] rest IH ]; simpl; [ discriminate | ].
  destruct (String.eqb k k') eqn:Hk.
  - intros [= <-]. apply String.eqb_eq in Hk. subst. now left.
  - intros H. right. now apply IH.
Qed.

Lemma height_get (o : val) (k : string) : height (get o k) <= Nat.pred (height o).
Proof.
  destruct o; simpl; try lia;
    destruct (lookup k props) as [v | ] eqn:Hl; simpl; try lia;
    apply lookup_In, height_prop in Hl; simpl in Hl; lia.
Qed.

Lemma In_indexed_from {A} (i : nat) (l : list A) (k : string) (x : A) :
  In (k, x) (indexed_from i l) -> In x l.
Proof.
  revert i. induction l as [ | y l IH ]; simpl; intros i; [ tauto | ].
  intros [ [= _ <-] | Hin ]; [ now left | right; eauto ].
Qed.

Lemma height_chars (s : string) (v : val) : In v (chars s) -> height v = 0.
Proof.
  induction s as [ | c s IH ]; simpl; [ tauto | ].
  intros [ <- | Hin ]; [ reflexivity | auto ].
Qed.

Lemma height_entry (a : val) (k : string) (v : val) :
  In (k, v) (Object_entries a) -> height v <= Nat.pred (height a).
Proof.
  destruct a; simpl; try tauto; intros Hin.
  - apply In_indexed_from, height_chars in Hin. lia.
  - apply In_indexed_from, height_elem in Hin. simpl in Hin. lia.
  - apply height_prop in Hin. simpl in Hin. lia.
  - apply height_prop in Hin. simpl in Hin. lia.
Qed.

(** *** Property assignment *)

Lemma lookup_app (k : string) (l1 l2 : list (string * val)) :
  lookup k (l1 ++ l2) = match lookup k l1 with Some v => Some v | None => lookup k l2 end.
Proof.
  induction l1 as [ | [k' v'] l1 IH ]; simpl; [ reflexivity | ].
  destruct (String.eqb k k'); [ reflexivity | exact IH ].
Qed.

Lemma has_key_lookup (k : string) (props : list (string * val)) :
  has_key k props = false -> lookup k props = None.
Proof.
  induction props as [ | [k' v'] rest IH ]; simpl; [ reflexivity | ].
  destruct (String.eqb k k'); simpl; [ discriminate | exact IH ].
Qed.

Lemma lookup_replace_prop (k k' : string) (v : val) (props : list (string * val)) :
  has_key k props = true ->
  lookup k' (replace_prop k v props) = if String.eqb k' k then Some v else lookup k' props.
Proof.
  induction props as [ | [k0 v0] rest IH ]; simpl; [ discriminate | ].
  destruct (String.eqb k k0) eqn:Hk; simpl.
  - intros _. apply String.eqb_eq in Hk. subst k0.
    destruct (String.eqb k' k); reflexivity.
  - intros Hkey. rewrite IH by exact Hkey.
    destruct (String.eqb k' k0) eqn:Hk0; [ | reflexivity ].
    apply String.eqb_eq in Hk0. subst k0.
    rewrite String.eqb_sym, Hk. reflexivity.
Qed.

Lemma lookup_insert_index (n : N) (k k' : string) (v : val) (props : list (string * val)) :
  has_key k props = false ->
  lookup k' (insert_index n k v props) = if String.eqb k' k then Some v else lookup k' props.
Proof.
  induction props as [ | [k0 v0] rest IH ]; simpl.
  - intros _. destruct (String.eqb k' k); reflexivity.
  - destruct (String.eqb k k0) eqn:Hk; simpl; [ discriminate | ]. intros Hkey.
    assert (Hhead : lookup k' ((k, v) :: (k0, v0) :: rest)
                    = if String.eqb k' k then Some v else lookup k' ((k0, v0) :: rest))
      by reflexivity.
    destruct (array_index k0) as [m | ]; [ | exact Hhead ].
    destruct (m <? n)%N; [ | exact Hhead ].
    simpl. rewrite IH by exact Hkey.
    destruct (String.eqb k' k0) eqn:Hk0; [ | reflexivity ].
    apply String.eqb_eq in Hk0. subst k0.
    rewrite String.eqb_sym, Hk. reflexivity.
Qed.

Lemma lookup_set_prop (k k' : string) (v : val) (props : list (string * val)) :
  lookup k' (set_prop props k v) = if String.eqb k' k then Some v else lookup k' props.
Proof.
  unfold set_prop. destruct (has_key k props) eqn:Hkey.
  - now apply lookup_replace_prop.
  - destruct (array_index k) as [n | ].
    + now apply lookup_insert_index.
    + rewrite lookup_app. simpl.
      destruct (String.eqb k' k) eqn:Hk.
      * apply String.eqb_eq in Hk. subst k'. now rewrite (has_key_lookup _ _ Hkey).
      * now destruct (lookup k' props).
Qed.




End ValueFacts.

(** ** Properties of the tools *)

Module ToolFacts.
Import JS SmilesJs Skill ToolSpec ValueFacts.

Lemma destructure_record (input : val) (k : string) :
  nullish input = false -> destructure input k = Ok (get input k).
Proof. destruct input; simpl; intros H; try reflexivity; discriminate H. Qed.

Lemma destructure_ok (input : val) (k : string) (v : val) :
  destructure input k = Ok v -> v = get input k.
Proof. destruct input; simpl; intros H; try discriminate H; now injection H. Qed.

Lemma structured_failure (e : JsError) : structured (failure_result e).
Proof. eexists; split; [reflexivity | right; eexists; reflexivity]. Qed.

Lemma structured_success (rest : list (string * val)) :
  structured (VObj (("success", VBool true) :: rest)).
Proof. eexists; split; [reflexivity | left; reflexivity]. Qed.

Section AnyLibrary.
Variable lib : Library.

(** *** The call depth of objectToAst *)

Lemma mapM_ext {A B} (f g : A -> res B) (l : list A) :
  (forall x, In x l -> f x = g x) -> mapM f l = mapM g l.
Proof.
  induction l as [ | x l IH ]; simpl; intros Hfg; [ reflexivity | ].
  rewrite (Hfg x) by now left. rewrite IH by (intros; apply Hfg; now right).
  reflexivity.
Qed.

Lemma method_map_ext (cb : string) (f g : val -> res val) (list : val) :
  (forall e, height e < height list -> f e = g e) ->
  method_map lib cb f list = method_map lib cb g list.
Proof.
  intros Hfg. destruct list; simpl; try reflexivity.
  rewrite (mapM_ext f g) by (intros; apply Hfg; now apply height_elem).
  reflexivity.
Qed.

Lemma attach_loop_ext (f g : val -> res val) (bound : nat)
  (entries result : list (string * val)) :
  (forall k v, In (k, v) entries -> height v <= bound) ->
  (forall e, height e < bound -> f e = g e) ->
  attach_loop lib f entries result = attach_loop lib g entries result.
Proof.
  revert result. induction entries as [ | [pos list] rest IH ]; simpl;
    intros result Hb Hfg; [ reflexivity | ].
  rewrite (method_map_ext _ f g).
  - destruct (method_map lib "objectToAst" g list); simpl; [ | reflexivity ].
    apply IH; eauto.
  - intros e He. apply Hfg. specialize (Hb pos list (or_introl eq_refl)). lia.
Qed.

Lemma reconstructAttachments_ext (f g : val -> res val) (attachments : val) :
  (forall e, S (height e) < height attachments -> f e = g e) ->
  reconstructAttachments lib f attachments = reconstructAttachments lib g attachments.
Proof.
  intros Hfg. unfold reconstructAttachments.
  destruct (truthy attachments); simpl; [ | reflexivity ].
  rewrite (attach_loop_ext f g (Nat.pred (height attachments))); [ reflexivity | | ].
  - intros k v. apply height_entry.
  - intros e He. apply Hfg. lia.
Qed.

Lemma height_or_else (a b : val) : height (or_else a b) <= Nat.max (height a) (height b).
Proof. unfold or_else. destruct (truthy a); lia. Qed.

Lemma object_height (obj : val) :
  negb (truthy obj) || negb (typeof obj =? "object") = false -> 1 <= height obj.
Proof. destruct obj; simpl; try discriminate; try lia; destruct b; discriminate. Qed.

Lemma objectToAst_at_stable (d1 d2 : nat) (obj : val) :
  height obj < d1 -> height obj < d2 ->
  objectToAst_at lib d1 obj = objectToAst_at lib d2 obj.
Proof.
  revert d2 obj. induction d1 as [ | d1 IH ]; intros d2 obj H1 H2; [ lia | ].
  destruct d2 as [ | d2 ]; [ lia | ].
  simpl.
  destruct (negb (truthy obj) || negb (typeof obj =? "object")) eqn:Hobj;
    [ reflexivity | ].
  apply object_height in Hobj.
  pose proof (height_get obj "attachments") as Ha.
  pose proof (height_get obj "rings") as Hr.
  pose proof (height_get obj "components") as Hc.
  assert (Hatt : reconstructAttachments lib (objectToAst_at lib d1) (get obj "attachments")
                 = reconstructAttachments lib (objectToAst_at lib d2) (get obj "attachments")).
  { apply reconstructAttachments_ext. intros e He. apply IH; lia. }
  assert (Hmap : forall k,
             method_map lib "objectToAst" (objectToAst_at lib d1)
               (or_else (get obj k) (VArr []))
             = method_map lib "objectToAst" (objectToAst_at lib d2)
                 (or_else (get obj k) (VArr []))).
  { intros k. apply method_map_ext. intros e He.
    pose proof (height_get obj k). pose proof (height_or_else (get obj k) (VArr [])).
    simpl in *. apply IH; lia. }
  rewrite Hatt, !Hmap. reflexivity.
Qed.

(** objectToAst never reaches depth 0 from the depth it starts at, and a
    deeper stack changes nothing. *)
Lemma objectToAst_at_enough (depth : nat) (obj : val) :
  height obj < depth -> objectToAst_at lib depth obj = objectToAst lib obj.
Proof. intros Hd. unfold objectToAst. apply objectToAst_at_stable; lia. Qed.

(** *** The functions as the source states them *)

(** objectToAst as the source has it, calling itself and
    reconstructAttachments. *)
Lemma objectToAst_statements (obj : val) :
  objectToAst lib obj =
    if negb (truthy obj) || negb (String.eqb (typeof obj) "object") then Ok obj
    else
      let type := get obj "type" in
      if is_str type "ring" then
        attachments <- reconstructAttachments lib (objectToAst lib) (get obj "attachments") ;;
        Ring lib (ring_options obj attachments)
      else if is_str type "linear" then
        attachments <- reconstructAttachments lib (objectToAst lib) (get obj "attachments") ;;
        Linear lib (or_else (get obj "atoms") (VArr []))
                   (or_else (get obj "bonds") (VArr []))
                   attachments
      else if is_str type "fused_ring" then
        rings <- method_map lib "objectToAst" (objectToAst lib)
                   (or_else (get obj "rings") (VArr [])) ;;
        FusedRing lib rings
      else if is_str type "molecule" then
        components <- method_map lib "objectToAst" (objectToAst lib)
                        (or_else (get obj "components") (VArr [])) ;;
        Molecule lib components
      else Ok obj.
Proof.
  unfold objectToAst at 1. simpl.
  destruct (negb (truthy obj) || negb (typeof obj =? "object")) eqn:Hobj;
    [ reflexivity | ].
  apply object_height in Hobj.
  assert (Hatt : reconstructAttachments lib (objectToAst_at lib (height obj))
                   (get obj "attachments")
                 = reconstructAttachments lib (objectToAst lib) (get obj "attachments")).
  { apply reconstructAttachments_ext. intros e He.
    pose proof (height_get obj "attachments").
    apply objectToAst_at_enough. lia. }
  assert (Hmap : forall k,
             method_map lib "objectToAst" (objectToAst_at lib (height obj))
               (or_else (get obj k) (VArr []))
             = method_map lib "objectToAst" (objectToAst lib)
                 (or_else (get obj k) (VArr []))).
  { intros k. apply method_map_ext. intros e He.
    pose proof (height_get obj k). pose proof (height_or_else (get obj k) (VArr [])).
    simpl in *. apply objectToAst_at_enough. lia. }
  rewrite Hatt, !Hmap. reflexivity.
Qed.

(** astToObject as the source has it. *)
Lemma astToObject_statements (node : val) :
  astToObject lib node =
    if negb (truthy node) || negb (String.eqb (typeof node) "object") then Ok node
    else if has_toObject node then call_toObject lib node
    else if isArray node then
      elems <- mapM (astToObject lib) (array_elements node) ;; Ok (VArr elems)
    else
      result <- copy_loop (astToObject lib) (Object_entries node) [] ;;
      Ok (VObj result).
Proof.
  destruct node; try reflexivity.
  - destruct b; reflexivity.
  - simpl. now rewrite orb_true_r.
  - simpl. now rewrite orb_true_r.
Qed.

Lemma ring_record_is_object (obj : val) :
  is_str (get obj "type") "ring" = true ->
  negb (truthy obj) || negb (String.eqb (typeof obj) "object") = false.
Proof. destruct obj; simpl; try discriminate; reflexivity. Qed.

Lemma objectToAst_ring (obj : val) :
  is_str (get obj "type") "ring" = true ->
  objectToAst lib obj =
    (attachments <- reconstructAttachments lib (objectToAst lib) (get obj "attachments") ;;
     Ring lib (ring_options obj attachments)).
Proof.
  intros Hring. rewrite objectToAst_statements.
  rewrite (ring_record_is_object obj Hring). simpl. rewrite Hring. reflexivity.
Qed.

(** *** What astToObject removes *)








(** *** The fragment table *)

Lemma add_fragment_other (fragments : list (string * val)) (entry : string * val)
  (name : string) :
  name <> fst entry ->
  lookup name (add_fragment lib fragments entry) = lookup name fragments.
Proof.
  destruct entry as [k fragment]. simpl. intros Hneq.
  destruct (truthy fragment && (typeof fragment =? "object")); [ | reflexivity ].
  destruct (read_smiles lib fragment) as [probe | ]; simpl; [ | reflexivity ].
  destruct (is_defined probe); [ | reflexivity ].
  rewrite lookup_set_prop.
  destruct (String.eqb name k) eqn:Hk; [ | reflexivity ].
  apply String.eqb_eq in Hk. contradiction.
Qed.

Lemma fold_add_fragment_other (entries fragments : list (string * val)) (name : string) :
  ~ In name (map fst entries) ->
  lookup name (fold_left (add_fragment lib) entries fragments) = lookup name fragments.
Proof.
  revert fragments. induction entries as [ | entry rest IH ]; simpl; intros fragments Hnot;
    [ reflexivity | ].
  rewrite IH by tauto. apply add_fragment_other. intros ->. tauto.
Qed.

Lemma add_fragment_hit (fragments : list (string * val)) (name : string) (fragment s : val) :
  truthy fragment && String.eqb (typeof fragment) "object" = true ->
  read_smiles lib fragment = Ok s ->
  is_defined s = true ->
  lookup name (add_fragment lib fragments (name, fragment))
    = Some (VObj [("smiles", s); ("type", get fragment "type")]).
Proof.
  intros Hobj Hread Hdef. simpl. rewrite Hobj, Hread. simpl. rewrite Hdef.
  rewrite lookup_set_prop, String.eqb_refl. reflexivity.
Qed.

Lemma fragment_of_table (name : string) (fragment s : val) :
  NoDup (map fst (common lib)) ->
  In (name, fragment) (common lib) ->
  truthy fragment && String.eqb (typeof fragment) "object" = true ->
  read_smiles lib fragment = Ok s ->
  is_defined s = true ->
  lookup name (fold_left (add_fragment lib) (common lib) [])
    = Some (VObj [("smiles", s); ("type", get fragment "type")]).
Proof.
  intros Hnodup Hin Hobj Hread Hdef.
  destruct (in_split _ _ Hin) as (before & after & Hsplit).
  rewrite Hsplit in *. rewrite fold_left_app. simpl.
  rewrite map_app in Hnodup. simpl in Hnodup.
  apply NoDup_remove_2 in Hnodup.
  rewrite fold_add_fragment_other.
  - now apply add_fragment_hit.
  - intros Hafter. apply Hnodup. apply in_or_app. now right.
Qed.

(** *** The results of the tools *)

Lemma outcome_failure (e : JsError) :
  exists r, failure e = Ok r /\ structured r
            /\ r = VObj [("success", VBool false); ("error", VStr (errMessage e))].
Proof.
  eexists; split; [ reflexivity | split; [ apply structured_failure | reflexivity ] ].
Qed.

Lemma outcome_success (rest : list (string * val)) :
  lookup "error" rest = None ->
  exists r, Ok (VObj (("success", VBool true) :: rest)) = Ok r /\ structured r
            /\ get r "success" = VBool true /\ get r "error" = VUndef.
Proof.
  intros Hrest. eexists; split; [ reflexivity | ].
  split; [ apply structured_success | ].
  split; [ reflexivity | ]. simpl. now rewrite Hrest.
Qed.

Ltac done_reported :=
  simpl; first [ apply outcome_failure | apply outcome_success; reflexivity ].

Ltac run_call c x := destruct c as [x | ?]; [ simpl | done_reported ].

Lemma parse_smiles_reported (input : val) :
  nullish input = false ->
  exists r, parse_smiles lib input = Ok r /\ structured r
            /\ reported lib tool_parse_smiles input r.
Proof.
  intros Hin. unfold parse_smiles, reported, internal_steps.
  rewrite (destructure_record _ _ Hin). simpl.
  run_call (parse lib (get input "smiles")) ast.
  run_call (astToObject lib ast) astObject.
  done_reported.
Qed.

Lemma build_smiles_reported (input : val) :
  nullish input = false ->
  exists r, build_smiles lib input = Ok r /\ structured r
            /\ reported lib tool_build_smiles input r.
Proof.
  intros Hin. unfold build_smiles, reported, internal_steps.
  rewrite (destructure_record _ _ Hin). simpl.
  run_call (objectToAst lib (get input "ast")) node.
  run_call (buildSMILES lib node) text.
  done_reported.
Qed.

Lemma decompile_smiles_reported (input : val) :
  nullish input = false ->
  exists r, decompile_smiles lib input = Ok r /\ structured r
            /\ reported lib tool_decompile_smiles input r.
Proof.
  intros Hin. unfold decompile_smiles, reported, internal_steps.
  rewrite (destructure_record _ _ Hin). simpl.
  run_call (parse lib (get input "smiles")) ast.
  run_call (decompile lib ast) code.
  done_reported.
Qed.

Lemma validate_roundtrip_reported (input : val) :
  nullish input = false ->
  exists r, validate_roundtrip lib input = Ok r /\ structured r
            /\ reported lib tool_validate_roundtrip input r.
Proof.
  intros Hin. unfold validate_roundtrip, reported, internal_steps.
  rewrite (destructure_record _ _ Hin). simpl.
  run_call (isValidRoundTrip lib (get input "smiles")) isValid.
  destruct (truthy isValid); [ done_reported | ].
  run_call (parse lib (get input "smiles")) ast.
  run_call (buildSMILES lib ast) regenerated.
  run_call (ToString lib (get input "smiles")) expected.
  run_call (ToString lib regenerated) got.
  done_reported.
Qed.

Lemma get_common_fragments_reported (input : val) :
  exists r, get_common_fragments lib = Ok r /\ structured r
            /\ reported lib tool_get_common_fragments input r.
Proof. unfold get_common_fragments, reported, internal_steps. done_reported. Qed.

(** A failing parse gives the failure record and nothing else. *)
Lemma parse_smiles_failure (input : val) (e : JsError) :
  nullish input = false ->
  parse lib (get input "smiles") = Throw e ->
  parse_smiles lib input = Ok (failure_result e).
Proof.
  intros Hin Hparse. unfold parse_smiles.
  rewrite (destructure_record _ _ Hin). simpl. rewrite Hparse. reflexivity.
Qed.

(** The validator's answer decides the shape of the result. *)
Lemma validate_roundtrip_passed (s : string) (isValid : val) :
  isValidRoundTrip lib (VStr s) = Ok isValid ->
  truthy isValid = true ->
  validate_roundtrip lib (smiles_input s) = Ok (valid_result (VStr s)).
Proof.
  intros Hvalid Htrue. unfold validate_roundtrip. simpl.
  rewrite Hvalid. simpl. rewrite Htrue. reflexivity.
Qed.

Lemma validate_roundtrip_mismatch (s regenerated : string) (isValid ast : val) :
  isValidRoundTrip lib (VStr s) = Ok isValid ->
  truthy isValid = false ->
  parse lib (VStr s) = Ok ast ->
  buildSMILES lib ast = Ok (VStr regenerated) ->
  validate_roundtrip lib (smiles_input s) = Ok (mismatch_result s regenerated).
Proof.
  intros Hvalid Hfalse Hparse Hbuild. unfold validate_roundtrip. simpl.
  rewrite Hvalid. simpl. rewrite Hfalse, Hparse. simpl. rewrite Hbuild. reflexivity.
Qed.

Lemma contract_round_trip (s : string) (ast : val) (regenerated : string) :
  validator_contract lib (VStr s) ->
  parse lib (VStr s) = Ok ast ->
  buildSMILES lib ast = Ok (VStr regenerated) ->
  isValidRoundTrip lib (VStr s) = Ok (VBool (String.eqb regenerated s)).
Proof.
  intros Hc Hparse Hbuild. rewrite Hc. unfold Engine.isValidRoundTrip.
  rewrite Hparse. simpl. rewrite Hbuild. reflexivity.
Qed.

End AnyLibrary.

(** ** The claims *)

(** C2: for every input record (any argument other than [undefined] and
    [null], which cannot be destructured), each of the five tools returns
    a structured result and does not throw.  When a step inside the tool
    throws (the parser, a conversion, a constructor, the serializer, the
    decompiler, the validator), the result is exactly
    [{success: false, error}] with the message of the first exception;
    when none does, the result is a record whose [success] is [true] and
    that has no [error].  get_common_fragments always gives the second:
    what is thrown inside its loop is caught there. *)
Theorem tools_return_structured_results (lib : Library) (t : tool) (input : val) :
  nullish input = false ->
  exists r, tools lib t input = Ok r /\ structured r /\
    match internal_steps lib t input with
    | Throw e => r = VObj [("success", VBool false); ("error", VStr (errMessage e))]
    | Ok _ => get r "success" = VBool true /\ get r "error" = VUndef
    end.
Proof.
  intros Hin. destruct t; simpl tools.
  - now apply parse_smiles_reported.
  - now apply build_smiles_reported.
  - now apply decompile_smiles_reported.
  - now apply validate_roundtrip_reported.
  - apply (get_common_fragments_reported lib input).
Qed.

Lemma tools_return_structured_results_witness :
  nullish (smiles_input "C1CC") = false
  /\ tools Engine.reference tool_parse_smiles (smiles_input "C1CC")
     = Ok (VObj [("success", VBool false); ("error", VStr "UnclosedRing: ring closure 1 opened at position 1 is never closed")])
  /\ exists r, tools Engine.reference tool_decompile_smiles (smiles_input "CCO") = Ok r
               /\ get r "success" = VBool true /\ get r "error" = VUndef.
Proof.
  split; [ reflexivity | split ].
  - destruct (tools_return_structured_results Engine.reference tool_parse_smiles
                (smiles_input "C1CC") eq_refl) as [r [Hrun [_ Hreported]]].
    rewrite Hrun. f_equal. exact Hreported.
  - destruct (tools_return_structured_results Engine.reference tool_decompile_smiles
                (smiles_input "CCO") eq_refl) as [r [Hrun [_ Hreported]]].
    exists r. split; [ exact Hrun | exact Hreported ].
Defined.

(** C3: on the reference engine, whatever its nesting limit, parse_smiles
    of "c1ccccc1" succeeds with exactly the ring record of size 6, and
    parse_smiles of "CCO" succeeds with exactly the linear record of three
    atoms and two default bonds. *)
Theorem parse_smiles_benzene_and_ethanol (max_depth : nat) :
  parse_smiles (Engine.library max_depth) (smiles_input "c1ccccc1")
    = Ok (VObj [ ("success", VBool true); ("smiles", VStr "c1ccccc1");
                 ("ast", VObj [ ("type", VStr "ring"); ("atoms", VStr "c");
                                ("size", VNum 6); ("ringNumber", VNum 1);
                                ("offset", VNum 0); ("substitutions", VObj []);
                                ("attachments", VObj []);
                                ("bonds", VArr [VNull; VNull; VNull; VNull; VNull; VNull]) ]) ])
  /\
  parse_smiles (Engine.library max_depth) (smiles_input "CCO")
    = Ok (VObj [ ("success", VBool true); ("smiles", VStr "CCO");
                 ("ast", VObj [ ("type", VStr "linear");
                                ("atoms", VArr [VStr "C"; VStr "C"; VStr "O"]);
                                ("bonds", VArr [VNull; VNull]);
                                ("attachments", VObj []) ]) ]).
Proof. split; reflexivity. Qed.

(** C4: under the contract of the validator, for every string that the
    parser accepts and the serializer gives back as [regenerated]: if the
    two differ, validate_roundtrip returns success with [valid: false],
    the regenerated string, and the message quoting both; if they are
    equal, it returns success with [valid: true] and no [regenerated]
    field. *)
Theorem validate_roundtrip_reports (lib : Library) (s regenerated : string) (ast : val) :
  validator_contract lib (VStr s) ->
  parse lib (VStr s) = Ok ast ->
  buildSMILES lib ast = Ok (VStr regenerated) ->
  (regenerated <> s ->
     validate_roundtrip lib (smiles_input s) = Ok (mismatch_result s regenerated)
     /\ get (mismatch_result s regenerated) "regenerated" = VStr regenerated
     /\ get (mismatch_result s regenerated) "message"
         = VStr ("Round-trip mismatch: expected " ++ dquote ++ s ++ dquote
                 ++ ", got " ++ dquote ++ regenerated ++ dquote))
  /\
  (regenerated = s ->
     validate_roundtrip lib (smiles_input s) = Ok (valid_result (VStr s))
     /\ Object_entries (valid_result (VStr s))
         = [ ("success", VBool true); ("smiles", VStr s); ("valid", VBool true);
             ("message", VStr "SMILES round-trip validation passed") ]).
Proof.
  intros Hc Hparse Hbuild.
  pose proof (contract_round_trip lib s ast regenerated Hc Hparse Hbuild) as Hvalid.
  split.
  - intros Hneq. split; [ | split; reflexivity ].
    apply validate_roundtrip_mismatch with (isValid := VBool (String.eqb regenerated s))
                                           (ast := ast); trivial.
    simpl. now apply String.eqb_neq.
  - intros Heq. split; [ | reflexivity ].
    apply validate_roundtrip_passed with (isValid := VBool (String.eqb regenerated s));
      trivial.
    simpl. now apply String.eqb_eq.
Qed.

Lemma validate_roundtrip_reports_witness :
  validate_roundtrip Engine.reference (smiles_input "C=1CCCCC1")
    = Ok (mismatch_result "C=1CCCCC1" "C1CCCCC=1")
  /\
  validate_roundtrip Engine.reference (smiles_input "c1ccccc1")
    = Ok (valid_result (VStr "c1ccccc1")).
Proof.
  split.
  - eapply (validate_roundtrip_reports Engine.reference "C=1CCCCC1" "C1CCCCC=1");
      [ reflexivity | vm_compute; reflexivity | reflexivity | discriminate ].
  - eapply (validate_roundtrip_reports Engine.reference "c1ccccc1" "c1ccccc1");
      [ reflexivity | vm_compute; reflexivity | reflexivity | reflexivity ].
Defined.

(** C5: under the contract of the validator, for every text on which
    parsing fails, isValidRoundTrip returns the boolean [false], and
    validate_roundtrip returns a structured result, the failure record
    with the message of the parse error; it does not throw. *)
Theorem parse_failure_is_reported (lib : Library) (s : string) (e : JsError) :
  validator_contract lib (VStr s) ->
  parse lib (VStr s) = Throw e ->
  isValidRoundTrip lib (VStr s) = Ok (VBool false)
  /\ validate_roundtrip lib (smiles_input s) = Ok (failure_result e)
  /\ structured (failure_result e).
Proof.
  intros Hc Hparse.
  assert (Hvalid : isValidRoundTrip lib (VStr s) = Ok (VBool false)).
  { rewrite Hc. unfold Engine.isValidRoundTrip. now rewrite Hparse. }
  split; [ exact Hvalid | split; [ | apply structured_failure ] ].
  unfold validate_roundtrip. simpl. rewrite Hvalid. simpl. now rewrite Hparse.
Qed.

Lemma parse_failure_is_reported_witness :
  isValidRoundTrip Engine.reference (VStr "C1CC") = Ok (VBool false)
  /\ validate_roundtrip Engine.reference (smiles_input "C1CC")
      = Ok (failure_result (Engine.UnclosedRing 1 1))
  /\ structured (failure_result (Engine.UnclosedRing 1 1)).
Proof.
  apply (parse_failure_is_reported Engine.reference "C1CC" (Engine.UnclosedRing 1 1)).
  - reflexivity.
  - reflexivity.
Defined.

(** C7: on the reference engine, whatever its nesting limit, parsing
    "C1CC" fails with the UnclosedRing error of digit 1, and parse_smiles
    returns exactly [{success: false, error}] with a message that contains
    "Unclosed"; the result has no [ast] field. *)
Theorem parse_smiles_unclosed_ring (max_depth : nat) :
  Engine.parse max_depth (VStr "C1CC") = Throw (Engine.UnclosedRing 1 1)
  /\ exists msg,
       parse_smiles (Engine.library max_depth) (smiles_input "C1CC")
         = Ok (VObj [("success", VBool false); ("error", VStr msg)])
       /\ includes "Unclosed" msg = true
       /\ has_key "ast" [("success", VBool false); ("error", VStr msg)] = false.
Proof.
  split; [ reflexivity | ].
  exists (errMessage (Engine.UnclosedRing 1 1)).
  repeat split; reflexivity.
Qed.

(** C6 (as amended): get_common_fragments always returns
    [{success: true}] with a fragments map and the fragment names grouped
    into exactly six categories, keyed alkyl, functional, aromatic, rings,
    halides and other; alkyl contains 'methyl' and rings contains
    'benzene'; and when the table of the library has a fragment named
    benzene whose SMILES is "c1ccccc1", so has the fragments map. *)
Theorem get_common_fragments_result (lib : Library) :
  exists fragments,
    get_common_fragments lib
      = Ok (VObj [ ("success", VBool true); ("fragments", VObj fragments);
                   ("categories", categories) ])
    /\ map fst (Object_entries categories)
        = ["alkyl"; "functional"; "aromatic"; "rings"; "halides"; "other"]
    /\ In (VStr "methyl") (array_elements (get categories "alkyl"))
    /\ In (VStr "benzene") (array_elements (get categories "rings"))
    /\ forall benzene,
         NoDup (map fst (common lib)) ->
         In ("benzene", benzene) (common lib) ->
         truthy benzene && String.eqb (typeof benzene) "object" = true ->
         read_smiles lib benzene = Ok (VStr "c1ccccc1") ->
         get (get (VObj fragments) "benzene") "smiles" = VStr "c1ccccc1".
Proof.
  exists (fold_left (add_fragment lib) (common lib) []).
  split; [ reflexivity | ].
  split; [ reflexivity | ].
  split; [ simpl; tauto | ].
  split; [ simpl; tauto | ].
  intros benzene Hnodup Hin Hobj Hread.
  simpl. rewrite (fragment_of_table lib "benzene" benzene (VStr "c1ccccc1")); trivial.
Qed.

Lemma get_common_fragments_result_witness :
  exists fragments,
    get_common_fragments Engine.reference
      = Ok (VObj [ ("success", VBool true); ("fragments", VObj fragments);
                   ("categories", categories) ])
    /\ get (get (VObj fragments) "benzene") "smiles" = VStr "c1ccccc1".
Proof.
  destruct (get_common_fragments_result Engine.reference)
    as (fragments & Hresult & _ & _ & _ & Hbenzene).
  exists fragments. split; [ exact Hresult | ].
  apply (Hbenzene (Engine.cycle "c" 6)).
  - repeat constructor; simpl; intuition discriminate.
  - simpl. tauto.
  - reflexivity.
  - reflexivity.
Defined.

(** C6 (as stated) fails: the result has no category named ring and none
    named halide. *)
Lemma no_category_named_ring_or_halide :
  exists r,
    get_common_fragments Engine.reference = Ok r
    /\ get (get r "categories") "ring" = VUndef
    /\ get (get r "categories") "halide" = VUndef
    /\ map fst (Object_entries (get r "categories"))
        <> ["alkyl"; "functional"; "aromatic"; "ring"; "halide"; "other"].
Proof.
  eexists. split; [ reflexivity | ].
  repeat split; try reflexivity. discriminate.
Qed.

(** C9: when objectToAst reconstructs a ring record whose ringNumber is
    falsy (0 or absent), the node it returns, which build_smiles hands to
    the serializer, is the one [Ring] makes from options whose ringNumber
    is 1; a falsy offset is replaced by 0 in the same options. *)
Theorem ring_number_defaults (lib : Library) (obj node : val) :
  is_str (get obj "type") "ring" = true ->
  truthy (get obj "ringNumber") = false ->
  objectToAst lib obj = Ok node ->
  (exists attachments,
     reconstructAttachments lib (objectToAst lib) (get obj "attachments") = Ok attachments
     /\ Ring lib (ring_options obj attachments) = Ok node
     /\ get (ring_options obj attachments) "ringNumber" = VNum 1
     /\ (truthy (get obj "offset") = false ->
         get (ring_options obj attachments) "offset" = VNum 0))
  /\ build_smiles lib (VObj [("ast", obj)])
      = try_catch (text <- buildSMILES lib node ;;
                   Ok (VObj [("success", VBool true); ("smiles", text)]))
                  failure.
Proof.
  intros Hring Hfalsy Hnode. split.
  - rewrite (objectToAst_ring lib obj Hring) in Hnode.
    destruct (reconstructAttachments lib (objectToAst lib) (get obj "attachments"))
      as [attachments | e]; simpl in Hnode; [ | discriminate ].
    exists attachments. repeat split; trivial.
    + simpl. unfold or_else. now rewrite Hfalsy.
    + intros Hoff. simpl. unfold or_else. now rewrite Hoff.
  - unfold build_smiles. simpl. now rewrite Hnode.
Qed.

Lemma ring_number_defaults_witness :
  (forall node,
     objectToAst Engine.reference (ring_record [("ringNumber", VNum 0)]) = Ok node ->
     get node "ringNumber" = VNum 1 /\ get node "offset" = VNum 0)
  /\ build_smiles Engine.reference (VObj [("ast", ring_record [("ringNumber", VNum 0)])])
      = Ok (VObj [("success", VBool true); ("smiles", VStr "c1ccccc1")])
  /\ build_smiles Engine.reference (VObj [("ast", ring_record [])])
      = Ok (VObj [("success", VBool true); ("smiles", VStr "c1ccccc1")]).
Proof.
  split; [ | split ].
  - intros node Hnode.
    destruct (ring_number_defaults Engine.reference
                (ring_record [("ringNumber", VNum 0)]) node eq_refl eq_refl Hnode)
      as [(attachments & Hatt & Hmake & _) _].
    vm_compute in Hatt. injection Hatt as <-.
    vm_compute in Hmake. injection Hmake as <-. split; reflexivity.
  - rewrite (proj2 (ring_number_defaults Engine.reference
                      (ring_record [("ringNumber", VNum 0)])
                      (Engine.mkRing (VStr "c") (VNum 6) (VNum 1) (VNum 0) (VObj [])
                                     (VObj []) (VArr []))
                      eq_refl eq_refl eq_refl)).
    reflexivity.
  - rewrite (proj2 (ring_number_defaults Engine.reference (ring_record [])
                      (Engine.mkRing (VStr "c") (VNum 6) (VNum 1) (VNum 0) (VObj [])
                                     (VObj []) (VArr []))
                      eq_refl eq_refl eq_refl)).
    reflexivity.
Defined.




End ToolFacts.

(** ** The tools on the store and the tools on trees *)

Module HeapFacts.
Import JS Skill Heap HeapSpec ValueFacts.

(** *** The representation relation *)

Lemma rep_elems_Forall2 (D : nat -> Prop) (st : store) (hs : list hval) (ts : list val) :
  (fix all (hs : list hval) (ts : list val) {struct ts} : Prop :=
     match ts, hs with
     | [], [] => True
     | t' :: ts', h' :: hs' => rep D st h' t' /\ all hs' ts'
     | _, _ => False
     end) hs ts
  <-> Forall2 (rep D st) hs ts.
Proof.
  revert hs. induction ts as [ | t ts IH ]; intros [ | h hs ].
  - split; constructor.
  - split; [ tauto | inversion 1 ].
  - split; [ tauto | inversion 1 ].
  - split.
    + intros [H1 H2]. constructor; [ exact H1 | now apply IH ].
    + inversion 1; subst. split; [ assumption | now apply IH ].
Qed.

Lemma rep_props_Forall2 (D : nat -> Prop) (st : store)
  (hps : list (string * hval)) (ps : list (string * val)) :
  (fix all (hps : list (string * hval)) (ps : list (string * val)) {struct ps} : Prop :=
     match ps, hps with
     | [], [] => True
     | p :: ps', hp :: hps' =>
         (fst hp = fst p /\ rep D st (snd hp) (snd p)) /\ all hps' ps'
     | _, _ => False
     end) hps ps
  <-> Forall2 (rep_prop D st) hps ps.
Proof.
  revert hps. induction ps as [ | p ps IH ]; intros [ | hp hps ].
  - split; constructor.
  - split; [ tauto | inversion 1 ].
  - split; [ tauto | inversion 1 ].
  - split.
    + intros [H1 H2]. constructor; [ exact H1 | now apply IH ].
    + inversion 1; subst. split; [ assumption | now apply IH ].
Qed.

Lemma rep_arr (D : nat -> Prop) (st : store) (h : hval) (elems : list val) :
  rep D st h (VArr elems) <->
  exists l hs, h = HRef l /\ D l /\ nth_error st l = Some (CArr hs)
               /\ Forall2 (rep D st) hs elems.
Proof.
  simpl. split; intros (l & hs & H1 & H2 & H3 & H4); exists l, hs;
    repeat split; trivial; now apply rep_elems_Forall2.
Qed.

Lemma rep_obj (D : nat -> Prop) (st : store) (h : hval) (props : list (string * val)) :
  rep D st h (VObj props) <->
  exists l hps, h = HRef l /\ D l /\ nth_error st l = Some (CObj hps)
                /\ Forall2 (rep_prop D st) hps props.
Proof.
  simpl. split; intros (l & hs & H1 & H2 & H3 & H4); exists l, hs;
    repeat split; trivial; now apply rep_props_Forall2.
Qed.

Lemma rep_node (D : nat -> Prop) (st : store) (h : hval) (props : list (string * val)) :
  rep D st h (VNode props) <->
  exists l hps, h = HRef l /\ D l /\ nth_error st l = Some (CNode hps)
                /\ Forall2 (rep_prop D st) hps props.
Proof.
  simpl. split; intros (l & hs & H1 & H2 & H3 & H4); exists l, hs;
    repeat split; trivial; now apply rep_props_Forall2.
Qed.

Lemma rep_undef D st h : rep D st h VUndef <-> h = HUndef.
Proof. reflexivity. Qed.
Lemma rep_null D st h : rep D st h VNull <-> h = HNull.
Proof. reflexivity. Qed.
Lemma rep_bool D st h b : rep D st h (VBool b) <-> h = HBool b.
Proof. reflexivity. Qed.
Lemma rep_num D st h n : rep D st h (VNum n) <-> h = HNum n.
Proof. reflexivity. Qed.
Lemma rep_str D st h s : rep D st h (VStr s) <-> h = HStr s.
Proof. reflexivity. Qed.
Lemma rep_fun D st h f : rep D st h (VFun f) <-> h = HFun f.
Proof. reflexivity. Qed.
Opaque rep.

Lemma Forall2_by_right {A B} (P : B -> Prop) (R R' : A -> B -> Prop) (l : list A)
  (r : list B) :
  Forall P r -> (forall a b, P b -> R a b -> R' a b) -> Forall2 R l r -> Forall2 R' l r.
Proof.
  intros HP Himp Hall. induction Hall as [ | a b l r Hab _ IH ]; constructor;
    inversion HP; subst; auto.
Qed.

(** Moving a tree to a larger domain and to a store that agrees on the
    cells of the tree. *)
Lemma rep_frame (D D' : nat -> Prop) (st st' : store) (h : hval) (t : val) :
  (forall l, D l -> D' l /\ nth_error st' l = nth_error st l) ->
  rep D st h t -> rep D' st' h t.
Proof.
  intros Hframe. revert h.
  induction t as [ | | b | n | s | f | elems IH | props IH | props IH ]
    using val_deep_ind; intros h Hrep.
  - now apply rep_undef in Hrep; apply rep_undef.
  - now apply rep_null in Hrep; apply rep_null.
  - now apply rep_bool in Hrep; apply rep_bool.
  - now apply rep_num in Hrep; apply rep_num.
  - now apply rep_str in Hrep; apply rep_str.
  - now apply rep_fun in Hrep; apply rep_fun.
  - apply rep_arr in Hrep. destruct Hrep as (l & hs & -> & HD & Hcell & Hall).
    apply rep_arr. exists l, hs. destruct (Hframe l HD) as [HD' Hsame].
    repeat split; trivial; [ congruence | ].
    eapply Forall2_by_right; [ exact IH | | exact Hall ]. auto.
  - apply rep_obj in Hrep. destruct Hrep as (l & hs & -> & HD & Hcell & Hall).
    apply rep_obj. exists l, hs. destruct (Hframe l HD) as [HD' Hsame].
    repeat split; trivial; [ congruence | ].
    eapply Forall2_by_right; [ exact IH | | exact Hall ].
    intros hp p Hp [Hk Hv]. split; auto.
  - apply rep_node in Hrep. destruct Hrep as (l & hs & -> & HD & Hcell & Hall).
    apply rep_node. exists l, hs. destruct (Hframe l HD) as [HD' Hsame].
    repeat split; trivial; [ congruence | ].
    eapply Forall2_by_right; [ exact IH | | exact Hall ].
    intros hp p Hp [Hk Hv]. split; auto.
Qed.

Lemma rep_prop_frame (D D' : nat -> Prop) (st st' : store) hps ps :
  (forall l, D l -> D' l /\ nth_error st' l = nth_error st l) ->
  Forall2 (rep_prop D st) hps ps -> Forall2 (rep_prop D' st') hps ps.
Proof.
  intros Hframe Hall. induction Hall as [ | hp p hps ps [Hk Hv] _ IH ]; constructor; trivial.
  split; [ exact Hk | now apply (rep_frame D D' st st') ].
Qed.

Lemma rep_elems_frame (D D' : nat -> Prop) (st st' : store) hs ts :
  (forall l, D l -> D' l /\ nth_error st' l = nth_error st l) ->
  Forall2 (rep D st) hs ts -> Forall2 (rep D' st') hs ts.
Proof.
  intros Hframe Hall. induction Hall; constructor; trivial.
  now apply (rep_frame D D' st st').
Qed.

(** *** Operators on represented values *)

Lemma rep_truthy D st h t : rep D st h t -> Heap.truthy h = JS.truthy t.
Proof.
  destruct t; intros Hrep;
    try (apply rep_undef in Hrep || apply rep_null in Hrep || apply rep_bool in Hrep
         || apply rep_num in Hrep || apply rep_str in Hrep || apply rep_fun in Hrep;
         now subst).
  - apply rep_arr in Hrep. now destruct Hrep as (l & hs & -> & _).
  - apply rep_obj in Hrep. now destruct Hrep as (l & hs & -> & _).
  - apply rep_node in Hrep. now destruct Hrep as (l & hs & -> & _).
Qed.

Lemma rep_typeof D st h t : rep D st h t -> Heap.typeof h = JS.typeof t.
Proof.
  destruct t; intros Hrep;
    try (apply rep_undef in Hrep || apply rep_null in Hrep || apply rep_bool in Hrep
         || apply rep_num in Hrep || apply rep_str in Hrep || apply rep_fun in Hrep;
         now subst).
  - apply rep_arr in Hrep. now destruct Hrep as (l & hs & -> & _).
  - apply rep_obj in Hrep. now destruct Hrep as (l & hs & -> & _).
  - apply rep_node in Hrep. now destruct Hrep as (l & hs & -> & _).
Qed.

Lemma rep_is_str D st h t lit : rep D st h t -> Heap.is_str h lit = JS.is_str t lit.
Proof.
  destruct t; intros Hrep;
    try (apply rep_undef in Hrep || apply rep_null in Hrep || apply rep_bool in Hrep
         || apply rep_num in Hrep || apply rep_str in Hrep || apply rep_fun in Hrep;
         now subst).
  - apply rep_arr in Hrep. now destruct Hrep as (l & hs & -> & _).
  - apply rep_obj in Hrep. now destruct Hrep as (l & hs & -> & _).
  - apply rep_node in Hrep. now destruct Hrep as (l & hs & -> & _).
Qed.

Lemma rep_is_defined D st h t : rep D st h t -> Heap.is_defined h = JS.is_defined t.
Proof.
  destruct t; intros Hrep;
    try (apply rep_undef in Hrep || apply rep_null in Hrep || apply rep_bool in Hrep
         || apply rep_num in Hrep || apply rep_str in Hrep || apply rep_fun in Hrep;
         now subst).
  - apply rep_arr in Hrep. now destruct Hrep as (l & hs & -> & _).
  - apply rep_obj in Hrep. now destruct Hrep as (l & hs & -> & _).
  - apply rep_node in Hrep. now destruct Hrep as (l & hs & -> & _).
Qed.

Lemma rep_lookup D st (k : string) hps ps :
  Forall2 (rep_prop D st) hps ps ->
  match lookup k hps, lookup k ps with
  | Some h, Some t => rep D st h t
  | None, None => True
  | _, _ => False
  end.
Proof.
  intros Hall. induction Hall as [ | [hk hv] [pk pv] hps ps [Hk Hv] _ IH ]; simpl; trivial.
  simpl in Hk. subst pk. destruct (String.eqb k hk); [ exact Hv | exact IH ].
Qed.

Lemma rep_get D st h t (k : string) : rep D st h t -> rep D st (get_in st h k) (JS.get t k).
Proof.
  intros Hrep. destruct t;
    try (apply rep_undef in Hrep || apply rep_null in Hrep || apply rep_bool in Hrep
         || apply rep_num in Hrep || apply rep_str in Hrep || apply rep_fun in Hrep;
         subst; now apply rep_undef).
  - apply rep_arr in Hrep. destruct Hrep as (l & hs & -> & _ & Hcell & _).
    unfold get_in. simpl. rewrite Hcell. now apply rep_undef.
  - apply rep_obj in Hrep. destruct Hrep as (l & hs & -> & _ & Hcell & Hall).
    unfold get_in. simpl. rewrite Hcell. pose proof (rep_lookup D st k _ _ Hall) as Hl.
    destruct (lookup k hs), (lookup k props); try tauto. now apply rep_undef.
  - apply rep_node in Hrep. destruct Hrep as (l & hs & -> & _ & Hcell & Hall).
    unfold get_in. simpl. rewrite Hcell. pose proof (rep_lookup D st k _ _ Hall) as Hl.
    destruct (lookup k hs), (lookup k props); try tauto. now apply rep_undef.
Qed.

Lemma rep_indexed D st (i : nat) hs ts :
  Forall2 (rep D st) hs ts ->
  Forall2 (rep_prop D st) (indexed_from i hs) (indexed_from i ts).
Proof.
  intros Hall. revert i. induction Hall; intros i; simpl; constructor; auto.
  now split.
Qed.

Lemma rep_chars D st (s : string) : Forall2 (rep D st) (Heap.chars s) (JS.chars s).
Proof. induction s; simpl; constructor; trivial. now apply rep_str. Qed.

Lemma rep_entries D st h t :
  rep D st h t -> Forall2 (rep_prop D st) (entries_in st h) (JS.Object_entries t).
Proof.
  intros Hrep. destruct t;
    try (apply rep_undef in Hrep || apply rep_null in Hrep || apply rep_bool in Hrep
         || apply rep_num in Hrep || apply rep_fun in Hrep;
         subst; now constructor).
  - apply rep_str in Hrep. subst. simpl. apply rep_indexed, rep_chars.
  - apply rep_arr in Hrep. destruct Hrep as (l & hs & -> & _ & Hcell & Hall).
    simpl. rewrite Hcell. now apply rep_indexed.
  - apply rep_obj in Hrep. destruct Hrep as (l & hs & -> & _ & Hcell & Hall).
    simpl. now rewrite Hcell.
  - apply rep_node in Hrep. destruct Hrep as (l & hs & -> & _ & Hcell & Hall).
    simpl. now rewrite Hcell.
Qed.

(** *** The store *)

Lemma length_update (st : store) (l : nat) (f : cell -> cell) :
  length (update st l f) = length st.
Proof.
  revert l. induction st as [ | c st IH ]; intros [ | l ]; simpl; trivial.
  now rewrite IH.
Qed.

Lemma nth_error_update_same (st : store) (l : nat) (f : cell -> cell) :
  nth_error (update st l f) l = option_map f (nth_error st l).
Proof.
  revert l. induction st as [ | c st IH ]; intros [ | l ]; simpl; trivial.
Qed.

Lemma nth_error_update_other (st : store) (l l' : nat) (f : cell -> cell) :
  l' <> l -> nth_error (update st l f) l' = nth_error st l'.
Proof.
  revert l l'. induction st as [ | c st IH ]; intros [ | l ] [ | l' ] Hneq; simpl; trivial.
  - contradiction.
  - apply IH. congruence.
Qed.

Lemma agree_refl (P : nat -> Prop) (st : store) : agree P st st.
Proof. split; auto. Qed.

Lemma agree_trans (P : nat -> Prop) (st1 st2 st3 : store) :
  agree P st1 st2 -> agree P st2 st3 -> agree P st1 st3.
Proof.
  intros [Hlen1 H1] [Hlen2 H2]. split; [ lia | ].
  intros l Hl HP. rewrite H2 by (trivial; lia). now apply H1.
Qed.

Lemma agree_weaken (P Q : nat -> Prop) (st st' : store) :
  (forall l, Q l -> P l) -> agree P st st' -> agree Q st st'.
Proof. intros HQP [Hlen H]. split; auto. Qed.

Lemma agree_alloc (st : store) (c : cell) : agree everywhere st (st ++ [c]).
Proof.
  split; [ rewrite length_app; simpl; lia | ].
  intros l Hl _. now apply nth_error_app1.
Qed.

Lemma nth_error_alloc (st : store) (c : cell) : nth_error (st ++ [c]) (length st) = Some c.
Proof. rewrite nth_error_app2 by lia. now rewrite Nat.sub_diag. Qed.

Lemma agree_update (st : store) (l : nat) (f : cell -> cell) :
  agree (fun x => x <> l) st (update st l f).
Proof.
  split; [ now rewrite length_update | ].
  intros x _ Hx. now apply nth_error_update_other.
Qed.

Lemma bounded_within (P : nat -> Prop) (st : store) : bounded (within P st) st.
Proof. intros l [_ Hl]. exact Hl. Qed.

Lemma rep_within (D : nat -> Prop) (st : store) (h : hval) (t : val) :
  rep D st h t -> rep (within D st) st h t.
Proof.
  revert h.
  induction t as [ | | b | n | s | f | elems IH | props IH | props IH ]
    using val_deep_ind; intros h Hrep.
  - now apply rep_undef in Hrep; apply rep_undef.
  - now apply rep_null in Hrep; apply rep_null.
  - now apply rep_bool in Hrep; apply rep_bool.
  - now apply rep_num in Hrep; apply rep_num.
  - now apply rep_str in Hrep; apply rep_str.
  - now apply rep_fun in Hrep; apply rep_fun.
  - apply rep_arr in Hrep. destruct Hrep as (l & hs & -> & HD & Hcell & Hall).
    apply rep_arr. exists l, hs. repeat split; trivial.
    + apply nth_error_Some. congruence.
    + eapply Forall2_by_right; [ exact IH | | exact Hall ]. auto.
  - apply rep_obj in Hrep. destruct Hrep as (l & hs & -> & HD & Hcell & Hall).
    apply rep_obj. exists l, hs. repeat split; trivial.
    + apply nth_error_Some. congruence.
    + eapply Forall2_by_right; [ exact IH | | exact Hall ].
      intros hp p Hp [Hk Hv]. split; auto.
  - apply rep_node in Hrep. destruct Hrep as (l & hs & -> & HD & Hcell & Hall).
    apply rep_node. exists l, hs. repeat split; trivial.
    + apply nth_error_Some. congruence.
    + eapply Forall2_by_right; [ exact IH | | exact Hall ].
      intros hp p Hp [Hk Hv]. split; auto.
Qed.

(** A tree stays where it is while the store agrees on its cells. *)
Lemma rep_stable (D D' P : nat -> Prop) (st st' : store) (h : hval) (t : val) :
  agree P st st' ->
  (forall l, D l -> l < length st -> D' l /\ P l) ->
  rep D st h t -> rep D' st' h t.
Proof.
  intros [_ Hsame] Hsub Hrep. apply rep_within in Hrep.
  apply (rep_frame (within D st) D' st st'); trivial.
  intros l [HD Hl]. destruct (Hsub l HD Hl) as [HD' HP]. split; auto.
Qed.

Lemma rep_props_stable (D D' P : nat -> Prop) (st st' : store) hps ps :
  agree P st st' ->
  (forall l, D l -> l < length st -> D' l /\ P l) ->
  Forall2 (rep_prop D st) hps ps -> Forall2 (rep_prop D' st') hps ps.
Proof.
  intros Hagree Hsub Hall. induction Hall as [ | hp p hps ps [Hk Hv] _ IH ];
    constructor; trivial.
  split; [ exact Hk | now apply (rep_stable D D' P st st') ].
Qed.

Lemma rep_elems_stable (D D' P : nat -> Prop) (st st' : store) hs ts :
  agree P st st' ->
  (forall l, D l -> l < length st -> D' l /\ P l) ->
  Forall2 (rep D st) hs ts -> Forall2 (rep D' st') hs ts.
Proof.
  intros Hagree Hsub Hall. induction Hall; constructor; trivial.
  now apply (rep_stable D D' P st st').
Qed.

(** *** Assignment on related property lists *)

Section SetPropRelated.
Context {A B : Type}.
Variable R : A -> B -> Prop.

Lemma related_has_key (k : string) l1 l2 :
  Forall2 (related R) l1 l2 -> has_key k l1 = has_key k l2.
Proof.
  intros Hall. induction Hall as [ | [k1 a] [k2 b] l1 l2 [Hk _] _ IH ]; simpl; trivial.
  simpl in Hk. subst k2. now rewrite IH.
Qed.

Lemma related_replace_prop (k : string) (a : A) (b : B) l1 l2 :
  R a b -> Forall2 (related R) l1 l2 ->
  Forall2 (related R) (replace_prop k a l1) (replace_prop k b l2).
Proof.
  intros Hab Hall. induction Hall as [ | [k1 a1] [k2 b1] l1 l2 [Hk Hv] Hrest IH ]; simpl;
    [ constructor | ].
  simpl in Hk, Hv. subst k2. destruct (String.eqb k k1).
  - constructor; [ now split | exact Hrest ].
  - constructor; [ now split | exact IH ].
Qed.

Lemma related_insert_index (n : N) (k : string) (a : A) (b : B) l1 l2 :
  R a b -> Forall2 (related R) l1 l2 ->
  Forall2 (related R) (insert_index n k a l1) (insert_index n k b l2).
Proof.
  intros Hab Hall. induction Hall as [ | [k1 a1] [k2 b1] l1 l2 [Hk Hv] Hrest IH ]; simpl.
  - constructor; [ now split | constructor ].
  - simpl in Hk, Hv. subst k2.
    assert (Hhead : Forall2 (related R) ((k, a) :: (k1, a1) :: l1) ((k, b) :: (k1, b1) :: l2)).
    { constructor; [ now split | ]. constructor; [ now split | exact Hrest ]. }
    destruct (array_index k1) as [m | ]; [ | exact Hhead ].
    destruct (m <? n)%N; [ | exact Hhead ].
    constructor; [ now split | exact IH ].
Qed.

Lemma related_set_prop (k : string) (a : A) (b : B) l1 l2 :
  R a b -> Forall2 (related R) l1 l2 ->
  Forall2 (related R) (set_prop l1 k a) (set_prop l2 k b).
Proof.
  intros Hab Hall. unfold set_prop. rewrite (related_has_key k l1 l2 Hall).
  destruct (has_key k l2).
  - now apply related_replace_prop.
  - destruct (array_index k).
    + now apply related_insert_index.
    + apply Forall2_app; [ exact Hall | ]. constructor; [ now split | constructor ].
Qed.
End SetPropRelated.

Lemma rep_set_prop D st (k : string) (h : hval) (t : val) hps ps :
  rep D st h t -> Forall2 (rep_prop D st) hps ps ->
  Forall2 (rep_prop D st) (set_prop hps k h) (set_prop ps k t).
Proof. intros Hv Hall. now apply (related_set_prop (rep D st)). Qed.

(** *** Runs *)

Lemma stable_rep : stable rep.
Proof. intros D D' P st st' h t. apply rep_stable. Qed.

Lemma stable_same {A} : stable (@same A).
Proof. intros D D' P st st' a b _ _ H. exact H. Qed.

Lemma ok_ret {A B} (R : (nat -> Prop) -> store -> A -> B -> Prop) D st a b :
  stable R -> R D st a b -> ok R D st (ret a st) (Ok b).
Proof.
  intros HR Hab. split; [ apply agree_refl | ]. simpl.
  apply (HR D (grown D st) everywhere st st); [ apply agree_refl | | exact Hab ].
  intros l HD _. split; [ now left | exact I ].
Qed.

Lemma ok_throw {A B} (R : (nat -> Prop) -> store -> A -> B -> Prop) D st e :
  ok R D st (throw e st) (Throw e).
Proof. split; [ apply agree_refl | reflexivity ]. Qed.

Lemma ok_bind {A A' B B'} (R : (nat -> Prop) -> store -> A -> A' -> Prop)
  (R' : (nat -> Prop) -> store -> B -> B' -> Prop)
  D st (c : M A) (k : A -> M B) (p : res A') (k' : A' -> res B') :
  stable R' ->
  ok R D st (c st) p ->
  (forall a a' st', p = Ok a' -> agree everywhere st st' -> R (grown D st) st' a a' ->
                    ok R' (later D st st') st' (k a st') (k' a')) ->
  ok R' D st (mbind c k st) (bind p k').
Proof.
  intros HR' [Hagree Hres] Hk. unfold mbind.
  destruct (c st) as [[a | e] st'], p as [a' | e']; simpl in *; try contradiction.
  - destruct (Hk a a' st' eq_refl Hagree Hres) as [Hagree' Hres']. split.
    + now apply (agree_trans everywhere st st').
    + destruct (fst (k a st')), (k' a'); trivial.
      apply (HR' (grown (later D st st') st') (grown D st) everywhere
               (snd (k a st')) (snd (k a st'))); [ apply agree_refl | | exact Hres' ].
      intros l Hl _. split; [ | exact I ].
      destruct Hl as [[HD _] | Hl]; [ exact HD | right; destruct Hagree; lia ].
  - split; [ exact Hagree | exact Hres ].
Qed.

Lemma ok_try {A B} (R : (nat -> Prop) -> store -> A -> B -> Prop)
  D st (body : M A) (handler : JsError -> M A) (p : res B) (handler' : JsError -> res B) :
  stable R ->
  ok R D st (body st) p ->
  (forall e st', agree everywhere st st' ->
                 ok R (later D st st') st' (handler e st') (handler' e)) ->
  ok R D st (mtry body handler st) (try_catch p handler').
Proof.
  intros HR [Hagree Hres] Hh. unfold mtry, try_catch.
  destruct (body st) as [[a | e] st'], p as [a' | e']; simpl in *; try contradiction.
  - split; trivial.
  - subst e'. destruct (Hh e st' Hagree) as [Hagree' Hres']. split.
    + now apply (agree_trans everywhere st st').
    + destruct (fst (handler e st')), (handler' e); trivial.
      apply (HR (grown (later D st st') st') (grown D st) everywhere
               (snd (handler e st')) (snd (handler e st'))); [ apply agree_refl | | exact Hres' ].
      intros l Hl _. split; [ | exact I ].
      destruct Hl as [[HD _] | Hl]; [ exact HD | right; destruct Hagree; lia ].
Qed.

(** What was represented before a step is represented after it. *)
Lemma rep_later D st st' h t :
  bounded D st -> agree everywhere st st' -> rep D st h t -> rep (later D st st') st' h t.
Proof.
  intros Hb Hagree. apply (rep_stable D _ everywhere st st' h t Hagree).
  intros l HD Hl. split; [ | exact I ]. split; [ now left | destruct Hagree; lia ].
Qed.

Lemma rep_grown_later D st st' h t :
  rep (grown D st) st' h t -> rep (later D st st') st' h t.
Proof. apply rep_within. Qed.

Lemma bounded_later D st st' : bounded (later D st st') st'.
Proof. apply bounded_within. Qed.

(** A new object made of represented values. *)
Lemma ok_new_obj D st hps ps :
  bounded D st -> Forall2 (rep_prop D st) hps ps ->
  ok rep D st (new (CObj hps) st) (Ok (VObj ps)).
Proof.
  intros Hb Hall. unfold new, mbind, alloc, ret. simpl. split; [ apply agree_alloc | ].
  simpl. apply rep_obj. exists (length st), hps. repeat split.
  - right. lia.
  - apply nth_error_alloc.
  - apply (rep_props_stable D _ everywhere st); [ apply agree_alloc | | exact Hall ].
    intros l HD _. split; [ now left | exact I ].
Qed.

Lemma ok_new_arr D st hs ts :
  bounded D st -> Forall2 (rep D st) hs ts ->
  ok rep D st (new (CArr hs) st) (Ok (VArr ts)).
Proof.
  intros Hb Hall. unfold new, mbind, alloc, ret. simpl. split; [ apply agree_alloc | ].
  simpl. apply rep_arr. exists (length st), hs. repeat split.
  - right. lia.
  - apply nth_error_alloc.
  - apply (rep_elems_stable D _ everywhere st); [ apply agree_alloc | | exact Hall ].
    intros l HD _. split; [ now left | exact I ].
Qed.

(** *** Loops that fill a new object *)

Lemma fill_cons (f : hval -> M hval) (target : nat) (h : hval) (hs : list hval)
  (st : store) :
  fill f target (h :: hs) st =
    match f h st with
    | (Ok v, st1) => fill f target hs (update st1 target (pushed v))
    | (Throw e, st1) => (Throw e, st1)
    end.
Proof. simpl. unfold mbind at 1. destruct (f h st) as [[v | e] st1]; reflexivity. Qed.

Lemma fill_ok (f : hval -> M hval) (f' : val -> res val) (D : nat -> Prop) (target : nat)
  (ts : list val) :
  Forall (simulates f f') ts ->
  (forall l, D l -> l < target) ->
  forall hs st acc_h acc_t,
    target < length st ->
    Forall2 (rep D st) hs ts ->
    nth_error st target = Some (CArr acc_h) ->
    Forall2 (rep (after D target) st) acc_h acc_t ->
    agree (fun l => l <> target) st (snd (fill f target hs st))
    /\ match fst (fill f target hs st), mapM f' ts with
       | Ok _, Ok ts' =>
           exists acc_h',
             nth_error (snd (fill f target hs st)) target = Some (CArr acc_h')
             /\ Forall2 (rep (after D target) (snd (fill f target hs st))) acc_h' (acc_t ++ ts')
       | Throw e, Throw e' => e = e'
       | _, _ => False
       end.
Proof.
  intros Hsim HD. induction Hsim as [ | t ts Ht _ IH ];
    intros hs st acc_h acc_t Htarget Hall Hcell Hacc.
  - apply Forall2_length in Hall as Hlen. destruct hs; [ | discriminate ].
    simpl. split; [ apply agree_refl | ]. exists acc_h. now rewrite app_nil_r.
  - destruct hs as [ | h hs' ]; [ now apply Forall2_length in Hall | ].
    apply Forall2_cons_iff in Hall. destruct Hall as [Hh Hall].
    assert (Hb : bounded D st) by (intros l Hl; specialize (HD l Hl); lia).
    destruct (Ht D st h Hb Hh) as [Hagree Hres].
    rewrite fill_cons. simpl mapM.
    destruct (f h st) as [[v | e] st1], (f' t) as [v' | e']; simpl in *;
      try contradiction.
    + set (st2 := update st1 target (pushed v)).
      assert (Hagree2 : agree (fun l => l <> target) st st2).
      { apply (agree_trans _ st st1).
        - now apply (agree_weaken everywhere).
        - apply agree_update. }
      assert (Hcell1 : nth_error st1 target = Some (CArr acc_h)).
      { destruct Hagree as [_ Hsame]. rewrite Hsame; trivial. exact I. }
      assert (Hcell2 : nth_error st2 target = Some (CArr (acc_h ++ [v]))).
      { unfold st2. rewrite nth_error_update_same, Hcell1. reflexivity. }
      assert (Hlen2 : target < length st2).
      { unfold st2. rewrite length_update. destruct Hagree. lia. }
      assert (Hall2 : Forall2 (rep D st2) hs' ts).
      { apply (rep_elems_stable D D (fun l => l <> target) st st2); trivial.
        intros l Hl _. split; trivial. specialize (HD l Hl). lia. }
      assert (Hacc2 : Forall2 (rep (after D target) st2) (acc_h ++ [v]) (acc_t ++ [v'])).
      { apply Forall2_app.
        - apply (rep_elems_stable (after D target) _ (fun l => l <> target) st st2); trivial.
          intros l Hl _. split; trivial. unfold after in Hl.
          destruct Hl as [Hl | Hl]; [ | lia ].
          specialize (HD l Hl). lia.
        - constructor; [ | constructor ].
          apply (rep_stable (grown D st) _ (fun l => l <> target) st1 st2); trivial.
          + apply agree_update.
          + intros l Hl _. unfold grown in Hl. unfold after.
            destruct Hl as [Hl | Hl].
            * split; [ now left | specialize (HD l Hl); lia ].
            * split; [ right; lia | lia ]. }
      destruct (IH hs' st2 (acc_h ++ [v]) (acc_t ++ [v']) Hlen2 Hall2 Hcell2 Hacc2)
        as [Hagree3 Hres3].
      split; [ now apply (agree_trans _ st st2) | ].
      revert Hres3.
      destruct (fst (fill f target hs' st2)), (mapM f' ts) as [ts' | ]; simpl; trivial.
      intros (acc_h' & Hc & Hr). exists acc_h'. split; trivial.
      now rewrite <- app_assoc in Hr.
    + split; [ | exact Hres ]. now apply (agree_weaken everywhere).
Qed.

(** One assignment to the object under construction in cell [result]:
    what was represented outside of it stays, and the object has the new
    property. *)
Lemma assign_step (D : nat -> Prop) (result : nat) (st st1 : store)
  (acc_h : list (string * hval)) (acc_t : list (string * val))
  (k : string) (v : hval) (v' : val) :
  (forall l, D l -> l < result) ->
  result < length st ->
  agree everywhere st st1 ->
  nth_error st result = Some (CObj acc_h) ->
  Forall2 (rep_prop (after D result) st) acc_h acc_t ->
  rep (grown D st) st1 v v' ->
  let st2 := update st1 result (assigned k v) in
  agree (fun l => l <> result) st st2
  /\ result < length st2
  /\ nth_error st2 result = Some (CObj (set_prop acc_h k v))
  /\ Forall2 (rep_prop (after D result) st2) (set_prop acc_h k v) (set_prop acc_t k v').
Proof.
  intros HD Hresult Hagree Hcell Hacc Hv st2.
  assert (Hagree2 : agree (fun l => l <> result) st st2).
  { apply (agree_trans _ st st1).
    - now apply (agree_weaken everywhere).
    - apply agree_update. }
  assert (Hcell1 : nth_error st1 result = Some (CObj acc_h)).
  { destruct Hagree as [_ Hsame]. rewrite Hsame; trivial. exact I. }
  split; [ exact Hagree2 | split; [ | split ] ].
  - unfold st2. rewrite length_update. destruct Hagree. lia.
  - unfold st2. rewrite nth_error_update_same, Hcell1. reflexivity.
  - apply rep_set_prop.
    + apply (rep_stable (grown D st) _ (fun l => l <> result) st1 st2); trivial.
      * apply agree_update.
      * intros l Hl _. unfold grown in Hl. unfold after. destruct Hl as [Hl | Hl].
        -- split; [ now left | specialize (HD l Hl); lia ].
        -- split; [ right; lia | lia ].
    + apply (rep_props_stable (after D result) _ (fun l => l <> result) st st2); trivial.
      intros l Hl _. split; trivial. unfold after in Hl.
      destruct Hl as [Hl | Hl]; [ | lia ]. specialize (HD l Hl). lia.
Qed.

Lemma rep_props_outside (D : nat -> Prop) (result : nat) (st st2 : store) hps ps :
  (forall l, D l -> l < result) ->
  agree (fun l => l <> result) st st2 ->
  Forall2 (rep_prop D st) hps ps -> Forall2 (rep_prop D st2) hps ps.
Proof.
  intros HD Hagree. apply (rep_props_stable D D (fun l => l <> result) st st2); trivial.
  intros l Hl _. split; trivial. specialize (HD l Hl). lia.
Qed.

Lemma copy_loop_cons (f : hval -> M hval) (result : nat) (key : string) (value : hval)
  (rest : list (string * hval)) (st : store) :
  Heap.copy_loop f result ((key, value) :: rest) st =
    if startsWith_underscore key then Heap.copy_loop f result rest st
    else if String.eqb (Heap.typeof value) "function" then Heap.copy_loop f result rest st
    else match f value st with
         | (Ok v, st1) => Heap.copy_loop f result rest (update st1 result (assigned key v))
         | (Throw e, st1) => (Throw e, st1)
         end.
Proof.
  simpl. destruct (startsWith_underscore key); trivial.
  destruct (Heap.typeof value =? "function"); trivial.
Qed.

Lemma copy_loop_ok (f : hval -> M hval) (f' : val -> res val) (D : nat -> Prop)
  (result : nat) (ps : list (string * val)) :
  Forall (fun p => simulates f f' (snd p)) ps ->
  (forall l, D l -> l < result) ->
  forall hps st acc_h acc_t,
    result < length st ->
    Forall2 (rep_prop D st) hps ps ->
    nth_error st result = Some (CObj acc_h) ->
    Forall2 (rep_prop (after D result) st) acc_h acc_t ->
    agree (fun l => l <> result) st (snd (Heap.copy_loop f result hps st))
    /\ match fst (Heap.copy_loop f result hps st), Skill.copy_loop f' ps acc_t with
       | Ok _, Ok acc' =>
           exists acc_h',
             nth_error (snd (Heap.copy_loop f result hps st)) result = Some (CObj acc_h')
             /\ Forall2 (rep_prop (after D result) (snd (Heap.copy_loop f result hps st)))
                        acc_h' acc'
       | Throw e, Throw e' => e = e'
       | _, _ => False
       end.
Proof.
  intros Hsim HD. induction Hsim as [ | [key t] ps Ht _ IH ];
    intros hps st acc_h acc_t Hresult Hall Hcell Hacc.
  - apply Forall2_length in Hall as Hlen. destruct hps; [ | discriminate ].
    simpl. split; [ apply agree_refl | ]. now exists acc_h.
  - destruct hps as [ | [hkey h] hps' ]; [ now apply Forall2_length in Hall | ].
    apply Forall2_cons_iff in Hall. destruct Hall as [[Hk Hh] Hall].
    simpl in Hk, Hh, Ht. subst hkey.
    rewrite copy_loop_cons. simpl Skill.copy_loop.
    destruct (startsWith_underscore key); [ now apply (IH hps' st acc_h acc_t) | ].
    rewrite (rep_typeof D st h t Hh).
    destruct (JS.typeof t =? "function"); [ now apply (IH hps' st acc_h acc_t) | ].
    assert (Hb : bounded D st) by (intros l Hl; specialize (HD l Hl); lia).
    destruct (Ht D st h Hb Hh) as [Hagree Hres].
    destruct (f h st) as [[v | e] st1], (f' t) as [v' | e']; simpl in *;
      try contradiction.
    + destruct (assign_step D result st st1 acc_h acc_t key v v' HD Hresult Hagree Hcell
                  Hacc Hres) as (Hagree2 & Hlen2 & Hcell2 & Hacc2).
      set (st2 := update st1 result (assigned key v)) in *.
      pose proof (rep_props_outside D result st st2 hps' ps HD Hagree2 Hall) as Hall2.
      destruct (IH hps' st2 _ _ Hlen2 Hall2 Hcell2 Hacc2) as [Hagree3 Hres3].
      split; [ now apply (agree_trans _ st st2) | exact Hres3 ].
    + split; [ | exact Hres ]. now apply (agree_weaken everywhere).
Qed.

(** *** One tree for each value *)

Ltac rep_inv H :=
  match type of H with
  | rep _ _ _ VUndef => apply rep_undef in H
  | rep _ _ _ VNull => apply rep_null in H
  | rep _ _ _ (VBool _) => apply rep_bool in H
  | rep _ _ _ (VNum _) => apply rep_num in H
  | rep _ _ _ (VStr _) => apply rep_str in H
  | rep _ _ _ (VFun _) => apply rep_fun in H
  | rep _ _ _ (VArr _) =>
      apply rep_arr in H;
      let l := fresh "l" in let hs := fresh "hs" in
      let Hh := fresh "Hh" in let HD := fresh "HD" in
      let Hcell := fresh "Hcell" in let Hall := fresh "Hall" in
      destruct H as (l & hs & Hh & HD & Hcell & Hall)
  | rep _ _ _ (VObj _) =>
      apply rep_obj in H;
      let l := fresh "l" in let hs := fresh "hs" in
      let Hh := fresh "Hh" in let HD := fresh "HD" in
      let Hcell := fresh "Hcell" in let Hall := fresh "Hall" in
      destruct H as (l & hs & Hh & HD & Hcell & Hall)
  | rep _ _ _ (VNode _) =>
      apply rep_node in H;
      let l := fresh "l" in let hs := fresh "hs" in
      let Hh := fresh "Hh" in let HD := fresh "HD" in
      let Hcell := fresh "Hcell" in let Hall := fresh "Hall" in
      destruct H as (l & hs & Hh & HD & Hcell & Hall)
  end.

Lemma Forall2_same_left {A B} (P : B -> Prop) (R R' : A -> B -> Prop) (l : list A)
  (r r' : list B) :
  Forall P r -> (forall a b b', P b -> R a b -> R' a b' -> b = b') ->
  Forall2 R l r -> Forall2 R' l r' -> r = r'.
Proof.
  intros HP Hfun Hall. revert r'.
  induction Hall as [ | a b l r Hab _ IH ]; intros r' Hall'; inversion Hall'; subst;
    trivial.
  inversion HP; subst. f_equal; eauto.
Qed.

Lemma rep_functional (D D' : nat -> Prop) (st : store) (t1 : val) :
  forall h t2, rep D st h t1 -> rep D' st h t2 -> t1 = t2.
Proof.
  induction t1 as [ | | b | n | s | f | elems IH | props IH | props IH ]
    using val_deep_ind; intros h t2 H1 H2; rep_inv H1; destruct t2; rep_inv H2;
    subst; try congruence.
  - assert (hs0 = hs) by congruence. subst hs0. f_equal.
    eapply Forall2_same_left; [ exact IH | | exact Hall | exact Hall0 ].
    intros a b b' Hb. apply Hb.
  - assert (hs0 = hs) by congruence. subst hs0. f_equal.
    eapply Forall2_same_left; [ exact IH | | exact Hall | exact Hall0 ].
    intros [k h] [k1 b] [k2 b'] Hb [Hk1 Hv1] [Hk2 Hv2]. simpl in *. subst.
    f_equal. now apply (Hb h).
  - assert (hs0 = hs) by congruence. subst hs0. f_equal.
    eapply Forall2_same_left; [ exact IH | | exact Hall | exact Hall0 ].
    intros [k h] [k1 b] [k2 b'] Hb [Hk1 Hv1] [Hk2 Hv2]. simpl in *. subst.
    f_equal. now apply (Hb h).
Qed.

(** *** The depth of a represented tree *)

Lemma height_arr (elems : list val) :
  height (VArr elems) = S (list_max (map height elems)).
Proof. simpl. f_equal. induction elems as [ | x l IH ]; simpl; congruence. Qed.

Lemma height_props (props : list (string * val)) :
  height (VObj props) = S (list_max (map (fun kv => height (snd kv)) props))
  /\ height (VNode props) = S (list_max (map (fun kv => height (snd kv)) props)).
Proof. simpl. split; f_equal; induction props as [ | x l IH ]; simpl; congruence. Qed.

Lemma list_max_attained (l : list nat) : list_max l = 0 \/ In (list_max l) l.
Proof.
  induction l as [ | x l IH ]; simpl; [ now left | ].
  destruct (Nat.max_spec x (list_max l)) as [[Hlt ->] | [Hle ->]].
  - destruct IH as [H0 | Hin]; [ left; lia | right; now right ].
  - right. now left.
Qed.

Lemma Forall2_In_right {A B} (R : A -> B -> Prop) (l : list A) (r : list B) (b : B) :
  Forall2 R l r -> In b r -> exists a, In a l /\ R a b.
Proof.
  intros Hall. induction Hall as [ | a0 b0 l r Hab _ IH ]; intros Hin; [ destruct Hin | ].
  destruct Hin as [ <- | Hin ].
  - exists a0. split; [ now left | exact Hab ].
  - destruct (IH Hin) as (a & Ha & HR). exists a. split; [ now right | exact HR ].
Qed.

Lemma descent_cons (D : nat -> Prop) (st : store) (t child : val) (l : nat)
  (path : list nat) :
  rep D st (HRef l) t -> l < length st ->
  height t = S (height child) ->
  descent D st child path -> descent D st t (l :: path).
Proof.
  intros Hrep Hl Hheight (Hnodup & Hlen & Hpath). split; [ | split ].
  - constructor; [ | exact Hnodup ]. intros Hin.
    destruct (Hpath l Hin) as (_ & t' & Hrep' & Hle).
    pose proof (rep_functional D D st t (HRef l) t' Hrep Hrep'). subst t'. lia.
  - simpl. lia.
  - intros l' [ <- | Hin ].
    + split; [ exact Hl | ]. exists t. split; [ exact Hrep | lia ].
    + destruct (Hpath l' Hin) as (Hl' & t' & Hrep' & Hle).
      split; [ exact Hl' | ]. exists t'. split; [ exact Hrep' | lia ].
Qed.

Lemma descent_single (D : nat -> Prop) (st : store) (t : val) (l : nat) :
  rep D st (HRef l) t -> l < length st -> height t = 1 -> descent D st t [l].
Proof.
  intros Hrep Hl Hheight. split; [ | split ].
  - constructor; [ intros [] | constructor ].
  - simpl. lia.
  - intros l' [ <- | [] ]. split; [ exact Hl | ]. exists t. split; [ exact Hrep | lia ].
Qed.

Lemma rep_descent (D : nat -> Prop) (st : store) (t : val) :
  forall h, rep D st h t -> exists path, descent D st t path.
Proof.
  induction t as [ | | b | n | s | f | elems IH | props IH | props IH ]
    using val_deep_ind; intros h Hrep;
    try (exists []; split; [ constructor | split; [ reflexivity | intros l [] ] ]).
  - pose proof Hrep as Hrep0. rep_inv Hrep. subst h.
    assert (Hl : l < length st) by (apply nth_error_Some; congruence).
    destruct (list_max_attained (map height elems)) as [H0 | Hin].
    + exists [l]. apply descent_single; trivial. rewrite height_arr. lia.
    + apply in_map_iff in Hin. destruct Hin as (child & Hchild & Hin).
      destruct (Forall2_In_right _ _ _ _ Hall Hin) as (hc & _ & Hc).
      rewrite Forall_forall in IH. destruct (IH child Hin hc Hc) as (path & Hpath).
      exists (l :: path). apply (descent_cons D st _ child); trivial.
      rewrite height_arr. congruence.
  - pose proof Hrep as Hrep0. rep_inv Hrep. subst h.
    assert (Hl : l < length st) by (apply nth_error_Some; congruence).
    destruct (list_max_attained (map (fun kv => height (snd kv)) props)) as [H0 | Hin].
    + exists [l]. apply descent_single; trivial.
      rewrite (proj1 (height_props props)). lia.
    + apply in_map_iff in Hin. destruct Hin as (child & Hchild & Hin).
      destruct (Forall2_In_right _ _ _ _ Hall Hin) as (hc & _ & _ & Hc).
      rewrite Forall_forall in IH. destruct (IH child Hin (snd hc) Hc) as (path & Hpath).
      exists (l :: path). apply (descent_cons D st _ (snd child)); trivial.
      rewrite (proj1 (height_props props)). congruence.
  - pose proof Hrep as Hrep0. rep_inv Hrep. subst h.
    assert (Hl : l < length st) by (apply nth_error_Some; congruence).
    destruct (list_max_attained (map (fun kv => height (snd kv)) props)) as [H0 | Hin].
    + exists [l]. apply descent_single; trivial.
      rewrite (proj2 (height_props props)). lia.
    + apply in_map_iff in Hin. destruct Hin as (child & Hchild & Hin).
      destruct (Forall2_In_right _ _ _ _ Hall Hin) as (hc & _ & _ & Hc).
      rewrite Forall_forall in IH. destruct (IH child Hin (snd hc) Hc) as (path & Hpath).
      exists (l :: path). apply (descent_cons D st _ (snd child)); trivial.
      rewrite (proj2 (height_props props)). congruence.
Qed.

(** A tree in the store is no deeper than the store has cells. *)
Lemma rep_height (D : nat -> Prop) (st : store) (h : hval) (t : val) :
  rep D st h t -> height t <= length st.
Proof.
  intros Hrep. destruct (rep_descent D st t h Hrep) as (path & Hnodup & Hlen & Hpath).
  rewrite <- Hlen.
  apply Nat.le_trans with (length (seq 0 (length st))); [ | now rewrite length_seq ].
  apply NoDup_incl_length; trivial.
  intros l Hin. apply in_seq. destruct (Hpath l Hin) as [Hl _]. lia.
Qed.

(** *** The library on the store *)

(** After a step: what was represented before is represented now, and so
    is what the step returned. *)
Ltac advance Hb Hagree Hnew :=
  match type of Hagree with
  | agree everywhere ?st ?st' =>
      repeat match goal with
             | H : rep ?D st _ _ |- _ => apply (rep_later D st st' _ _ Hb Hagree) in H
             end;
      try apply rep_grown_later in Hnew
  end.

Section Simulation.
Variable hlib : Heap.Library.
Variable lib : SmilesJs.Library.
Hypothesis Hlib : faithful hlib lib.

(** A function value and the tree of one. *)
Lemma rep_fun_cases D st h t :
  rep D st h t ->
  (exists f, h = HFun f /\ t = VFun f)
  \/ ((forall f, h <> HFun f) /\ (forall f, t <> VFun f)).
Proof.
  intros Hrep. destruct t; rep_inv Hrep; subst;
    try (right; split; intros; discriminate).
  left. now exists name.
Qed.

Lemma agree_after_alloc (st : store) (c : cell) (st' : store) :
  agree (fun l => l <> length st) (st ++ [c]) st' -> agree everywhere st st'.
Proof.
  intros [Hlen Hsame]. rewrite length_app in Hlen. simpl in Hlen. split; [ lia | ].
  intros l Hl _. rewrite Hsame.
  - now apply nth_error_app1.
  - rewrite length_app. simpl. lia.
  - lia.
Qed.

Lemma ok_call_args D st f h t :
  bounded D st -> rep D st h t ->
  forall hs ts, Forall2 (rep D st) hs ts ->
  ok rep D st (Heap.call hlib f h hs st) (SmilesJs.call lib f t ts).
Proof. intros. now apply (sim_call hlib lib Hlib). Qed.

(** The loop that fills the new array in cell [length st], as a run. *)
Lemma new_array_ok (g : hval -> M hval) (g' : val -> res val) (D : nat -> Prop)
  (st : store) (hs : list hval) (elems : list val) :
  bounded D st ->
  Forall (simulates g g') elems ->
  Forall2 (rep D st) hs elems ->
  ok rep D st ((target <~ alloc (CArr []) ;; _ <~ fill g target hs ;; ret (HRef target)) st)
     (elems' <- mapM g' elems ;; Ok (VArr elems')).
Proof.
  intros Hb Hg Hall. unfold mbind at 1, alloc. simpl fst. simpl snd.
  set (target := length st). set (st0 := st ++ [CArr []]).
  assert (Hlen0 : target < length st0)
    by (unfold st0, target; rewrite length_app; simpl; lia).
  assert (Hall0 : Forall2 (rep D st0) hs elems).
  { apply (rep_elems_stable D D everywhere st st0); trivial; [ apply agree_alloc | ].
    intros; split; trivial. exact I. }
  destruct (fill_ok g g' D target elems Hg Hb hs st0 [] [] Hlen0 Hall0
              (nth_error_alloc st (CArr [])) (Forall2_nil _)) as [Hagree Hres].
  unfold mbind.
  destruct (fill g target hs st0) as [[u | e] st1], (mapM g' elems) as [ts' | e'];
    simpl in *; try contradiction.
  - split; [ now apply (agree_after_alloc st (CArr [])) | ]. simpl.
    destruct Hres as (acc & Hacc & Hrepacc).
    apply rep_arr. exists target, acc. repeat split; trivial.
    + right. unfold target. lia.
    + apply (rep_elems_frame (after D target) _ st1 st1); trivial.
      intros x Hx. split; trivial. unfold after in Hx. unfold grown.
      destruct Hx as [Hx | Hx]; [ now left | right; unfold target in Hx; lia ].
  - split; [ now apply (agree_after_alloc st (CArr [])) | exact Hres ].
Qed.

Lemma method_map_ok (cb : string) (g : hval -> M hval) (g' : val -> res val) (t : val) :
  Forall (simulates g g') (array_elements t) ->
  simulates (Heap.method_map hlib cb g) (Skill.method_map lib cb g') t.
Proof.
  intros Hg D st h Hb Hrep. pose proof Hrep as Hrep0.
  destruct t; rep_inv Hrep; subst; try apply ok_throw.
  - (* an array *)
    unfold Heap.method_map. rewrite Hcell. now apply new_array_ok.
  - (* a plain object *)
    unfold Heap.method_map. rewrite Hcell. simpl Skill.method_map.
    pose proof (rep_lookup D st "map" _ _ Hall) as Hl.
    destruct (lookup "map" hs) as [hv | ], (lookup "map" props) as [tv | ];
      try contradiction; try apply ok_throw.
    destruct (rep_fun_cases D st hv tv Hl) as [(f & -> & ->) | [Hh Ht]].
    + apply ok_call_args; trivial. constructor; [ now apply rep_fun | constructor ].
    + destruct hv; try (now apply ok_throw_other); destruct tv;
        try apply ok_throw; try (now elim (Hh name)); now elim (Ht name).
  - (* a library object *)
    unfold Heap.method_map. rewrite Hcell. simpl Skill.method_map.
    pose proof (rep_lookup D st "map" _ _ Hall) as Hl.
    destruct (lookup "map" hs) as [hv | ], (lookup "map" props) as [tv | ];
      try contradiction; try apply ok_throw.
    destruct (rep_fun_cases D st hv tv Hl) as [(f & -> & ->) | [Hh Ht]].
    + apply ok_call_args; trivial. constructor; [ now apply rep_fun | constructor ].
    + destruct hv; try (now apply ok_throw_other); destruct tv;
        try apply ok_throw; try (now elim (Hh name)); now elim (Ht name).
Qed.

Lemma attach_loop_cons (g : hval -> M hval) (result : nat) (pos : string) (items : hval)
  (rest : list (string * hval)) (st : store) :
  Heap.attach_loop hlib g result ((pos, items) :: rest) st =
    match Heap.method_map hlib "objectToAst" g items st with
    | (Ok v, st1) => Heap.attach_loop hlib g result rest (update st1 result (assigned pos v))
    | (Throw e, st1) => (Throw e, st1)
    end.
Proof. reflexivity. Qed.

Lemma attach_loop_ok (g : hval -> M hval) (g' : val -> res val) (D : nat -> Prop)
  (result : nat) (ps : list (string * val)) :
  Forall (fun p => Forall (simulates g g') (array_elements (snd p))) ps ->
  (forall l, D l -> l < result) ->
  forall hps st acc_h acc_t,
    result < length st ->
    Forall2 (rep_prop D st) hps ps ->
    nth_error st result = Some (CObj acc_h) ->
    Forall2 (rep_prop (after D result) st) acc_h acc_t ->
    agree (fun l => l <> result) st (snd (Heap.attach_loop hlib g result hps st))
    /\ match fst (Heap.attach_loop hlib g result hps st),
             Skill.attach_loop lib g' ps acc_t with
       | Ok _, Ok acc' =>
           exists acc_h',
             nth_error (snd (Heap.attach_loop hlib g result hps st)) result
               = Some (CObj acc_h')
             /\ Forall2 (rep_prop (after D result)
                           (snd (Heap.attach_loop hlib g result hps st))) acc_h' acc'
       | Throw e, Throw e' => e = e'
       | _, _ => False
       end.
Proof.
  intros Hsim HD. induction Hsim as [ | [key t] ps Ht _ IH ];
    intros hps st acc_h acc_t Hresult Hall Hcell Hacc.
  - apply Forall2_length in Hall as Hlen. destruct hps; [ | discriminate ].
    simpl. split; [ apply agree_refl | ]. now exists acc_h.
  - destruct hps as [ | [hkey h] hps' ]; [ now apply Forall2_length in Hall | ].
    apply Forall2_cons_iff in Hall. destruct Hall as [[Hk Hh] Hall].
    simpl in Hk, Hh, Ht. subst hkey.
    rewrite attach_loop_cons. simpl Skill.attach_loop.
    assert (Hb : bounded D st) by (intros l Hl; specialize (HD l Hl); lia).
    destruct (method_map_ok "objectToAst" g g' t Ht D st h Hb Hh) as [Hagree Hres].
    destruct (Heap.method_map hlib "objectToAst" g h st) as [[v | e] st1],
             (Skill.method_map lib "objectToAst" g' t) as [v' | e']; simpl in *;
      try contradiction.
    + destruct (assign_step D result st st1 acc_h acc_t key v v' HD Hresult Hagree Hcell
                  Hacc Hres) as (Hagree2 & Hlen2 & Hcell2 & Hacc2).
      set (st2 := update st1 result (assigned key v)) in *.
      pose proof (rep_props_outside D result st st2 hps' ps HD Hagree2 Hall) as Hall2.
      destruct (IH hps' st2 _ _ Hlen2 Hall2 Hcell2 Hacc2) as [Hagree3 Hres3].
      split; [ now apply (agree_trans _ st st2) | exact Hres3 ].
    + split; [ | exact Hres ]. now apply (agree_weaken everywhere).
Qed.

(** A loop that fills the new object in cell [length st], as a run. *)
Lemma new_object_ok (D : nat -> Prop) (st : store) (loop : M unit)
  (outcome : res (list (string * val))) :
  bounded D st ->
  (agree (fun l => l <> length st) (st ++ [CObj []]) (snd (loop (st ++ [CObj []])))
   /\ match fst (loop (st ++ [CObj []])), outcome with
      | Ok _, Ok acc' =>
          exists acc_h',
            nth_error (snd (loop (st ++ [CObj []]))) (length st) = Some (CObj acc_h')
            /\ Forall2 (rep_prop (after D (length st)) (snd (loop (st ++ [CObj []]))))
                       acc_h' acc'
      | Throw e, Throw e' => e = e'
      | _, _ => False
      end) ->
  ok rep D st ((result <~ alloc (CObj []) ;; _ <~ loop ;; ret (HRef result)) st)
     (result <- outcome ;; Ok (VObj result)).
Proof.
  intros Hb [Hagree Hres]. unfold mbind, alloc, ret. simpl fst. simpl snd.
  destruct (loop (st ++ [CObj []])) as [[u | e] st1], outcome as [acc' | e'];
    simpl in *; try contradiction.
  - split; [ now apply (agree_after_alloc st (CObj [])) | ]. simpl.
    destruct Hres as (acc & Hacc & Hrepacc).
    apply rep_obj. exists (length st), acc. repeat split; trivial.
    + right. lia.
    + apply (rep_prop_frame (after D (length st)) _ st1 st1); trivial.
      intros x Hx. split; trivial. unfold after in Hx. unfold grown.
      destruct Hx as [Hx | Hx]; [ now left | right; lia ].
  - split; [ now apply (agree_after_alloc st (CObj [])) | exact Hres ].
Qed.

Lemma reconstructAttachments_ok (g : hval -> M hval) (g' : val -> res val) (t : val) :
  Forall (fun p => Forall (simulates g g') (array_elements (snd p))) (JS.Object_entries t) ->
  simulates (Heap.reconstructAttachments hlib g) (Skill.reconstructAttachments lib g') t.
Proof.
  intros Hg D st h Hb Hrep.
  unfold Heap.reconstructAttachments, Skill.reconstructAttachments.
  rewrite (rep_truthy D st h t Hrep). destruct (JS.truthy t); simpl negb; cbv iota.
  - apply (new_object_ok D st
             (fun st0 => (entries <~ Heap.Object_entries h ;;
                          Heap.attach_loop hlib g (length st) entries) st0)
             (Skill.attach_loop lib g' (JS.Object_entries t) [])); trivial.
    unfold mbind, Heap.Object_entries. simpl.
    assert (Hagree0 : agree everywhere st (st ++ [CObj []])) by apply agree_alloc.
    apply (attach_loop_ok g g' D (length st) (JS.Object_entries t) Hg Hb
             (entries_in (st ++ [CObj []]) h) (st ++ [CObj []]) [] []).
    + rewrite length_app. simpl. lia.
    + apply rep_entries.
      apply (rep_stable D D everywhere st (st ++ [CObj []])); trivial.
      intros; split; trivial. exact I.
    + apply nth_error_alloc.
    + constructor.
  - apply ok_new_obj; [ trivial | constructor ].
Qed.

(** *** astToObject *)

Lemma call_toObject_ok (D : nat -> Prop) (st : store) (l : nat)
  (hps : list (string * hval)) (props : list (string * val)) :
  bounded D st -> D l -> nth_error st l = Some (CObj hps) ->
  Forall2 (rep_prop D st) hps props ->
  ok rep D st (Heap.call_toObject hlib (HRef l) st)
     (Skill.call_toObject lib (VObj props)).
Proof.
  intros Hb HD Hcell Hall.
  assert (Hrep : rep D st (HRef l) (VObj props)).
  { apply rep_obj. now exists l, hps. }
  pose proof (rep_get D st _ _ "toObject" Hrep) as Hget.
  unfold Heap.call_toObject, Skill.call_toObject. simpl cell_of. rewrite Hcell.
  destruct (rep_fun_cases D st _ _ Hget) as [(f & -> & ->) | [Hh Ht]].
  - apply ok_call_args; trivial; constructor.
  - destruct (get_in st (HRef l) "toObject"); try (now elim (Hh name));
      destruct (JS.get (VObj props) "toObject"); try (now elim (Ht name));
      apply ok_throw.
Qed.

Lemma astToObject_at_ok (t : val) :
  forall depth, height t < depth ->
  simulates (Heap.astToObject_at hlib depth) (Skill.astToObject lib) t.
Proof.
  induction t as [ | | b | n | s | f | elems IH | props IH | props IH ]
    using val_deep_ind; intros [ | depth ] Hdepth D st h Hb Hrep; try lia;
    pose proof Hrep as Hrep0; rep_inv Hrep; subst h; simpl Heap.astToObject_at.
  - now apply ok_ret; [ apply stable_rep | ].
  - now apply ok_ret; [ apply stable_rep | ].
  - rewrite orb_true_r. now apply ok_ret; [ apply stable_rep | ].
  - rewrite orb_true_r. now apply ok_ret; [ apply stable_rep | ].
  - rewrite orb_true_r. now apply ok_ret; [ apply stable_rep | ].
  - now apply ok_ret; [ apply stable_rep | ].
  - (* an array *)
    unfold Heap.has_toObject, Heap.isArray, elements_in, get_in. simpl cell_of.
    rewrite Hcell. simpl.
    apply new_array_ok; trivial.
    rewrite Forall_forall in IH. apply Forall_forall. intros e He.
    apply IH; trivial. pose proof (height_elem elems e He). lia.
  - (* a plain object *)
    pose proof (rep_get D st _ _ "toObject" Hrep0) as Hget.
    apply rep_truthy in Hget.
    unfold Heap.has_toObject, Heap.isArray, entries_in. simpl cell_of.
    rewrite Hcell. rewrite Hget.
    change (Skill.astToObject lib (VObj props))
      with (if JS.truthy (JS.get (VObj props) "toObject")
            then Skill.call_toObject lib (VObj props)
            else result <- Skill.copy_loop (Skill.astToObject lib) props [] ;;
                 Ok (VObj result)).
    destruct (JS.truthy (JS.get (VObj props) "toObject")).
    + now apply (call_toObject_ok D st l hs props).
    + simpl.
      apply (new_object_ok D st (Heap.copy_loop (Heap.astToObject_at hlib depth)
                                   (length st) hs)
               (Skill.copy_loop (Skill.astToObject lib) props [])); trivial.
      assert (Hsim : Forall (fun p => simulates (Heap.astToObject_at hlib depth)
                                        (Skill.astToObject lib) (snd p)) props).
      { rewrite Forall_forall in IH. apply Forall_forall. intros [k e] He.
        apply (IH (k, e)); trivial. pose proof (height_prop props k e He). simpl. lia. }
      apply (copy_loop_ok _ _ D (length st) props Hsim Hb hs (st ++ [CObj []]) [] []).
      * rewrite length_app. simpl. lia.
      * apply (rep_props_stable D D everywhere st); trivial; [ apply agree_alloc | ].
        intros; split; trivial. exact I.
      * apply nth_error_alloc.
      * constructor.
  - (* a library object *)
    unfold Heap.has_toObject, Heap.call_toObject. simpl cell_of. rewrite Hcell.
    simpl Skill.astToObject. now apply (sim_toObject hlib lib Hlib).
Qed.

Lemma astToObject_ok (t : val) :
  simulates (Heap.astToObject hlib) (Skill.astToObject lib) t.
Proof.
  intros D st h Hb Hrep. unfold Heap.astToObject.
  apply astToObject_at_ok; trivial. pose proof (rep_height D st h t Hrep). lia.
Qed.

(** *** objectToAst *)

(** A step whose outcome on trees is a value. *)
Lemma ok_bind_value {A A' B B'} (R : (nat -> Prop) -> store -> A -> A' -> Prop)
  (R' : (nat -> Prop) -> store -> B -> B' -> Prop)
  D st (c : M A) (k : A -> M B) (a' : A') (p : res B') :
  stable R' ->
  ok R D st (c st) (Ok a') ->
  (forall a st', agree everywhere st st' -> R (grown D st) st' a a' ->
                 ok R' (later D st st') st' (k a st') p) ->
  ok R' D st (mbind c k st) p.
Proof.
  intros HR' Hc Hk.
  apply (ok_bind R R' D st c k (Ok a') (fun _ => p)); trivial.
  intros a a0 st' [= <-] Hagree Ha. now apply Hk.
Qed.

Lemma mbind_get {B} (o : hval) (k : string) (cont : hval -> M B) (st : store) :
  (x <~ Heap.get o k ;; cont x) st = cont (get_in st o k) st.
Proof. reflexivity. Qed.

Lemma rep_or_else D st a b ta tb :
  rep D st a ta -> rep D st b tb -> rep D st (Heap.or_else a b) (JS.or_else ta tb).
Proof.
  intros Ha Hb. unfold Heap.or_else, JS.or_else. rewrite (rep_truthy D st a ta Ha).
  now destruct (JS.truthy ta).
Qed.

Lemma or_new_obj_ok D st v tv :
  bounded D st -> rep D st v tv ->
  ok rep D st (or_new v (CObj []) st) (Ok (JS.or_else tv (VObj []))).
Proof.
  intros Hb Hv. unfold or_new, JS.or_else. rewrite (rep_truthy D st v tv Hv).
  destruct (JS.truthy tv).
  - now apply ok_ret; [ apply stable_rep | ].
  - apply ok_new_obj; [ trivial | constructor ].
Qed.

Lemma or_new_arr_ok D st v tv :
  bounded D st -> rep D st v tv ->
  ok rep D st (or_new v (CArr []) st) (Ok (JS.or_else tv (VArr []))).
Proof.
  intros Hb Hv. unfold or_new, JS.or_else. rewrite (rep_truthy D st v tv Hv).
  destruct (JS.truthy tv).
  - now apply ok_ret; [ apply stable_rep | ].
  - apply ok_new_arr; [ trivial | constructor ].
Qed.


Lemma rep_prop_pair D st (k : string) h t :
  rep D st h t -> rep_prop D st (k, h) (k, t).
Proof. now split. Qed.

Lemma objectToAst_at_ok (depth : nat) :
  forall t, simulates (Heap.objectToAst_at hlib depth) (Skill.objectToAst_at lib depth) t.
Proof.
  induction depth as [ | depth IH ]; intros t D st h Hb Hrep; [ apply ok_throw | ].
  simpl Heap.objectToAst_at. simpl Skill.objectToAst_at.
  rewrite (rep_truthy D st h t Hrep), (rep_typeof D st h t Hrep).
  destruct (negb (JS.truthy t) || negb (JS.typeof t =? "object"));
    [ now apply ok_ret; [ apply stable_rep | ] | ].
  rewrite mbind_get.
  rewrite !(rep_is_str D st _ _ _ (rep_get D st h t "type" Hrep)).
  assert (Hatt : forall ta,
            simulates (Heap.reconstructAttachments hlib (Heap.objectToAst_at hlib depth))
              (Skill.reconstructAttachments lib (Skill.objectToAst_at lib depth)) ta).
  { intros ta. apply reconstructAttachments_ok.
    apply Forall_forall. intros p _. apply Forall_forall. intros e _. apply IH. }
  assert (Hmap : forall tv,
            simulates (Heap.method_map hlib "objectToAst" (Heap.objectToAst_at hlib depth))
              (Skill.method_map lib "objectToAst" (Skill.objectToAst_at lib depth)) tv).
  { intros tv. apply method_map_ok; trivial.
    apply Forall_forall. intros e _. apply IH. }
  destruct (JS.is_str (JS.get t "type") "ring"); [ | 
  destruct (JS.is_str (JS.get t "type") "linear"); [ | 
  destruct (JS.is_str (JS.get t "type") "fused_ring"); [ | 
  destruct (JS.is_str (JS.get t "type") "molecule"); [ | 
    now apply ok_ret; [ apply stable_rep | ] ] ] ] ].
  - (* Ring *)
    rewrite !mbind_get.
    pose proof (rep_get D st h t "atoms" Hrep) as Hatoms.
    pose proof (rep_get D st h t "size" Hrep) as Hsize.
    pose proof (rep_get D st h t "ringNumber" Hrep) as Hnumber.
    pose proof (rep_get D st h t "offset" Hrep) as Hoffset.
    pose proof (rep_get D st h t "substitutions" Hrep) as Hsubs.
    eapply ok_bind_value;
      [ apply stable_rep
      | apply (or_new_obj_ok D st _ (JS.get t "substitutions")); trivial | ].
    intros subs st1 Hagree1 Hsubs'. advance Hb Hagree1 Hsubs'.
    pose proof (bounded_later D st st1) as Hb1.
    rewrite mbind_get.
    eapply ok_bind;
      [ apply stable_rep | apply Hatt; [ exact Hb1 | apply rep_get; exact Hrep ] | ].
    intros att att' st2 _ Hagree2 Hatt'. advance Hb1 Hagree2 Hatt'.
    pose proof (bounded_later (later D st st1) st1 st2) as Hb2.
    rewrite mbind_get.
    eapply ok_bind_value;
      [ apply stable_rep
      | apply (or_new_arr_ok _ st2 _ (JS.get t "bonds"));
        [ exact Hb2 | apply rep_get; exact Hrep ] | ].
    intros bonds st3 Hagree3 Hbonds. advance Hb2 Hagree3 Hbonds.
    pose proof (bounded_later (later (later D st st1) st1 st2) st2 st3) as Hb3.
    eapply ok_bind_value;
      [ apply stable_rep
      | apply (ok_new_obj _ st3 _ (JS.Object_entries (ring_options t att')));
        [ exact Hb3 | ] | ].
    { simpl. repeat (apply Forall2_cons; [ apply rep_prop_pair | ]);
        try apply Forall2_nil; trivial.
      - apply rep_or_else; [ trivial | now apply rep_num ].
      - apply rep_or_else; [ trivial | now apply rep_num ]. }
    intros options st4 Hagree4 Hoptions.
    apply (sim_Ring hlib lib Hlib); [ apply bounded_later | ].
    now apply rep_grown_later.
  - (* Linear *)
    rewrite mbind_get.
    eapply ok_bind_value;
      [ apply stable_rep
      | apply (or_new_arr_ok D st _ (JS.get t "atoms")); [ trivial | now apply rep_get ] | ].
    intros atoms st1 Hagree1 Hatoms. advance Hb Hagree1 Hatoms.
    pose proof (bounded_later D st st1) as Hb1.
    rewrite mbind_get.
    eapply ok_bind_value;
      [ apply stable_rep
      | apply (or_new_arr_ok _ st1 _ (JS.get t "bonds"));
        [ exact Hb1 | apply rep_get; exact Hrep ] | ].
    intros bonds st2 Hagree2 Hbonds. advance Hb1 Hagree2 Hbonds.
    pose proof (bounded_later (later D st st1) st1 st2) as Hb2.
    rewrite mbind_get.
    eapply ok_bind;
      [ apply stable_rep | apply Hatt; [ exact Hb2 | apply rep_get; exact Hrep ] | ].
    intros att att' st3 _ Hagree3 Hatt'. advance Hb2 Hagree3 Hatt'.
    apply (sim_Linear hlib lib Hlib); trivial. apply bounded_later.
  - (* FusedRing *)
    rewrite mbind_get.
    eapply ok_bind_value;
      [ apply stable_rep
      | apply (or_new_arr_ok D st _ (JS.get t "rings")); [ trivial | now apply rep_get ] | ].
    intros rings st1 Hagree1 Hrings. advance Hb Hagree1 Hrings.
    pose proof (bounded_later D st st1) as Hb1.
    eapply ok_bind; [ apply stable_rep | apply Hmap; [ exact Hb1 | exact Hrings ] | ].
    intros nodes nodes' st2 _ Hagree2 Hnodes.
    apply (sim_FusedRing hlib lib Hlib); [ apply bounded_later | ].
    now apply rep_grown_later.
  - (* Molecule *)
    rewrite mbind_get.
    eapply ok_bind_value;
      [ apply stable_rep
      | apply (or_new_arr_ok D st _ (JS.get t "components"));
        [ trivial | now apply rep_get ] | ].
    intros components st1 Hagree1 Hcomponents. advance Hb Hagree1 Hcomponents.
    pose proof (bounded_later D st st1) as Hb1.
    eapply ok_bind; [ apply stable_rep | apply Hmap; [ exact Hb1 | exact Hcomponents ] | ].
    intros nodes nodes' st2 _ Hagree2 Hnodes.
    apply (sim_Molecule hlib lib Hlib); [ apply bounded_later | ].
    now apply rep_grown_later.
Qed.

Lemma objectToAst_ok (t : val) :
  simulates (Heap.objectToAst hlib) (Skill.objectToAst lib) t.
Proof.
  intros D st h Hb Hrep. unfold Heap.objectToAst.
  pose proof (rep_height D st h t Hrep) as Hheight.
  rewrite <- (ToolFacts.objectToAst_at_enough lib (S (length st)) t) by lia.
  now apply objectToAst_at_ok.
Qed.

End Simulation.

(** *** The tools *)

Ltac props_related :=
  repeat (apply Forall2_cons; [ apply rep_prop_pair | ]); try apply Forall2_nil; trivial;
  try (now apply rep_bool); try (now apply rep_str).

Section ToolSimulation.
Variable hlib : Heap.Library.
Variable lib : SmilesJs.Library.
Hypothesis Hlib : faithful hlib lib.

Lemma destructure_sim (k : string) (t : val) :
  simulates (fun h => Heap.destructure h k) (fun t' => JS.destructure t' k) t.
Proof.
  intros D st h Hb Hrep.
  assert (Hget : ok rep D st (Heap.get h k st) (Ok (JS.get t k))).
  { apply (ok_ret rep D st); [ apply stable_rep | now apply rep_get ]. }
  destruct t; rep_inv Hrep; subst h; try exact Hget; apply ok_throw.
Qed.

Lemma failure_ok (e : JsError) D st :
  bounded D st -> ok rep D st (Heap.failure e st) (Skill.failure e).
Proof. intros Hb. apply ok_new_obj; trivial. props_related. Qed.

Lemma ToString_ok D st h t :
  bounded D st -> rep D st h t ->
  ok same D st (Heap.ToString hlib h st) (Skill.ToString lib t).
Proof.
  intros Hb Hrep.
  pose proof (sim_objectToString hlib lib Hlib D st h t Hb Hrep) as Hobj.
  destruct t; rep_inv Hrep; subst h; try exact Hobj;
    try (apply ok_ret; [ apply stable_same | reflexivity ]).
  destruct b; apply ok_ret; try apply stable_same; reflexivity.
Qed.

Lemma parse_smiles_ok (t : val) :
  simulates (Heap.parse_smiles hlib) (Skill.parse_smiles lib) t.
Proof.
  intros D st h Hb Hrep. unfold Heap.parse_smiles, Skill.parse_smiles.
  eapply ok_bind; [ apply stable_rep | apply (destructure_sim "smiles" t); trivial | ].
  intros s s' st1 _ Hagree1 Hs. advance Hb Hagree1 Hs.
  pose proof (bounded_later D st st1) as Hb1.
  apply ok_try;
    [ apply stable_rep | | intros e st2 _; apply failure_ok; apply bounded_later ].
  eapply ok_bind;
    [ apply stable_rep | apply (sim_parse hlib lib Hlib); [ exact Hb1 | exact Hs ] | ].
  intros ast ast' st2 _ Hagree2 Hast. advance Hb1 Hagree2 Hast.
  pose proof (bounded_later (later D st st1) st1 st2) as Hb2.
  eapply ok_bind;
    [ apply stable_rep | apply (astToObject_ok hlib lib Hlib); [ exact Hb2 | exact Hast ] | ].
  intros obj obj' st3 _ Hagree3 Hobj. advance Hb2 Hagree3 Hobj.
  apply ok_new_obj; [ apply bounded_later | ]. props_related.
Qed.

Lemma build_smiles_ok (t : val) :
  simulates (Heap.build_smiles hlib) (Skill.build_smiles lib) t.
Proof.
  intros D st h Hb Hrep. unfold Heap.build_smiles, Skill.build_smiles.
  eapply ok_bind; [ apply stable_rep | apply (destructure_sim "ast" t); trivial | ].
  intros ast ast' st1 _ Hagree1 Hast. advance Hb Hagree1 Hast.
  pose proof (bounded_later D st st1) as Hb1.
  apply ok_try;
    [ apply stable_rep | | intros e st2 _; apply failure_ok; apply bounded_later ].
  eapply ok_bind;
    [ apply stable_rep
    | apply (objectToAst_ok hlib lib Hlib); [ exact Hb1 | exact Hast ] | ].
  intros node node' st2 _ Hagree2 Hnode. advance Hb1 Hagree2 Hnode.
  pose proof (bounded_later (later D st st1) st1 st2) as Hb2.
  eapply ok_bind;
    [ apply stable_rep
    | apply (sim_buildSMILES hlib lib Hlib); [ exact Hb2 | exact Hnode ] | ].
  intros s s' st3 _ Hagree3 Hs. advance Hb2 Hagree3 Hs.
  apply ok_new_obj; [ apply bounded_later | ]. props_related.
Qed.

Lemma decompile_smiles_ok (t : val) :
  simulates (Heap.decompile_smiles hlib) (Skill.decompile_smiles lib) t.
Proof.
  intros D st h Hb Hrep. unfold Heap.decompile_smiles, Skill.decompile_smiles.
  eapply ok_bind; [ apply stable_rep | apply (destructure_sim "smiles" t); trivial | ].
  intros s s' st1 _ Hagree1 Hs. advance Hb Hagree1 Hs.
  pose proof (bounded_later D st st1) as Hb1.
  apply ok_try;
    [ apply stable_rep | | intros e st2 _; apply failure_ok; apply bounded_later ].
  eapply ok_bind;
    [ apply stable_rep | apply (sim_parse hlib lib Hlib); [ exact Hb1 | exact Hs ] | ].
  intros ast ast' st2 _ Hagree2 Hast. advance Hb1 Hagree2 Hast.
  pose proof (bounded_later (later D st st1) st1 st2) as Hb2.
  eapply ok_bind;
    [ apply stable_rep
    | apply (sim_decompile hlib lib Hlib); [ exact Hb2 | exact Hast ] | ].
  intros code code' st3 _ Hagree3 Hcode. advance Hb2 Hagree3 Hcode.
  apply ok_new_obj; [ apply bounded_later | ]. props_related.
Qed.

Lemma validate_roundtrip_ok (t : val) :
  simulates (Heap.validate_roundtrip hlib) (Skill.validate_roundtrip lib) t.
Proof.
  intros D st h Hb Hrep. unfold Heap.validate_roundtrip, Skill.validate_roundtrip.
  eapply ok_bind; [ apply stable_rep | apply (destructure_sim "smiles" t); trivial | ].
  intros s s' st1 _ Hagree1 Hs. advance Hb Hagree1 Hs.
  pose proof (bounded_later D st st1) as Hb1.
  apply ok_try;
    [ apply stable_rep | | intros e st2 _; apply failure_ok; apply bounded_later ].
  eapply ok_bind;
    [ apply stable_rep
    | apply (sim_isValidRoundTrip hlib lib Hlib); [ exact Hb1 | exact Hs ] | ].
  intros isValid isValid' st2 _ Hagree2 Hvalid. advance Hb1 Hagree2 Hvalid.
  pose proof (bounded_later (later D st st1) st1 st2) as Hb2.
  rewrite (rep_truthy _ _ _ _ Hvalid). destruct (JS.truthy isValid').
  { apply ok_new_obj; [ exact Hb2 | ]. props_related. }
  eapply ok_bind;
    [ apply stable_rep | apply (sim_parse hlib lib Hlib); [ exact Hb2 | exact Hs ] | ].
  intros ast ast' st3 _ Hagree3 Hast. advance Hb2 Hagree3 Hast.
  pose proof (bounded_later (later (later D st st1) st1 st2) st2 st3) as Hb3.
  eapply ok_bind;
    [ apply stable_rep
    | apply (sim_buildSMILES hlib lib Hlib); [ exact Hb3 | exact Hast ] | ].
  intros re re' st4 _ Hagree4 Hre. advance Hb3 Hagree4 Hre.
  pose proof (bounded_later (later (later (later D st st1) st1 st2) st2 st3) st3 st4) as Hb4.
  eapply ok_bind; [ apply stable_rep | apply ToString_ok; [ exact Hb4 | exact Hs ] | ].
  intros expected expected' st5 _ Hagree5 Hexpected. unfold same in Hexpected.
  subst expected'. advance Hb4 Hagree5 Hagree5.
  pose proof (bounded_later (later (later (later (later D st st1) st1 st2) st2 st3) st3 st4)
                st4 st5) as Hb5.
  eapply ok_bind; [ apply stable_rep | apply ToString_ok; [ exact Hb5 | exact Hre ] | ].
  intros got got' st6 _ Hagree6 Hgot. unfold same in Hgot. subst got'.
  advance Hb5 Hagree6 Hagree6.
  apply ok_new_obj; [ apply bounded_later | ]. props_related.
Qed.

End ToolSimulation.

(** *** Literals *)

Lemma stable_all_of {A B} (R : (nat -> Prop) -> store -> A -> B -> Prop) :
  stable R -> stable (all_of R).
Proof.
  intros HR D D' P st st' l r Hagree Hsub Hall.
  induction Hall; constructor; trivial. now apply (HR D D' P st st').
Qed.

Lemma stable_rep_prop : stable rep_prop.
Proof.
  intros D D' P st st' hp p Hagree Hsub [Hk Hv]. split; trivial.
  now apply (rep_stable D D' P st st').
Qed.

Lemma narrow_rep : narrow rep.
Proof. intros D st h t. apply rep_within. Qed.

Lemma narrow_rep_prop : narrow rep_prop.
Proof. intros D st hp p [Hk Hv]. split; trivial. now apply rep_within. Qed.

Lemma each_ok {A B} (R : (nat -> Prop) -> store -> B -> A -> Prop) (f : A -> M B)
  (l : list A) :
  stable R -> narrow R ->
  Forall (fun x => forall D st, bounded D st -> ok R D st (f x st) (Ok x)) l ->
  forall D st, bounded D st -> ok (all_of R) D st (each f l st) (Ok l).
Proof.
  intros HR Hnarrow Hall. induction Hall as [ | x l Hx _ IH ]; intros D st Hb.
  - apply ok_ret; [ now apply stable_all_of | constructor ].
  - simpl each.
    eapply ok_bind_value; [ now apply stable_all_of | now apply Hx | ].
    intros y st1 Hagree1 Hy. apply Hnarrow in Hy. fold (later D st st1) in Hy.
    pose proof (bounded_later D st st1) as Hb1.
    eapply ok_bind_value; [ now apply stable_all_of | now apply IH | ].
    intros ys st2 Hagree2 Hys.
    apply ok_ret; [ now apply stable_all_of | ]. constructor.
    + apply (HR (later D st st1) _ everywhere st1 st2); trivial.
      intros x0 Hx0 Hlen. split; [ | exact I ]. split; [ now left | ].
      destruct Hagree2. lia.
    + unfold all_of in Hys.
      clear - Hys Hnarrow. induction Hys; constructor; trivial. now apply Hnarrow.
Qed.

Lemma ok_new_node D st hps ps :
  bounded D st -> Forall2 (rep_prop D st) hps ps ->
  ok rep D st (new (CNode hps) st) (Ok (VNode ps)).
Proof.
  intros Hb Hall. unfold new, mbind, alloc, ret. simpl. split; [ apply agree_alloc | ].
  simpl. apply rep_node. exists (length st), hps. repeat split.
  - right. lia.
  - apply nth_error_alloc.
  - apply (rep_props_stable D _ everywhere st); [ apply agree_alloc | | exact Hall ].
    intros l HD _. split; [ now left | exact I ].
Qed.

Lemma literal_prop_ok (kv : string * val) :
  (forall D st, bounded D st -> ok rep D st (literal (snd kv) st) (Ok (snd kv))) ->
  forall D st, bounded D st ->
    ok rep_prop D st ((h <~ literal (snd kv) ;; ret (fst kv, h)) st) (Ok kv).
Proof.
  intros Hkv D st Hb.
  eapply ok_bind_value; [ apply stable_rep_prop | now apply Hkv | ].
  intros h st1 Hagree1 Hh.
  apply ok_ret; [ apply stable_rep_prop | ]. destruct kv as [k v]. split; trivial.
  now apply rep_grown_later.
Qed.

Lemma literal_ok (v : val) :
  forall D st, bounded D st -> ok rep D st (literal v st) (Ok v).
Proof.
  induction v as [ | | b | n | s | f | elems IH | props IH | props IH ]
    using val_deep_ind; intros D st Hb.
  - apply ok_ret; [ apply stable_rep | now apply rep_undef ].
  - apply ok_ret; [ apply stable_rep | now apply rep_null ].
  - apply ok_ret; [ apply stable_rep | now apply rep_bool ].
  - apply ok_ret; [ apply stable_rep | now apply rep_num ].
  - apply ok_ret; [ apply stable_rep | now apply rep_str ].
  - apply ok_ret; [ apply stable_rep | now apply rep_fun ].
  - simpl literal.
    eapply ok_bind_value;
      [ apply stable_rep
      | apply (each_ok rep literal elems stable_rep narrow_rep IH D st Hb) | ].
    intros hs st1 Hagree1 Hhs.
    apply ok_new_arr; [ apply bounded_later | ].
    unfold all_of in Hhs. clear - Hhs. induction Hhs; constructor; trivial.
    now apply rep_grown_later.
  - simpl literal.
    eapply ok_bind_value;
      [ apply stable_rep
      | apply (each_ok rep_prop _ props stable_rep_prop narrow_rep_prop); [ | exact Hb ] | ].
    { clear - IH. induction IH as [ | kv props Hkv _ IHprops ]; constructor; trivial.
      now apply literal_prop_ok. }
    intros hps st1 Hagree1 Hhps.
    apply ok_new_obj; [ apply bounded_later | ].
    unfold all_of in Hhps. clear - Hhps. induction Hhps; constructor; trivial.
    now apply narrow_rep_prop.
  - simpl literal.
    eapply ok_bind_value;
      [ apply stable_rep
      | apply (each_ok rep_prop _ props stable_rep_prop narrow_rep_prop); [ | exact Hb ] | ].
    { clear - IH. induction IH as [ | kv props Hkv _ IHprops ]; constructor; trivial.
      now apply literal_prop_ok. }
    intros hps st1 Hagree1 Hhps.
    apply ok_new_node; [ apply bounded_later | ].
    unfold all_of in Hhps. clear - Hhps. induction Hhps; constructor; trivial.
    now apply narrow_rep_prop.
Qed.

Section FragmentSimulation.
Variable hlib : Heap.Library.
Variable lib : SmilesJs.Library.
Hypothesis Hlib : faithful hlib lib.

Lemma read_smiles_ok (t : val) :
  simulates (Heap.read_smiles hlib) (Skill.read_smiles lib) t.
Proof.
  intros D st h Hb Hrep.
  assert (Hget : ok rep D st (Heap.get h "smiles" st) (Ok (JS.get t "smiles"))).
  { apply (ok_ret rep D st); [ apply stable_rep | now apply rep_get ]. }
  pose proof (sim_smiles hlib lib Hlib t D st h Hb Hrep) as Hsmiles.
  unfold Heap.read_smiles, Skill.read_smiles.
  destruct t; rep_inv Hrep; subst h; simpl cell_of; try rewrite Hcell; trivial.
Qed.

(** The object under construction and what is represented outside of it,
    after a step that changed no cell. *)
Lemma loop_state_kept (D : nat -> Prop) (result : nat) (st st1 : store)
  (acc_h : list (string * hval)) (acc_t : list (string * val)) :
  (forall l, D l -> l < result) ->
  result < length st ->
  agree everywhere st st1 ->
  nth_error st result = Some (CObj acc_h) ->
  Forall2 (rep_prop (after D result) st) acc_h acc_t ->
  agree (fun l => l <> result) st st1
  /\ result < length st1
  /\ nth_error st1 result = Some (CObj acc_h)
  /\ Forall2 (rep_prop (after D result) st1) acc_h acc_t.
Proof.
  intros HD Hresult Hagree Hcell Hacc. repeat split.
  - destruct Hagree. lia.
  - intros l Hl _. destruct Hagree as [_ Hsame]. apply Hsame; [ exact Hl | exact I ].
  - destruct Hagree. lia.
  - destruct Hagree as [_ Hsame]. rewrite Hsame; trivial. exact I.
  - apply (rep_props_stable (after D result) _ everywhere st st1); trivial.
    intros l Hl _. split; [ exact Hl | exact I ].
Qed.

Lemma add_fragment_run (result : nat) (name : string) (h : hval) (st : store) :
  Heap.add_fragment hlib result (name, h) st =
    if Heap.truthy h && String.eqb (Heap.typeof h) "object" then
      match Heap.read_smiles hlib h st with
      | (Ok probe, st1) =>
          if Heap.is_defined probe then
            match Heap.read_smiles hlib h st1 with
            | (Ok s, st2) =>
                (Ok tt,
                 update (st2 ++ [CObj [("smiles", s); ("type", get_in st2 h "type")]])
                   result (assigned name (HRef (length st2))))
            | (Throw _, st2) => (Ok tt, st2)
            end
          else (Ok tt, st1)
      | (Throw _, st1) => (Ok tt, st1)
      end
    else (Ok tt, st).
Proof.
  unfold Heap.add_fragment, mtry.
  destruct (Heap.truthy h && String.eqb (Heap.typeof h) "object"); [ | reflexivity ].
  unfold mbind at 1.
  destruct (Heap.read_smiles hlib h st) as [[probe | e] st1]; [ | reflexivity ].
  destruct (Heap.is_defined probe); [ | reflexivity ].
  unfold mbind at 1.
  destruct (Heap.read_smiles hlib h st1) as [[s | e] st2]; reflexivity.
Qed.

Lemma add_fragment_step (D : nat -> Prop) (result : nat) (st : store)
  (acc_h : list (string * hval)) (acc_t : list (string * val))
  (name : string) (h : hval) (t : val) :
  (forall l, D l -> l < result) ->
  result < length st ->
  rep D st h t ->
  nth_error st result = Some (CObj acc_h) ->
  Forall2 (rep_prop (after D result) st) acc_h acc_t ->
  fst (Heap.add_fragment hlib result (name, h) st) = Ok tt
  /\ agree (fun l => l <> result) st (snd (Heap.add_fragment hlib result (name, h) st))
  /\ result < length (snd (Heap.add_fragment hlib result (name, h) st))
  /\ exists acc_h',
       nth_error (snd (Heap.add_fragment hlib result (name, h) st)) result
         = Some (CObj acc_h')
       /\ Forall2 (rep_prop (after D result)
                     (snd (Heap.add_fragment hlib result (name, h) st)))
                  acc_h' (Skill.add_fragment lib acc_t (name, t)).
Proof.
  intros HD Hresult Hrep Hcell Hacc.
  assert (Hb : bounded D st) by (intros l Hl; specialize (HD l Hl); lia).
  assert (Hkept : forall st1, agree everywhere st st1 ->
            fst (Ok tt, st1) = Ok tt
            /\ agree (fun l => l <> result) st (snd (@Ok unit tt, st1))
            /\ result < length (snd (@Ok unit tt, st1))
            /\ exists acc_h',
                 nth_error (snd (@Ok unit tt, st1)) result = Some (CObj acc_h')
                 /\ Forall2 (rep_prop (after D result) (snd (@Ok unit tt, st1)))
                      acc_h' acc_t).
  { intros st1 Hagree.
    destruct (loop_state_kept D result st st1 acc_h acc_t HD Hresult Hagree Hcell Hacc)
      as (H1 & H2 & H3 & H4).
    simpl. split; [ reflexivity | ]. split; [ exact H1 | ]. split; [ exact H2 | ].
    exists acc_h. now split. }
  rewrite add_fragment_run. unfold Skill.add_fragment.
  rewrite (rep_truthy D st h t Hrep), (rep_typeof D st h t Hrep).
  destruct (JS.truthy t && (JS.typeof t =? "object")).
  2:{ apply (Hkept st). apply agree_refl. }
  destruct (read_smiles_ok t D st h Hb Hrep) as [Hagree1 Hres1].
  pose proof (rep_later D st _ h t Hb Hagree1 Hrep) as Hrep1.
  pose proof (bounded_later D st (snd (Heap.read_smiles hlib h st))) as Hb1.
  pose proof (read_smiles_ok t (later D st (snd (Heap.read_smiles hlib h st)))
                (snd (Heap.read_smiles hlib h st)) h Hb1 Hrep1) as [Hagree2 Hres2].
  revert Hagree1 Hres1 Hrep1 Hb1 Hagree2 Hres2.
  destruct (Heap.read_smiles hlib h st) as [[probe | e] st1],
           (Skill.read_smiles lib t) as [probe' | e'];
    cbv beta iota delta [bind fst snd];
    intros Hagree1 Hres1 Hrep1 Hb1 Hagree2 Hres2;
    try contradiction; [ | now apply Hkept ].
  rewrite (rep_is_defined _ _ probe probe' Hres1).
  destruct (JS.is_defined probe'); [ | now apply Hkept ].
  revert Hagree2 Hres2.
  destruct (Heap.read_smiles hlib h st1) as [[s | e] st2];
    cbv beta iota delta [bind fst snd]; intros Hagree2 Hres2; try contradiction.
  set (record := CObj [("smiles", s); ("type", get_in st2 h "type")]).
  assert (Hagree02 : agree everywhere st st2) by now apply (agree_trans _ st st1).
  assert (Hagree03 : agree everywhere st (st2 ++ [record])).
  { apply (agree_trans _ st st2); trivial. apply agree_alloc. }
  assert (Hrecord : rep (grown D st) (st2 ++ [record]) (HRef (length st2))
                      (VObj [("smiles", probe'); ("type", JS.get t "type")])).
  { apply rep_obj. exists (length st2), [("smiles", s); ("type", get_in st2 h "type")].
    repeat split.
    - right. destruct Hagree02. lia.
    - apply nth_error_alloc.
    - repeat (apply Forall2_cons; [ apply rep_prop_pair | ]); try apply Forall2_nil.
      + apply (rep_stable (grown (later D st st1) st1) _ everywhere st2
                 (st2 ++ [record]) s probe');
          [ apply agree_alloc | | exact Hres2 ].
        intros l Hl Hlen. split; [ | exact I ].
        destruct Hl as [[Hl _] | Hl]; [ exact Hl | right; destruct Hagree1; lia ].
      + pose proof (rep_later _ st1 st2 h t Hb1 Hagree2 Hrep1) as Hrep2.
        apply (rep_stable (later (later D st st1) st1 st2) _ everywhere st2
                 (st2 ++ [record]) _ _ (agree_alloc st2 record));
          [ | apply rep_get; exact Hrep2 ].
        intros l Hl Hlen. split; [ | exact I ]. unfold later, within, grown in Hl.
        unfold grown. destruct Hagree1 as [Hlen1 _].
        destruct Hl as [[[[HDl | Hl] _] | Hl] _]; [ now left | right; lia | right; lia ]. }
  destruct (assign_step D result st (st2 ++ [record]) acc_h acc_t name (HRef (length st2))
              _ HD Hresult Hagree03 Hcell Hacc Hrecord) as (H1 & H2 & H3 & H4).
  split; [ reflexivity | ]. split; [ exact H1 | ]. split; [ exact H2 | ].
  exists (set_prop acc_h name (HRef (length st2))). split; [ exact H3 | exact H4 ].
Qed.


Lemma for_each_cons {A} (body : A -> M unit) (x : A) (l : list A) (st : store) :
  for_each body (x :: l) st =
    match body x st with
    | (Ok _, st1) => for_each body l st1
    | (Throw e, st1) => (Throw e, st1)
    end.
Proof. reflexivity. Qed.

Lemma fragments_loop_ok (D : nat -> Prop) (result : nat) (ps : list (string * val)) :
  (forall l, D l -> l < result) ->
  forall hps st acc_h acc_t,
    result < length st ->
    Forall2 (rep_prop D st) hps ps ->
    nth_error st result = Some (CObj acc_h) ->
    Forall2 (rep_prop (after D result) st) acc_h acc_t ->
    agree (fun l => l <> result) st
      (snd (for_each (Heap.add_fragment hlib result) hps st))
    /\ match fst (for_each (Heap.add_fragment hlib result) hps st) with
       | Ok _ =>
           exists acc_h',
             nth_error (snd (for_each (Heap.add_fragment hlib result) hps st)) result
               = Some (CObj acc_h')
             /\ Forall2 (rep_prop (after D result)
                           (snd (for_each (Heap.add_fragment hlib result) hps st)))
                        acc_h' (fold_left (Skill.add_fragment lib) ps acc_t)
       | Throw _ => False
       end.
Proof.
  intros HD. induction ps as [ | [name t] ps IH ];
    intros hps st acc_h acc_t Hresult Hall Hcell Hacc.
  - apply Forall2_length in Hall as Hlen. destruct hps; [ | discriminate ].
    simpl. split; [ apply agree_refl | ]. now exists acc_h.
  - destruct hps as [ | [hname h] hps' ]; [ now apply Forall2_length in Hall | ].
    apply Forall2_cons_iff in Hall. destruct Hall as [[Hk Hh] Hall].
    simpl in Hk, Hh. subst hname.
    rewrite for_each_cons. simpl fold_left.
    destruct (add_fragment_step D result st acc_h acc_t name h t HD Hresult Hh Hcell Hacc)
      as (Hfst & Hagree1 & Hlen1 & acc1 & Hcell1 & Hacc1).
    revert Hfst Hagree1 Hlen1 Hcell1 Hacc1.
    destruct (Heap.add_fragment hlib result (name, h) st) as [[u | e] st1];
      simpl fst; simpl snd; intros Hfst Hagree1 Hlen1 Hcell1 Hacc1; [ | discriminate ].
    pose proof (rep_props_outside D result st st1 hps' ps HD Hagree1 Hall) as Hall1.
    destruct (IH hps' st1 _ _ Hlen1 Hall1 Hcell1 Hacc1) as [Hagree2 Hres2].
    split; [ now apply (agree_trans _ st st1) | exact Hres2 ].
Qed.

Lemma get_common_fragments_run (st : store) :
  Heap.get_common_fragments hlib st =
    (fragments <~ (result <~ alloc (CObj []) ;;
                   _ <~ for_each (Heap.add_fragment hlib result) (Heap.common hlib) ;;
                   ret (HRef result)) ;;
     groups <~ literal categories ;;
     new (CObj [("success", HBool true); ("fragments", fragments);
                ("categories", groups)])) st.
Proof.
  unfold Heap.get_common_fragments, mbind, alloc, ret.
  destruct (for_each (Heap.add_fragment hlib (length st)) (Heap.common hlib)
              (st ++ [CObj []])) as [[u | e] st1]; reflexivity.
Qed.

Lemma get_common_fragments_ok (D : nat -> Prop) (st : store) :
  bounded D st ->
  Forall2 (rep_prop D st) (Heap.common hlib) (SmilesJs.common lib) ->
  ok rep D st (Heap.get_common_fragments hlib st) (Skill.get_common_fragments lib).
Proof.
  intros Hb Htable. rewrite get_common_fragments_run.
  change (Skill.get_common_fragments lib)
    with (fragments <- (result <- Ok (fold_left (Skill.add_fragment lib)
                                        (SmilesJs.common lib) []) ;;
                        Ok (VObj result)) ;;
          Ok (VObj [("success", VBool true); ("fragments", fragments);
                    ("categories", categories)])).
  eapply ok_bind; [ apply stable_rep | apply new_object_ok; [ exact Hb | ] | ].
  { apply (fragments_loop_ok D (length st) (SmilesJs.common lib) Hb (Heap.common hlib)
             (st ++ [CObj []]) [] []).
    - rewrite length_app. simpl. lia.
    - apply (rep_props_stable D D everywhere st); trivial; [ apply agree_alloc | ].
      intros l Hl _. split; [ exact Hl | exact I ].
    - apply nth_error_alloc.
    - constructor. }
  intros fragments fragments' st1 _ Hagree1 Hfragments.
  apply rep_grown_later in Hfragments.
  pose proof (bounded_later D st st1) as Hb1.
  eapply ok_bind_value; [ apply stable_rep | apply literal_ok; exact Hb1 | ].
  intros groups st2 Hagree2 Hgroups.
  apply (rep_later _ st1 st2 _ _ Hb1 Hagree2) in Hfragments.
  apply rep_grown_later in Hgroups.
  apply ok_new_obj; [ apply bounded_later | ].
  repeat (apply Forall2_cons; [ apply rep_prop_pair | ]); try apply Forall2_nil; trivial.
  now apply rep_bool.
Qed.

End FragmentSimulation.

(** *** The library of trees on the store *)

Import HeapLibrary HeapClaims.

Lemma reify_elems (D : nat -> Prop) (st : store) (depth : nat) (elems : list val)
  (hs : list hval) :
  Forall (fun t => forall h depth, height t < depth -> rep D st h t ->
                                   reify_at depth st h = Some t) elems ->
  (forall e, In e elems -> height e < depth) ->
  Forall2 (rep D st) hs elems ->
  all_some (reify_at depth st) hs = Some elems.
Proof.
  intros IH Hheight Hall. induction Hall as [ | h t hs elems Hh _ IHall ]; trivial.
  apply Forall_cons_iff in IH. destruct IH as [IHt IH]. simpl.
  rewrite (IHt h depth); [ | apply Hheight; now left | exact Hh ].
  rewrite IHall; trivial. intros e He. apply Hheight. now right.
Qed.

Lemma reify_props (D : nat -> Prop) (st : store) (depth : nat)
  (props : list (string * val)) (hps : list (string * hval)) :
  Forall (fun p => forall h depth, height (snd p) < depth -> rep D st h (snd p) ->
                                   reify_at depth st h = Some (snd p)) props ->
  (forall k v, In (k, v) props -> height v < depth) ->
  Forall2 (rep_prop D st) hps props ->
  all_some (fun kv => option_map (pair (fst kv)) (reify_at depth st (snd kv))) hps
    = Some props.
Proof.
  intros IH Hheight Hall.
  induction Hall as [ | [hk h] [k t] hps props [Hk Hh] _ IHall ]; trivial.
  apply Forall_cons_iff in IH. destruct IH as [IHt IH]. simpl in Hk, Hh, IHt. subst hk.
  simpl.
  rewrite (IHt h depth); [ | apply (Hheight k); now left | exact Hh ].
  simpl. rewrite IHall; trivial. intros k' v Hin. apply (Hheight k'). now right.
Qed.

Lemma reify_at_rep (D : nat -> Prop) (st : store) (t : val) :
  forall h depth, height t < depth -> rep D st h t -> reify_at depth st h = Some t.
Proof.
  induction t as [ | | b | n | s | f | elems IH | props IH | props IH ]
    using val_deep_ind; intros h depth Hdepth Hrep;
    (destruct depth as [ | depth ]; [ lia | ]); rep_inv Hrep; subst h; trivial.
  - simpl. rewrite Hcell. rewrite (reify_elems D st depth elems hs); trivial.
    intros e He. apply height_elem in He. lia.
  - simpl. rewrite Hcell. rewrite (reify_props D st depth props hs); trivial.
    intros k v Hin. apply height_prop in Hin. lia.
  - simpl. rewrite Hcell. rewrite (reify_props D st depth props hs); trivial.
    intros k v Hin. apply height_prop in Hin. simpl in Hin, Hdepth. lia.
Qed.

Lemma reify_rep (D : nat -> Prop) (st : store) (h : hval) (t : val) :
  rep D st h t -> reify st h = Some t.
Proof.
  intros Hrep. apply (reify_at_rep D); trivial.
  pose proof (rep_height D st h t Hrep). lia.
Qed.

Lemma returned_ok (p : res val) D st : bounded D st -> ok rep D st (returned p st) p.
Proof.
  intros Hb. destruct p as [r | e]; [ now apply literal_ok | apply ok_throw ].
Qed.

Lemma lift_ok (f : val -> res val) (t : val) : simulates (lift f) f t.
Proof.
  intros D st h Hb Hrep. unfold lift. rewrite (reify_rep D st h t Hrep).
  now apply returned_ok.
Qed.

Lemma on_store_faithful (lib : SmilesJs.Library) (table : list (string * hval)) :
  faithful (on_store lib table) lib.
Proof.
  constructor; simpl; try (intros t; apply lift_ok).
  - intros D st h1 h2 h3 t1 t2 t3 Hb H1 H2 H3. unfold lift3.
    rewrite (reify_rep D st h1 t1 H1), (reify_rep D st h2 t2 H2),
      (reify_rep D st h3 t3 H3).
    now apply returned_ok.
  - intros f D st h t hs ts Hb Hrep Hall. unfold lift_call.
    rewrite (reify_rep D st h t Hrep).
    assert (Hargs : all_some (reify st) hs = Some ts).
    { clear - Hall. induction Hall as [ | a b hs ts Hab _ IH ]; trivial.
      simpl. now rewrite (reify_rep D st a b Hab), IH. }
    rewrite Hargs. now apply returned_ok.
  - intros D st h t Hb Hrep. unfold lift_string. rewrite (reify_rep D st h t Hrep).
    destruct (SmilesJs.objectToString lib t) as [s | e];
      [ apply ok_ret; [ apply stable_same | reflexivity ] | apply ok_throw ].
Qed.

(** *** The tools change no object and depend on the record only *)

Lemma represents_later (st st' : store) (h : hval) (t : val) :
  agree everywhere st st' -> represents st h t -> represents st' h t.
Proof.
  intros Hagree. apply (rep_stable everywhere everywhere everywhere st st'); trivial.
  intros l _ _. split; exact I.
Qed.

Lemma table_in_later (hlib : Heap.Library) (lib : SmilesJs.Library) (st st' : store) :
  agree everywhere st st' -> table_in hlib lib st -> table_in hlib lib st'.
Proof.
  intros Hagree. apply (rep_props_stable everywhere everywhere everywhere st st'); trivial.
  intros l _ _. split; exact I.
Qed.

Lemma ok_outcome (D : nat -> Prop) (st : store) (run : res hval * store) (p : res val) :
  ok rep D st run p -> agree everywhere st (snd run) /\ outcome (snd run) (fst run) p.
Proof.
  intros [Hagree Hres]. split; trivial. unfold outcome, rep_res.
  destruct (fst run), p; trivial.
  apply (rep_frame (grown D st) everywhere (snd run) (snd run)); trivial.
  intros l _. split; [ exact I | reflexivity ].
Qed.

Lemma tool_run (hlib : Heap.Library) (lib : SmilesJs.Library) (t : tool) (st : store)
  (input : hval) (tree : val) :
  faithful hlib lib -> table_in hlib lib st -> represents st input tree ->
  agree everywhere st (snd (Heap.tools hlib t input st))
  /\ outcome (snd (Heap.tools hlib t input st)) (fst (Heap.tools hlib t input st))
       (Skill.tools lib t tree).
Proof.
  intros Hlib Htable Hrep. apply (ok_outcome (within everywhere st)).
  pose proof (bounded_within everywhere st) as Hb.
  apply rep_within in Hrep.
  destruct t; simpl.
  - now apply parse_smiles_ok.
  - now apply build_smiles_ok.
  - now apply decompile_smiles_ok.
  - now apply validate_roundtrip_ok.
  - apply get_common_fragments_ok; trivial.
    clear - Htable. unfold table_in in Htable.
    induction Htable as [ | hp p hps ps [Hk Hv] _ IH ]; constructor; trivial.
    split; trivial. now apply rep_within.
Qed.

Lemma install_ok (lib : SmilesJs.Library) :
  table_in (loaded lib) lib (loaded_store lib).
Proof.
  unfold table_in, loaded, loaded_table, loaded_store. simpl Heap.common.
  assert (Hb : bounded (fun _ => False) []) by (intros l []).
  destruct (each_ok rep_prop (fun kv => h <~ literal (snd kv) ;; ret (fst kv, h))
              (SmilesJs.common lib) stable_rep_prop narrow_rep_prop) with
    (D := fun _ : nat => False) (st := @nil cell) as [_ Hres]; trivial.
  { apply Forall_forall. intros kv _. apply literal_prop_ok. apply literal_ok. }
  fold (install lib) in Hres. destruct (fst (install lib)) as [table | e]; [ | destruct Hres ].
  unfold all_of in Hres.
  apply (rep_prop_frame (grown (fun _ => False) []) everywhere (snd (install lib))
           (snd (install lib))); trivial.
  intros l _. split; [ exact I | reflexivity ].
Qed.

Lemma place_ok (tree : val) (st : store) :
  agree everywhere st (snd (place tree st))
  /\ represents (snd (place tree st)) (fst (place tree st)) tree.
Proof.
  destruct (literal_ok tree (within everywhere st) st (bounded_within everywhere st))
    as [Hagree Hres].
  unfold place. destruct (literal tree st) as [[h | e] st']; simpl in *;
    [ | destruct Hres ].
  split; trivial.
  apply (rep_frame (grown (within everywhere st) st) everywhere st' st'); trivial.
  intros l _. split; [ exact I | reflexivity ].
Qed.

(** C8: every tool is deterministic and free of side effects.  Two calls
    of the same tool, in any two stores, on input records that are
    structurally equal (both are the tree [tree]), return results that are
    structurally equal: both are the outcome of the tool on [tree], a
    record or the same exception.  Each call leaves every object that
    existed before it as it was, so that the input record is still the
    tree [tree] and the table of fragments is still in the store. *)
Theorem tools_deterministic_and_pure (hlib : Heap.Library) (lib : SmilesJs.Library)
  (t : tool) (st1 st2 : store) (input1 input2 : hval) (tree : val) :
  faithful hlib lib ->
  table_in hlib lib st1 -> table_in hlib lib st2 ->
  represents st1 input1 tree -> represents st2 input2 tree ->
  let run1 := Heap.tools hlib t input1 st1 in
  let run2 := Heap.tools hlib t input2 st2 in
  (exists result, outcome (snd run1) (fst run1) result
                  /\ outcome (snd run2) (fst run2) result
                  /\ result = Skill.tools lib t tree)
  /\ (forall l, l < length st1 -> nth_error (snd run1) l = nth_error st1 l)
  /\ (forall l, l < length st2 -> nth_error (snd run2) l = nth_error st2 l)
  /\ represents (snd run1) input1 tree /\ represents (snd run2) input2 tree
  /\ table_in hlib lib (snd run1) /\ table_in hlib lib (snd run2).
Proof.
  intros Hlib Htable1 Htable2 Hrep1 Hrep2 run1 run2.
  destruct (tool_run hlib lib t st1 input1 tree Hlib Htable1 Hrep1) as [Hagree1 Hout1].
  destruct (tool_run hlib lib t st2 input2 tree Hlib Htable2 Hrep2) as [Hagree2 Hout2].
  fold run1 in Hagree1, Hout1. fold run2 in Hagree2, Hout2.
  split; [ exists (Skill.tools lib t tree); now repeat split | ].
  split; [ intros l Hl; destruct Hagree1 as [_ Hsame]; apply Hsame; [ exact Hl | exact I ] | ].
  split; [ intros l Hl; destruct Hagree2 as [_ Hsame]; apply Hsame; [ exact Hl | exact I ] | ].
  split; [ now apply (represents_later st1) | ].
  split; [ now apply (represents_later st2) | ].
  split; [ now apply (table_in_later hlib lib st1) | now apply (table_in_later hlib lib st2) ].
Qed.

Lemma tools_deterministic_and_pure_witness :
  let lib := Engine.reference in
  let hlib := loaded lib in
  let one := place ethanol_input (loaded_store lib) in
  let other := place ethanol_input (snd one) in
  let run1 := Heap.tools hlib tool_build_smiles (fst one) (snd other) in
  let run2 := Heap.tools hlib tool_build_smiles (fst other) (snd run1) in
  ((fst one, fst other) = (HRef 65, HRef 69)
   /\ (fst run1, fst run2) = (Ok (HRef 75), Ok (HRef 81))
   /\ Skill.tools lib tool_build_smiles ethanol_input
       = Ok (VObj [("success", VBool true); ("smiles", VStr "CCO")]))
  /\ (exists result, outcome (snd run1) (fst run1) result
                     /\ outcome (snd run2) (fst run2) result
                     /\ result = Skill.tools lib tool_build_smiles ethanol_input)
  /\ (forall l, l < length (snd other) -> nth_error (snd run1) l = nth_error (snd other) l)
  /\ (forall l, l < length (snd run1) -> nth_error (snd run2) l = nth_error (snd run1) l)
  /\ represents (snd run1) (fst one) ethanol_input
  /\ represents (snd run2) (fst other) ethanol_input
  /\ table_in hlib lib (snd run1) /\ table_in hlib lib (snd run2).
Proof.
  intros lib hlib one other run1 run2.
  split; [ repeat split; vm_compute; reflexivity | ].
  pose proof (on_store_faithful lib (loaded_table lib)) as Hlib. fold (loaded lib) in Hlib.
  destruct (place_ok ethanol_input (loaded_store lib)) as [Hagree1 Hone].
  destruct (place_ok ethanol_input (snd one)) as [Hagree2 Hother].
  fold one in Hagree1, Hone. fold other in Hagree2, Hother.
  pose proof (table_in_later _ _ _ _ Hagree2
                (table_in_later _ _ _ _ Hagree1 (install_ok lib))) as Htable.
  pose proof (represents_later _ _ _ _ Hagree2 Hone) as Hone'.
  destruct (tool_run hlib lib tool_build_smiles (snd other) (fst one) ethanol_input
              Hlib Htable Hone') as [Hagree3 _].
  fold run1 in Hagree3.
  apply (tools_deterministic_and_pure hlib lib tool_build_smiles (snd other) (snd run1)
           (fst one) (fst other) ethanol_input); trivial.
  - now apply (table_in_later hlib lib (snd other)).
  - now apply (represents_later (snd other)).
Defined.

End HeapFacts.

(** ** More of the tool layer: arguments, records, fragments *)

Module ToolLaws.
Import JS SmilesJs Skill ToolSpec ToolProps ValueFacts ToolFacts.

(** *** The argument of a tool *)

(** X1: the parameter pattern of parse_smiles, build_smiles,
    decompile_smiles and validate_roundtrip is outside their try block: a
    call without an argument (or with [null]) throws a TypeError instead of
    returning [{success: false, error}].  get_common_fragments takes no
    argument and returns its success record. *)
Theorem tools_throw_without_argument (lib : Library) (t : tool) (input : val) :
  nullish input = true ->
  match t with
  | tool_get_common_fragments => exists r, tools lib t input = Ok r /\ structured r
  | _ => exists msg, tools lib t input = Throw (TypeError msg)
  end.
Proof.
  intros Hnull.
  destruct t; try (destruct input; try discriminate Hnull; eexists; reflexivity).
  simpl. eexists. split; [ reflexivity | apply structured_success ].
Qed.

Lemma tools_throw_without_argument_witness :
  (exists msg, tools Engine.reference tool_parse_smiles VUndef = Throw (TypeError msg))
  /\ (exists msg, tools Engine.reference tool_build_smiles VNull = Throw (TypeError msg)).
Proof.
  split.
  - exact (tools_throw_without_argument Engine.reference tool_parse_smiles VUndef eq_refl).
  - exact (tools_throw_without_argument Engine.reference tool_build_smiles VNull eq_refl).
Defined.

(** X2: a tool reads one property of its argument record, [smiles] or
    [ast]; whatever else the record holds has no effect on the result. *)
Theorem tools_read_one_argument (lib : Library) (t : tool) (input input' : val) :
  nullish input = false -> nullish input' = false ->
  (forall k, argument_of t = Some k -> get input' k = get input k) ->
  tools lib t input' = tools lib t input.
Proof.
  intros Hnull Hnull' Hsame.
  destruct t; simpl; trivial;
    unfold parse_smiles, build_smiles, decompile_smiles, validate_roundtrip;
    rewrite (destructure_record input _ Hnull), (destructure_record input' _ Hnull');
    now rewrite (Hsame _ eq_refl).
Qed.

Lemma tools_read_one_argument_witness :
  tools Engine.reference tool_parse_smiles
    (VObj [("smiles", VStr "CCO"); ("ast", VNum 1); ("strict", VBool true)])
  = tools Engine.reference tool_parse_smiles (smiles_input "CCO").
Proof.
  apply tools_read_one_argument; [ reflexivity | reflexivity | ].
  intros k [= <-]. reflexivity.
Defined.

(** *** decompile_smiles *)

Lemma get_failure_success (e : JsError) : get (failure_result e) "success" = VBool false.
Proof. reflexivity. Qed.

(** X3: decompile_smiles returns [{success: true, smiles, code}] exactly
    when the parser accepts the [smiles] of its argument and decompile
    returns [code] for the parsed node; the [smiles] field is the
    argument's, as given.  Any other result is [{success: false, error}]
    with the message of the parser or of decompile, whichever threw; for
    an input the parser rejects it is the very record parse_smiles
    returns. *)
Theorem decompile_smiles_result (lib : Library) (input r : val) :
  decompile_smiles lib input = Ok r ->
  (get r "success" = VBool true ->
     exists node code,
       parse lib (get input "smiles") = Ok node /\ decompile lib node = Ok code
       /\ r = decompiled_result (get input "smiles") code)
  /\ (get r "success" <> VBool true ->
      exists e,
        r = failure_result e
        /\ (parse lib (get input "smiles") = Throw e
            \/ exists node, parse lib (get input "smiles") = Ok node
                            /\ decompile lib node = Throw e))
  /\ (forall e, parse lib (get input "smiles") = Throw e ->
                r = failure_result e /\ parse_smiles lib input = Ok r).
Proof.
  intros Hr. unfold decompile_smiles in Hr.
  destruct (destructure input "smiles") as [text | ] eqn:Hd; simpl in Hr;
    [ | discriminate ].
  assert (Hnull : nullish input = false) by (destruct input; trivial; discriminate Hd).
  apply destructure_ok in Hd. subst text.
  destruct (parse lib (get input "smiles")) as [node | e] eqn:Hparse; simpl in Hr.
  - destruct (decompile lib node) as [code | e] eqn:Hcode; simpl in Hr;
      injection Hr as <-.
    + split; [ intros _; now exists node, code | ].
      split; [ intros H; now destruct H | intros e He; discriminate He ].
    + split; [ intros H; discriminate H | ].
      split; [ intros _; exists e; split; trivial; right; now exists node | ].
      intros e' He; discriminate He.
  - injection Hr as <-.
    split; [ intros H; discriminate H | ].
    split; [ intros _; exists e; split; trivial; now left | ].
    intros e' [= <-]. split; trivial.
    now apply parse_smiles_failure.
Qed.

Lemma decompile_smiles_result_witness :
  exists code,
    decompile_smiles Engine.reference (smiles_input "CCCC")
      = Ok (decompiled_result (VStr "CCCC") (VStr code))
    /\ includes "Linear" code = true
  /\ exists e,
       decompile_smiles Engine.reference (smiles_input "C1CC") = Ok (failure_result e)
       /\ parse_smiles Engine.reference (smiles_input "C1CC") = Ok (failure_result e).
Proof.
  eexists. split; [ vm_compute; reflexivity | ]. split; [ vm_compute; reflexivity | ].
  destruct (decompile_smiles_result Engine.reference (smiles_input "C1CC")
              (failure_result (Engine.UnclosedRing 1 1)) eq_refl) as (_ & _ & H).
  exists (Engine.UnclosedRing 1 1). split; [ reflexivity | ].
  exact (proj2 (H (Engine.UnclosedRing 1 1) eq_refl)).
Defined.

(** *** validate_roundtrip *)

(** X4: validate_roundtrip answers as the validator of the library does
    and compares nothing itself: its result has [valid: true] exactly when
    isValidRoundTrip returned a truthy value (the parser is then not
    called); a result with [valid: false] comes with the string that
    buildSMILES regenerated from the parsed input; and a failure record
    has no [valid] field. *)
Theorem validate_roundtrip_follows_validator (lib : Library) (input r : val) :
  validate_roundtrip lib input = Ok r ->
  (get r "valid" = VBool true <->
     exists v, isValidRoundTrip lib (get input "smiles") = Ok v /\ truthy v = true)
  /\ (get r "valid" = VBool false ->
      exists v ast regenerated,
        isValidRoundTrip lib (get input "smiles") = Ok v /\ truthy v = false
        /\ parse lib (get input "smiles") = Ok ast
        /\ buildSMILES lib ast = Ok regenerated
        /\ get r "regenerated" = regenerated)
  /\ (get r "success" = VBool false -> get r "valid" = VUndef).
Proof.
  intros Hr. unfold validate_roundtrip in Hr.
  destruct (destructure input "smiles") as [text | ] eqn:Hd; simpl in Hr;
    [ | discriminate ].
  apply destructure_ok in Hd. subst text.
  destruct (isValidRoundTrip lib (get input "smiles")) as [v | e] eqn:Hvalid;
    simpl in Hr.
  2:{ injection Hr as <-. split; [ split | split ]; try discriminate; trivial.
      intros (v & Hv & _). discriminate Hv. }
  destruct (truthy v) eqn:Htruthy.
  { injection Hr as <-. split; [ split | split ]; try discriminate; trivial.
    intros _. now exists v. }
  assert (Hnot : ~ exists v0, Ok v = Ok v0 /\ truthy v0 = true).
  { intros (v0 & [= <-] & Hv0). congruence. }
  destruct (parse lib (get input "smiles")) as [ast | e] eqn:Hparse; simpl in Hr.
  2:{ injection Hr as <-. split; [ split | split ]; try discriminate; trivial.
      intros H. now destruct Hnot. }
  destruct (buildSMILES lib ast) as [regenerated | e] eqn:Hbuild; simpl in Hr.
  2:{ injection Hr as <-. split; [ split | split ]; try discriminate; trivial.
      intros H. now destruct Hnot. }
  destruct (ToString lib (get input "smiles")) as [expected | e]; simpl in Hr.
  2:{ injection Hr as <-. split; [ split | split ]; try discriminate; trivial.
      intros H. now destruct Hnot. }
  destruct (ToString lib regenerated) as [got | e]; simpl in Hr.
  2:{ injection Hr as <-. split; [ split | split ]; try discriminate; trivial.
      intros H. now destruct Hnot. }
  injection Hr as <-. split; [ split | split ]; try discriminate.
  - intros H. now destruct Hnot.
  - intros _. now exists v, ast, regenerated.
Qed.

Lemma validate_roundtrip_follows_validator_witness :
  get (mismatch_result "C=1CCCCC1" "C1CCCCC=1") "valid" = VBool false
  /\ exists v ast,
       isValidRoundTrip Engine.reference (VStr "C=1CCCCC1") = Ok v /\ truthy v = false
       /\ parse Engine.reference (VStr "C=1CCCCC1") = Ok ast
       /\ buildSMILES Engine.reference ast = Ok (VStr "C1CCCCC=1").
Proof.
  split; [ reflexivity | ].
  destruct (validate_roundtrip_follows_validator Engine.reference
              (smiles_input "C=1CCCCC1") (mismatch_result "C=1CCCCC1" "C1CCCCC=1"))
    as (_ & H & _); [ vm_compute; reflexivity | ].
  destruct (H eq_refl) as (v & ast & regenerated & Hv & Ht & Hp & Hb & Hr).
  exists v, ast. simpl in Hr. subst regenerated. now repeat split.
Defined.

(** *** objectToAst *)

Lemma known_type_is_object (obj : val) :
  known_type (get obj "type") = true ->
  negb (truthy obj) || negb (String.eqb (typeof obj) "object") = false.
Proof. destruct obj; try discriminate; reflexivity. Qed.

(** X5: objectToAst does not validate the type tag.  A value whose
    [type] is not exactly 'ring', 'linear', 'fused_ring' or 'molecule' (a
    missing or misspelt type, a primitive, an array, a missing [ast]) is
    returned as it is, and build_smiles hands it to buildSMILES
    unchanged. *)
Theorem objectToAst_passes_unknown_records (lib : Library) (obj : val) :
  known_type (get obj "type") = false ->
  objectToAst lib obj = Ok obj
  /\ build_smiles lib (VObj [("ast", obj)])
      = try_catch (text <- buildSMILES lib obj ;;
                   Ok (VObj [("success", VBool true); ("smiles", text)]))
                  failure.
Proof.
  intros Hknown. unfold known_type in Hknown.
  apply orb_false_elim in Hknown. destruct Hknown as [Hknown Hmolecule].
  apply orb_false_elim in Hknown. destruct Hknown as [Hknown Hfused].
  apply orb_false_elim in Hknown. destruct Hknown as [Hring Hlinear].
  assert (Hobj : objectToAst lib obj = Ok obj).
  { rewrite objectToAst_statements. cbv zeta.
    rewrite Hring, Hlinear, Hfused, Hmolecule.
    now destruct (negb (truthy obj) || negb (typeof obj =? "object")). }
  split; trivial. unfold build_smiles. simpl. now rewrite Hobj.
Qed.

Lemma objectToAst_passes_unknown_records_witness :
  objectToAst Engine.reference (VObj [("type", VStr "Ring"); ("atoms", VStr "c")])
    = Ok (VObj [("type", VStr "Ring"); ("atoms", VStr "c")])
  /\ objectToAst Engine.reference VUndef = Ok VUndef.
Proof.
  split.
  - exact (proj1 (objectToAst_passes_unknown_records Engine.reference
                    (VObj [("type", VStr "Ring"); ("atoms", VStr "c")]) eq_refl)).
  - exact (proj1 (objectToAst_passes_unknown_records Engine.reference VUndef eq_refl)).
Defined.

(** X6: objectToAst reads the type tag of a record and the fields of
    that type only (for a linear record [atoms], [bonds] and
    [attachments]): two records that agree on them are reconstructed
    alike, and build_smiles returns the same result for both.  Fields that
    are misspelt or belong to another type are ignored. *)
Theorem objectToAst_reads_its_fields (lib : Library) (obj obj' : val) :
  known_type (get obj "type") = true ->
  get obj' "type" = get obj "type" ->
  (forall k, In k (fields_of (get obj "type")) -> get obj' k = get obj k) ->
  objectToAst lib obj' = objectToAst lib obj
  /\ build_smiles lib (VObj [("ast", obj')]) = build_smiles lib (VObj [("ast", obj)]).
Proof.
  intros Hknown Htype Hfields.
  assert (Hsame : objectToAst lib obj' = objectToAst lib obj).
  { pose proof (known_type_is_object obj Hknown) as Hobj.
    assert (Hknown' : known_type (get obj' "type") = true) by now rewrite Htype.
    pose proof (known_type_is_object obj' Hknown') as Hobj'.
    rewrite (objectToAst_statements lib obj), (objectToAst_statements lib obj').
    rewrite Hobj, Hobj'. cbv zeta. rewrite Htype.
    unfold fields_of, known_type in *.
    destruct (is_str (get obj "type") "ring").
    { unfold ring_options.
      rewrite !Hfields by (simpl; tauto). reflexivity. }
    destruct (is_str (get obj "type") "linear").
    { rewrite !Hfields by (simpl; tauto). reflexivity. }
    destruct (is_str (get obj "type") "fused_ring").
    { rewrite !Hfields by (simpl; tauto). reflexivity. }
    destruct (is_str (get obj "type") "molecule"); [ | discriminate Hknown ].
    rewrite !Hfields by (simpl; tauto). reflexivity. }
  split; trivial. unfold build_smiles. simpl. now rewrite Hsame.
Qed.

Lemma objectToAst_reads_its_fields_witness :
  build_smiles Engine.reference
    (VObj [("ast", VObj [("type", VStr "linear"); ("atoms", VArr [VStr "C"; VStr "O"]);
                         ("size", VNum 6); ("ringnumber", VNum 2)])])
  = build_smiles Engine.reference
      (VObj [("ast", VObj [("type", VStr "linear"); ("atoms", VArr [VStr "C"; VStr "O"])])]).
Proof.
  apply (objectToAst_reads_its_fields Engine.reference); [ reflexivity | reflexivity | ].
  intros k Hk. simpl in Hk.
  destruct Hk as [<- | [<- | [<- | []]]]; reflexivity.
Defined.

Lemma is_str_one (v : val) (a b : string) :
  is_str v a = true -> a <> b -> is_str v b = false.
Proof.
  destruct v; try discriminate. simpl. intros Ha Hab.
  apply String.eqb_eq in Ha. subst s. now apply String.eqb_neq.
Qed.

Lemma reconstructAttachments_falsy (lib : Library) (f : val -> res val) (attachments : val) :
  truthy attachments = false -> reconstructAttachments lib f attachments = Ok (VObj []).
Proof. intros H. unfold reconstructAttachments. now rewrite H. Qed.

(** X7: the fields a record may omit.  A ring record without
    substitutions, attachments and bonds is built from options in which
    they are [{}], [{}] and [[]]; a linear record without atoms, bonds and
    attachments is [Linear([], [], {})]; a fused ring without rings is
    [FusedRing([])]; a molecule without components is [Molecule([])].
    Without means falsy: an empty string or 0 counts. *)
Theorem objectToAst_missing_fields (lib : Library) (obj : val) :
  (is_str (get obj "type") "ring" = true ->
   truthy (get obj "substitutions") = false ->
   truthy (get obj "attachments") = false ->
   truthy (get obj "bonds") = false ->
   objectToAst lib obj =
     Ring lib (VObj [ ("atoms", get obj "atoms"); ("size", get obj "size");
                      ("ringNumber", or_else (get obj "ringNumber") (VNum 1));
                      ("offset", or_else (get obj "offset") (VNum 0));
                      ("substitutions", VObj []); ("attachments", VObj []);
                      ("bonds", VArr []) ]))
  /\ (is_str (get obj "type") "linear" = true ->
      truthy (get obj "atoms") = false ->
      truthy (get obj "bonds") = false ->
      truthy (get obj "attachments") = false ->
      objectToAst lib obj = Linear lib (VArr []) (VArr []) (VObj []))
  /\ (is_str (get obj "type") "fused_ring" = true ->
      truthy (get obj "rings") = false ->
      objectToAst lib obj = FusedRing lib (VArr []))
  /\ (is_str (get obj "type") "molecule" = true ->
      truthy (get obj "components") = false ->
      objectToAst lib obj = Molecule lib (VArr [])).
Proof.
  assert (Hobj : forall t, is_str (get obj "type") t = true ->
            negb (truthy obj) || negb (String.eqb (typeof obj) "object") = false).
  { intros t Ht. destruct obj; try discriminate Ht; reflexivity. }
  split; [ | split; [ | split ] ].
  - intros Htype Hsubs Hatt Hbonds.
    rewrite objectToAst_statements, (Hobj _ Htype). cbv zeta. rewrite Htype.
    rewrite reconstructAttachments_falsy by exact Hatt. simpl.
    unfold ring_options, or_else at 3 4. now rewrite Hsubs, Hbonds.
  - intros Htype Hatoms Hbonds Hatt.
    rewrite objectToAst_statements, (Hobj _ Htype). cbv zeta.
    rewrite (is_str_one _ "linear" "ring" Htype) by discriminate. rewrite Htype.
    rewrite reconstructAttachments_falsy by exact Hatt. simpl.
    unfold or_else. now rewrite Hatoms, Hbonds.
  - intros Htype Hrings.
    rewrite objectToAst_statements, (Hobj _ Htype). cbv zeta.
    rewrite (is_str_one _ "fused_ring" "ring" Htype) by discriminate.
    rewrite (is_str_one _ "fused_ring" "linear" Htype) by discriminate. rewrite Htype.
    unfold or_else. now rewrite Hrings.
  - intros Htype Hcomponents.
    rewrite objectToAst_statements, (Hobj _ Htype). cbv zeta.
    rewrite (is_str_one _ "molecule" "ring" Htype) by discriminate.
    rewrite (is_str_one _ "molecule" "linear" Htype) by discriminate.
    rewrite (is_str_one _ "molecule" "fused_ring" Htype) by discriminate. rewrite Htype.
    unfold or_else. now rewrite Hcomponents.
Qed.

Lemma objectToAst_missing_fields_witness :
  objectToAst Engine.reference (VObj [("type", VStr "linear"); ("atoms", VStr "")])
    = Ok (Engine.mkLinear (VArr []) (VArr []) (VObj []))
  /\ objectToAst Engine.reference (VObj [("type", VStr "molecule")])
     = Molecule Engine.reference (VArr []).
Proof.
  destruct (objectToAst_missing_fields Engine.reference
              (VObj [("type", VStr "linear"); ("atoms", VStr "")])) as (_ & Hlinear & _).
  destruct (objectToAst_missing_fields Engine.reference (VObj [("type", VStr "molecule")]))
    as (_ & _ & _ & Hmolecule).
  split.
  - rewrite Hlinear; reflexivity.
  - now apply Hmolecule.
Defined.

(** *** reconstructAttachments *)

Lemma method_map_unmappable (lib : Library) (cb : string) (f : val -> res val) (v : val) :
  mappable v = false -> exists e, method_map lib cb f v = Throw e.
Proof.
  destruct v; simpl; intros H; try discriminate H; try (eexists; reflexivity);
    destruct (lookup "map" props) as [[] | ]; try discriminate H; eexists; reflexivity.
Qed.

Lemma attach_loop_unmappable (lib : Library) (f : val -> res val)
  (entries : list (string * val)) (pos : string) (v : val) :
  In (pos, v) entries -> mappable v = false ->
  forall result, exists e, attach_loop lib f entries result = Throw e.
Proof.
  intros Hin Hv. induction entries as [ | [pos' v'] rest IH ]; [ destruct Hin | ].
  intros result. simpl.
  destruct Hin as [[= -> ->] | Hin].
  - destruct (method_map_unmappable lib "objectToAst" f v Hv) as [e He].
    rewrite He. now exists e.
  - destruct (method_map lib "objectToAst" f v') as [nodes | e]; simpl;
      [ now apply IH | now exists e ].
Qed.

Lemma entries_truthy (v : val) (kv : string * val) : In kv (Object_entries v) -> truthy v = true.
Proof. destruct v; simpl; trivial; try (intros []). destruct s; simpl; [ intros [] | trivial ]. Qed.

(** X8: attachments of a ring or linear record must map every position
    to something that has a [map] method.  When one position holds any
    other value (a string, a number, [null], an object without [map]),
    objectToAst throws, the constructor of the library is not reached, and
    build_smiles returns [{success: false, error}] with the message. *)
Theorem build_smiles_rejects_malformed_attachments (lib : Library) (obj : val)
  (pos : string) (v : val) :
  is_str (get obj "type") "ring" = true \/ is_str (get obj "type") "linear" = true ->
  In (pos, v) (Object_entries (get obj "attachments")) ->
  mappable v = false ->
  exists e,
    objectToAst lib obj = Throw e
    /\ build_smiles lib (VObj [("ast", obj)]) = Ok (failure_result e).
Proof.
  intros Htype Hin Hv.
  assert (Hatt : exists e, reconstructAttachments lib (objectToAst lib)
                             (get obj "attachments") = Throw e).
  { unfold reconstructAttachments. rewrite (entries_truthy _ _ Hin). simpl.
    destruct (attach_loop_unmappable lib (objectToAst lib) _ pos v Hin Hv []) as [e He].
    rewrite He. now exists e. }
  destruct Hatt as [e He]. exists e.
  assert (Hobj : objectToAst lib obj = Throw e).
  { rewrite objectToAst_statements. cbv zeta.
    assert (Hisobj : negb (truthy obj) || negb (String.eqb (typeof obj) "object") = false).
    { destruct Htype as [Ht | Ht]; destruct obj; try discriminate Ht; reflexivity. }
    rewrite Hisobj. destruct Htype as [Ht | Ht].
    - rewrite Ht, He. reflexivity.
    - rewrite (is_str_one _ "linear" "ring" Ht) by discriminate. rewrite Ht, He.
      reflexivity. }
  split; trivial. unfold build_smiles. simpl. now rewrite Hobj.
Qed.

Lemma build_smiles_rejects_malformed_attachments_witness :
  exists e,
    build_smiles Engine.reference
      (VObj [("ast", VObj [("type", VStr "ring"); ("atoms", VStr "c"); ("size", VNum 6);
                           ("attachments", VObj [("1", VStr "C")])])])
    = Ok (failure_result e).
Proof.
  destruct (build_smiles_rejects_malformed_attachments Engine.reference
              (VObj [("type", VStr "ring"); ("atoms", VStr "c"); ("size", VNum 6);
                     ("attachments", VObj [("1", VStr "C")])]) "1" (VStr "C"))
    as (e & _ & He); [ now left | now left | reflexivity | ].
  now exists e.
Defined.

Lemma mapM_length {A B} (f : A -> res B) (l : list A) (r : list B) :
  mapM f l = Ok r -> length r = length l.
Proof.
  revert r. induction l as [ | x l IH ]; simpl; intros r Hr; [ now injection Hr as <- | ].
  destruct (f x) as [y | ]; simpl in Hr; [ | discriminate ].
  destruct (mapM f l) as [ys | ]; simpl in Hr; [ | discriminate ].
  injection Hr as <-. simpl. now rewrite (IH ys).
Qed.

Lemma attach_loop_positions (lib : Library) (f : val -> res val)
  (entries : list (string * val)) :
  NoDup (map fst entries) ->
  forall result r,
    attach_loop lib f entries result = Ok r ->
    (forall pos list, In (pos, list) entries ->
       exists nodes, method_map lib "objectToAst" f list = Ok nodes
                     /\ lookup pos r = Some nodes)
    /\ (forall pos, ~ In pos (map fst entries) -> lookup pos r = lookup pos result).
Proof.
  induction entries as [ | [pos0 list0] rest IH ]; intros Hnodup result r Hr.
  - simpl in Hr. injection Hr as <-. split; [ intros pos list [] | trivial ].
  - simpl in Hr, Hnodup. apply NoDup_cons_iff in Hnodup. destruct Hnodup as [Hnotin Hnodup].
    destruct (method_map lib "objectToAst" f list0) as [nodes0 | ] eqn:Hmap; simpl in Hr;
      [ | discriminate ].
    destruct (IH Hnodup _ r Hr) as [Hin Hout]. split.
    + intros pos list [[= -> ->] | Hmem]; [ | now apply Hin ].
      exists nodes0. split; trivial.
      rewrite (Hout pos Hnotin), lookup_set_prop. now rewrite String.eqb_refl.
    + intros pos Hpos. simpl in Hpos.
      rewrite (Hout pos) by tauto. rewrite lookup_set_prop.
      destruct (String.eqb pos pos0) eqn:Heq; trivial.
      apply String.eqb_eq in Heq. subst pos0. tauto.
Qed.

Lemma lookup_In_iff (k : string) (props : list (string * val)) :
  lookup k props = None -> ~ In k (map fst props).
Proof.
  induction props as [ | [k' v'] rest IH ]; simpl; [ tauto | ].
  destruct (String.eqb k k') eqn:Heq; [ discriminate | ].
  apply String.eqb_neq in Heq. intros Hnone [Hk | Hin]; [ congruence | now apply IH ].
Qed.

(** X9: reconstructAttachments keeps the positions, when no position is
    named [__proto__].  In its result every position of the attachments
    that holds an array holds the array of the reconstructed records, of
    the same length, and a position the attachments do not have is no
    property of the result.  (The assignment [result[pos] = ...] for the
    position [__proto__] sets the prototype of the result instead of a
    property; nothing is stated for attachments with that key.) *)
Theorem reconstructAttachments_positions (lib : Library) (attachments r : val) :
  NoDup (map fst (Object_entries attachments)) ->
  ~ In "__proto__" (map fst (Object_entries attachments)) ->
  reconstructAttachments lib (objectToAst lib) attachments = Ok r ->
  (forall pos elems,
     lookup pos (Object_entries attachments) = Some (VArr elems) ->
     exists nodes,
       mapM (objectToAst lib) elems = Ok nodes
       /\ get r pos = VArr nodes /\ length nodes = length elems)
  /\ (forall pos, lookup pos (Object_entries attachments) = None -> get r pos = VUndef).
Proof.
  intros Hnodup _ Hr. unfold reconstructAttachments in Hr.
  destruct (truthy attachments) eqn:Htruthy; simpl in Hr.
  2:{ injection Hr as <-. split; [ | reflexivity ].
      intros pos elems Hl. apply lookup_In in Hl. apply entries_truthy in Hl. congruence. }
  destruct (attach_loop lib (objectToAst lib) (Object_entries attachments) [])
    as [result | ] eqn:Hloop; simpl in Hr; [ | discriminate ].
  injection Hr as <-.
  destruct (attach_loop_positions lib _ _ Hnodup [] result Hloop) as [Hin Hout]. split.
  - intros pos elems Hl. apply lookup_In in Hl.
    destruct (Hin pos (VArr elems) Hl) as (nodes & Hmap & Hpos). simpl in Hmap.
    destruct (mapM (objectToAst lib) elems) as [nodes' | ] eqn:Helems; simpl in Hmap;
      [ | discriminate ].
    injection Hmap as <-. exists nodes'. simpl. rewrite Hpos.
    repeat split. now apply (mapM_length (objectToAst lib)).
  - intros pos Hl. simpl. now rewrite (Hout pos (lookup_In_iff pos _ Hl)).
Qed.

Lemma reconstructAttachments_positions_witness :
  exists r nodes,
    reconstructAttachments Engine.reference (objectToAst Engine.reference)
      (VObj [("2", VArr [VObj [("type", VStr "linear"); ("atoms", VArr [VStr "O"])];
                         VObj [("type", VStr "linear"); ("atoms", VArr [VStr "N"])]])])
      = Ok r
    /\ get r "2" = VArr nodes /\ length nodes = 2 /\ get r "1" = VUndef.
Proof.
  eexists.
  destruct (reconstructAttachments_positions Engine.reference
              (VObj [("2", VArr [VObj [("type", VStr "linear"); ("atoms", VArr [VStr "O"])];
                                 VObj [("type", VStr "linear"); ("atoms", VArr [VStr "N"])]])])
              _ ltac:(repeat constructor; simpl; tauto)
              ltac:(simpl; intros [Hkey | []]; discriminate Hkey) eq_refl) as [Hin Hout].
  destruct (Hin "2" _ eq_refl) as (nodes & _ & Hget & Hlen).
  exists nodes. split; [ reflexivity | ]. split; [ exact Hget | ].
  split; [ exact Hlen | exact (Hout "1" eq_refl) ].
Defined.

(** *** Records inside records *)

(** X10: the [rings] of a fused ring and the [components] of a molecule
    must have a [map] method, when they are given.  For any other truthy
    value (a record instead of a list of records, a string) objectToAst
    throws and build_smiles returns [{success: false, error}]. *)
Theorem build_smiles_rejects_malformed_components (lib : Library) (obj list : val) :
  (is_str (get obj "type") "fused_ring" = true /\ list = get obj "rings")
  \/ (is_str (get obj "type") "molecule" = true /\ list = get obj "components") ->
  truthy list = true ->
  mappable list = false ->
  exists e,
    objectToAst lib obj = Throw e
    /\ build_smiles lib (VObj [("ast", obj)]) = Ok (failure_result e).
Proof.
  intros Htype Htruthy Hlist.
  destruct (method_map_unmappable lib "objectToAst" (objectToAst lib) list Hlist) as [e He].
  exists e.
  assert (Hobj : objectToAst lib obj = Throw e).
  { rewrite objectToAst_statements. cbv zeta.
    assert (Hisobj : negb (truthy obj) || negb (String.eqb (typeof obj) "object") = false).
    { destruct Htype as [[Ht _] | [Ht _]]; destruct obj; try discriminate Ht; reflexivity. }
    rewrite Hisobj. destruct Htype as [[Ht ->] | [Ht ->]].
    - rewrite (is_str_one _ "fused_ring" "ring" Ht) by discriminate.
      rewrite (is_str_one _ "fused_ring" "linear" Ht) by discriminate. rewrite Ht.
      unfold or_else. rewrite Htruthy, He. reflexivity.
    - rewrite (is_str_one _ "molecule" "ring" Ht) by discriminate.
      rewrite (is_str_one _ "molecule" "linear" Ht) by discriminate.
      rewrite (is_str_one _ "molecule" "fused_ring" Ht) by discriminate. rewrite Ht.
      unfold or_else. rewrite Htruthy, He. reflexivity. }
  split; trivial. unfold build_smiles. simpl. now rewrite Hobj.
Qed.

Lemma build_smiles_rejects_malformed_components_witness :
  exists e,
    build_smiles Engine.reference
      (VObj [("ast", VObj [("type", VStr "molecule");
                           ("components", VObj [("type", VStr "linear")])])])
    = Ok (failure_result e).
Proof.
  destruct (build_smiles_rejects_malformed_components Engine.reference
              (VObj [("type", VStr "molecule");
                     ("components", VObj [("type", VStr "linear")])])
              (VObj [("type", VStr "linear")]))
    as (e & _ & He); [ right; now split | reflexivity | reflexivity | ].
  now exists e.
Defined.

Lemma mapM_first_failure {A B} (f : A -> res B) (before after : list A) (x : A)
  (done : list B) (e : JsError) :
  mapM f before = Ok done -> f x = Throw e -> mapM f (before ++ x :: after) = Throw e.
Proof.
  revert done. induction before as [ | y before IH ]; simpl; intros done Hdone Hx.
  - now rewrite Hx.
  - destruct (f y) as [y' | ]; simpl in *; [ | discriminate ].
    destruct (mapM f before) as [ys | ]; simpl in *; [ | discriminate ].
    now rewrite (IH ys).
Qed.

(** X11: the records inside a fused ring or a molecule are reconstructed
    in order, and the first one that cannot be reconstructed decides: when
    the records before it are reconstructed and it throws, objectToAst of
    the whole record throws the same error, whatever follows, and
    build_smiles returns its message. *)
Theorem objectToAst_reports_first_failing_component (lib : Library) (obj : val)
  (before after : list val) (component : val) (nodes : list val) (e : JsError) :
  (is_str (get obj "type") "fused_ring" = true
   /\ get obj "rings" = VArr (before ++ component :: after))
  \/ (is_str (get obj "type") "molecule" = true
      /\ get obj "components" = VArr (before ++ component :: after)) ->
  mapM (objectToAst lib) before = Ok nodes ->
  objectToAst lib component = Throw e ->
  objectToAst lib obj = Throw e
  /\ build_smiles lib (VObj [("ast", obj)]) = Ok (failure_result e).
Proof.
  intros Htype Hbefore Hcomponent.
  assert (Hobj : objectToAst lib obj = Throw e).
  { rewrite objectToAst_statements. cbv zeta.
    assert (Hisobj : negb (truthy obj) || negb (String.eqb (typeof obj) "object") = false).
    { destruct Htype as [[Ht _] | [Ht _]]; destruct obj; try discriminate Ht; reflexivity. }
    rewrite Hisobj. destruct Htype as [[Ht Hlist] | [Ht Hlist]].
    - rewrite (is_str_one _ "fused_ring" "ring" Ht) by discriminate.
      rewrite (is_str_one _ "fused_ring" "linear" Ht) by discriminate. rewrite Ht, Hlist.
      simpl. now rewrite (mapM_first_failure _ before after component nodes e).
    - rewrite (is_str_one _ "molecule" "ring" Ht) by discriminate.
      rewrite (is_str_one _ "molecule" "linear" Ht) by discriminate.
      rewrite (is_str_one _ "molecule" "fused_ring" Ht) by discriminate. rewrite Ht, Hlist.
      simpl. now rewrite (mapM_first_failure _ before after component nodes e). }
  split; trivial. unfold build_smiles. simpl. now rewrite Hobj.
Qed.

Lemma objectToAst_reports_first_failing_component_witness :
  exists e,
    build_smiles Engine.reference
      (VObj [("ast",
              VObj [("type", VStr "molecule");
                    ("components",
                     VArr [VObj [("type", VStr "linear"); ("atoms", VArr [VStr "C"])];
                           VObj [("type", VStr "ring"); ("attachments", VStr "x")];
                           VNum 7])])])
    = Ok (failure_result e).
Proof.
  exists (TypeError "map is not a function").
  apply (objectToAst_reports_first_failing_component Engine.reference
           (VObj [("type", VStr "molecule");
                  ("components",
                   VArr [VObj [("type", VStr "linear"); ("atoms", VArr [VStr "C"])];
                         VObj [("type", VStr "ring"); ("attachments", VStr "x")];
                         VNum 7])])
           [VObj [("type", VStr "linear"); ("atoms", VArr [VStr "C"])]] [VNum 7]
           (VObj [("type", VStr "ring"); ("attachments", VStr "x")])
           [Engine.mkLinear (VArr [VStr "C"]) (VArr []) (VObj [])]
           (TypeError "map is not a function")).
  - right. now split.
  - reflexivity.
  - reflexivity.
Defined.

(** *** astToObject *)

Lemma copy_loop_inert (props : list (string * val)) :
  Forall (fun kv => inert (snd kv) = true ->
                    exists r, forall lib, astToObject lib (snd kv) = Ok r) props ->
  forallb (inert_entry inert) props = true ->
  forall result, exists r, forall lib, copy_loop (astToObject lib) props result = Ok r.
Proof.
  intros IH. induction IH as [ | [key value] props Hkv _ IHprops ]; intros Hall result.
  - now exists result.
  - simpl in Hall. apply andb_prop in Hall. destruct Hall as [Hentry Hall].
    unfold inert_entry in Hentry. simpl in Hentry, Hkv. simpl.
    destruct (startsWith_underscore key); [ now apply IHprops | ].
    destruct (typeof value =? "function"); [ now apply IHprops | ].
    simpl in Hentry. destruct (Hkv Hentry) as [v Hv].
    destruct (IHprops Hall (set_prop result key v)) as [r Hr].
    exists r. intros lib. rewrite Hv. simpl. apply Hr.
Qed.

Lemma mapM_inert (elems : list val) :
  Forall (fun e => inert e = true -> exists r, forall lib, astToObject lib e = Ok r) elems ->
  forallb inert elems = true ->
  exists r, forall lib, mapM (astToObject lib) elems = Ok r.
Proof.
  intros IH. induction IH as [ | e elems He _ IHelems ]; intros Hall.
  - now exists [].
  - simpl in Hall. apply andb_prop in Hall. destruct Hall as [Hinert Hall].
    destruct (He Hinert) as [v Hv]. destruct (IHelems Hall) as [vs Hvs].
    exists (v :: vs). intros lib. simpl. rewrite Hv. simpl. now rewrite Hvs.
Qed.

(** X12: astToObject throws nothing of its own and consults the library
    only through [toObject].  On a value that holds no library node and no
    object with a truthy [toObject] (looking past the properties the loop
    skips), it returns a result, the same for every library. *)
Theorem astToObject_converts_inert_data (node : val) :
  inert node = true ->
  exists r, forall lib, astToObject lib node = Ok r.
Proof.
  induction node as [ | | b | n | s | f | elems IH | props IH | props IH ]
    using val_deep_ind; intros Hinert; try (eexists; intros lib; reflexivity).
  - destruct (mapM_inert elems IH Hinert) as [r Hr].
    exists (VArr r). intros lib. simpl. now rewrite Hr.
  - simpl in Hinert. apply andb_prop in Hinert. destruct Hinert as [Hto Hall].
    apply negb_true_iff in Hto.
    destruct (copy_loop_inert props IH Hall []) as [r Hr].
    exists (VObj r). intros lib. simpl. rewrite Hto. now rewrite Hr.
  - discriminate Hinert.
Qed.

Lemma astToObject_converts_inert_data_witness :
  exists r,
    forall lib,
      astToObject lib (VObj [("type", VStr "linear"); ("_cache", VFun "memo");
                             ("atoms", VArr [VStr "C"; VStr "O"]);
                             ("clone", VFun "clone")]) = Ok r.
Proof.
  apply astToObject_converts_inert_data. reflexivity.
Defined.

Lemma copy_loop_tidy (lib : Library) (props : list (string * val)) :
  Forall (fun kv => tidy (snd kv) -> astToObject lib (snd kv) = Ok (snd kv)) props ->
  (fix all (l : list (string * val)) : Prop :=
     match l with
     | [] => True
     | kv :: l' => (startsWith_underscore (fst kv) = false /\ tidy (snd kv)) /\ all l'
     end) props ->
  forall result, copy_loop (astToObject lib) props result = Ok (assign_all props result).
Proof.
  intros IH. induction IH as [ | [key value] props Hkv _ IHprops ]; intros Hall result;
    trivial.
  destruct Hall as [[Hkey Htidy] Hall]. simpl in Hkey, Htidy, Hkv. simpl.
  rewrite Hkey.
  assert (Hfun : String.eqb (typeof value) "function" = false)
    by (destruct value; trivial; destruct Htidy).
  rewrite Hfun, (Hkv Htidy). simpl. now apply IHprops.
Qed.

Lemma mapM_tidy (lib : Library) (elems : list val) :
  Forall (fun e => tidy e -> astToObject lib e = Ok e) elems ->
  (fix all (l : list val) : Prop :=
     match l with
     | [] => True
     | x :: l' => tidy x /\ all l'
     end) elems ->
  mapM (astToObject lib) elems = Ok elems.
Proof.
  intros IH. induction IH as [ | e elems He _ IHelems ]; intros Hall; trivial.
  destruct Hall as [Htidy Hall]. simpl. now rewrite (He Htidy), (IHelems Hall).
Qed.

(** X13: astToObject changes nothing in data that is already plain: a
    value without functions, library nodes, underscore keys or a truthy
    [toObject], whose objects hold their properties in property order, is
    returned as it is (as a copy). *)
Theorem astToObject_keeps_tidy_data (lib : Library) (node : val) :
  tidy node -> astToObject lib node = Ok node.
Proof.
  induction node as [ | | b | n | s | f | elems IH | props IH | props IH ]
    using val_deep_ind; intros Htidy; trivial; try (now destruct Htidy).
  - simpl. now rewrite (mapM_tidy lib elems IH Htidy).
  - destruct Htidy as (Hto & Horder & Hall). simpl. rewrite Hto.
    rewrite (copy_loop_tidy lib props IH Hall []). simpl. now rewrite Horder.
Qed.

Lemma astToObject_keeps_tidy_data_witness :
  astToObject Engine.reference
    (VObj [("2", VArr [VObj [("type", VStr "linear"); ("atoms", VArr [VStr "O"])]]);
           ("10", VArr []); ("type", VStr "ring"); ("bonds", VArr [VNull; VStr "="])])
  = Ok (VObj [("2", VArr [VObj [("type", VStr "linear"); ("atoms", VArr [VStr "O"])]]);
              ("10", VArr []); ("type", VStr "ring"); ("bonds", VArr [VNull; VStr "="])]).
Proof.
  apply astToObject_keeps_tidy_data. simpl. unfold in_property_order.
  repeat split; reflexivity.
Defined.

Lemma copy_loop_properties (f : val -> res val) (entries : list (string * val)) :
  NoDup (map fst entries) ->
  forall result r,
    copy_loop f entries result = Ok r ->
    (forall k v, In (k, v) entries ->
       if startsWith_underscore k || String.eqb (typeof v) "function"
       then lookup k r = lookup k result
       else exists v', f v = Ok v' /\ lookup k r = Some v')
    /\ (forall k, ~ In k (map fst entries) -> lookup k r = lookup k result).
Proof.
  induction entries as [ | [key value] rest IH ]; intros Hnodup result r Hr.
  - simpl in Hr. injection Hr as <-. split; [ intros k v [] | trivial ].
  - simpl in Hnodup. apply NoDup_cons_iff in Hnodup. destruct Hnodup as [Hnotin Hnodup].
    simpl in Hr.
    destruct (startsWith_underscore key || (typeof value =? "function")) eqn:Hskip.
    + assert (Hrest : copy_loop f rest result = Ok r).
      { destruct (startsWith_underscore key); trivial.
        simpl in Hskip. now rewrite Hskip in Hr. }
      destruct (IH Hnodup result r Hrest) as [Hin Hout]. split.
      * intros k v [[= -> ->] | Hmem]; [ | now apply Hin ].
        rewrite Hskip. now apply Hout.
      * intros k Hk. simpl in Hk. apply Hout. tauto.
    + apply orb_false_elim in Hskip. destruct Hskip as [Hkey Hfun].
      rewrite Hkey, Hfun in Hr.
      destruct (f value) as [v' | ] eqn:Hv; simpl in Hr; [ | discriminate ].
      destruct (IH Hnodup _ r Hr) as [Hin Hout]. split.
      * intros k v [[= -> ->] | Hmem].
        -- rewrite Hkey, Hfun. simpl. exists v'. split; trivial.
           rewrite (Hout k Hnotin), lookup_set_prop. now rewrite String.eqb_refl.
        -- specialize (Hin k v Hmem).
           destruct (startsWith_underscore k || (typeof v =? "function")); trivial.
           rewrite Hin, lookup_set_prop. destruct (String.eqb k key) eqn:Heq; trivial.
           apply String.eqb_eq in Heq. subst key. destruct Hnotin.
           apply in_map_iff. now exists (k, v).
      * intros k Hk. simpl in Hk. rewrite (Hout k) by tauto.
        rewrite lookup_set_prop. destruct (String.eqb k key) eqn:Heq; trivial.
        apply String.eqb_eq in Heq. subst key. tauto.
Qed.

(** X14: astToObject loses no public data.  For an object without
    [toObject], every property whose key does not begin with an underscore
    and whose value is no function is in the result, under the same key,
    with the converted value; the other keys of the object, and keys it
    does not have, are [undefined] in the result. *)
Theorem astToObject_keeps_public_properties (lib : Library) (props : list (string * val))
  (r : val) :
  has_toObject (VObj props) = false ->
  NoDup (map fst props) ->
  astToObject lib (VObj props) = Ok r ->
  forall k,
    match lookup k props with
    | Some v =>
        if startsWith_underscore k || String.eqb (typeof v) "function" then get r k = VUndef
        else exists v', astToObject lib v = Ok v' /\ get r k = v'
    | None => get r k = VUndef
    end.
Proof.
  intros Hto Hnodup Hr k. simpl in Hr. simpl in Hto. rewrite Hto in Hr.
  destruct (copy_loop (astToObject lib) props []) as [result | ] eqn:Hloop; simpl in Hr;
    [ | discriminate ].
  injection Hr as <-.
  destruct (copy_loop_properties (astToObject lib) props Hnodup [] result Hloop)
    as [Hin Hout].
  destruct (lookup k props) as [v | ] eqn:Hl.
  - apply lookup_In in Hl. specialize (Hin k v Hl).
    destruct (startsWith_underscore k || (typeof v =? "function")).
    + simpl. now rewrite Hin.
    + destruct Hin as (v' & Hv & Hk). exists v'. split; trivial. simpl. now rewrite Hk.
  - simpl. now rewrite (Hout k (lookup_In_iff k props Hl)).
Qed.

Lemma astToObject_keeps_public_properties_witness :
  exists r,
    astToObject Engine.reference
      (VObj [("type", VStr "linear"); ("_cache", VNum 1);
             ("atoms", VArr [VStr "C"]); ("clone", VFun "clone")]) = Ok r
    /\ get r "type" = VStr "linear" /\ get r "atoms" = VArr [VStr "C"]
    /\ get r "_cache" = VUndef /\ get r "clone" = VUndef /\ get r "bonds" = VUndef.
Proof.
  eexists. split; [ reflexivity | ].
  pose proof (astToObject_keeps_public_properties Engine.reference
                [("type", VStr "linear"); ("_cache", VNum 1);
                 ("atoms", VArr [VStr "C"]); ("clone", VFun "clone")] _
                eq_refl ltac:(repeat constructor; simpl; intuition discriminate) eq_refl)
    as H.
  split; [ destruct (H "type") as (v & [= <-] & Hk); exact Hk | ].
  split; [ destruct (H "atoms") as (v & [= <-] & Hk); exact Hk | ].
  split; [ exact (H "_cache") | ]. split; [ exact (H "clone") | exact (H "bonds") ].
Defined.

(** *** get_common_fragments *)

Lemma add_fragment_skipped (lib : Library) (fragments : list (string * val))
  (name : string) (fragment : val) :
  skipped lib fragment -> add_fragment lib fragments (name, fragment) = fragments.
Proof.
  unfold skipped, add_fragment. intros [Hobj | [[e He] | Hundef]].
  - now rewrite Hobj.
  - rewrite He. now destruct (truthy fragment && (typeof fragment =? "object")).
  - rewrite Hundef. now destruct (truthy fragment && (typeof fragment =? "object")).
Qed.

(** X15: what get_common_fragments lists.  A fragment of the table that
    is an object whose [smiles] can be read and is defined is listed under
    its name as [{smiles, type}].  A fragment that is no object, whose
    [smiles] throws when read, or whose [smiles] is [undefined] is left
    out, and the fragments after it are still listed.  Names that are not
    in the table are not in the map. *)
Theorem get_common_fragments_lists (lib : Library) :
  NoDup (map fst (common lib)) ->
  exists fragments,
    get_common_fragments lib
      = Ok (VObj [ ("success", VBool true); ("fragments", VObj fragments);
                   ("categories", categories) ])
    /\ (forall name fragment s,
          In (name, fragment) (common lib) -> listed lib fragment s ->
          get (VObj fragments) name = VObj [("smiles", s); ("type", get fragment "type")])
    /\ (forall name fragment,
          In (name, fragment) (common lib) -> skipped lib fragment ->
          get (VObj fragments) name = VUndef)
    /\ (forall name, ~ In name (map fst (common lib)) -> get (VObj fragments) name = VUndef).
Proof.
  intros Hnodup. exists (fold_left (add_fragment lib) (common lib) []).
  split; [ reflexivity | ]. split; [ | split ].
  - intros name fragment s Hin (Hobj & Hread & Hdef). simpl.
    now rewrite (fragment_of_table lib name fragment s Hnodup Hin Hobj Hread Hdef).
  - intros name fragment Hin Hskip. cbn [get].
    destruct (in_split _ _ Hin) as (before & after & Hsplit).
    rewrite Hsplit in *. rewrite fold_left_app. cbn [fold_left].
    rewrite map_app in Hnodup. simpl in Hnodup.
    pose proof (NoDup_remove_2 _ _ _ Hnodup) as Hnotin.
    rewrite fold_add_fragment_other
      by (intros Hafter; apply Hnotin; apply in_or_app; now right).
    rewrite add_fragment_skipped by exact Hskip.
    rewrite fold_add_fragment_other
      by (intros Hbefore; apply Hnotin; apply in_or_app; now left).
    reflexivity.
  - intros name Hnotin. simpl. now rewrite fold_add_fragment_other.
Qed.

Lemma get_common_fragments_lists_witness :
  exists fragments,
    get_common_fragments Engine.reference
      = Ok (VObj [ ("success", VBool true); ("fragments", VObj fragments);
                   ("categories", categories) ])
    /\ get (VObj fragments) "cyclohexane"
       = VObj [("smiles", VStr "C1CCCCC1"); ("type", VStr "ring")]
    /\ get (VObj fragments) "toluene" = VUndef.
Proof.
  destruct (get_common_fragments_lists Engine.reference)
    as (fragments & Hresult & Hlisted & _ & Habsent);
    [ repeat constructor; simpl; intuition discriminate | ].
  exists fragments. split; [ exact Hresult | ]. split.
  - apply (Hlisted "cyclohexane" (Engine.cycle "C" 6) (VStr "C1CCCCC1")).
    + simpl. tauto.
    + repeat split; reflexivity.
  - apply Habsent. simpl. intuition discriminate.
Defined.

End ToolLaws.

(** ** New objects on the store *)

Module HeapLaws.
Import JS Skill Heap HeapSpec ValueFacts HeapFacts.
Import ToolSpec ToolProps HeapLibrary HeapClaims HeapProps.

Lemma bounded_nowhere (st : store) : bounded nowhere st.
Proof. intros l []. Qed.

Lemma fill_new (f : hval -> M hval) (f' : val -> res val) (D : nat -> Prop) (target : nat)
  (ts : list val) :
  Forall (builds f f') ts ->
  (forall l, D l -> l < target) ->
  forall hs st acc_h acc_t,
    target < length st ->
    Forall2 (rep D st) hs ts ->
    nth_error st target = Some (CArr acc_h) ->
    Forall2 (rep (after nowhere target) st) acc_h acc_t ->
    agree (fun l => l <> target) st (snd (fill f target hs st))
    /\ match fst (fill f target hs st), mapM f' ts with
       | Ok _, Ok ts' =>
           exists acc_h',
             nth_error (snd (fill f target hs st)) target = Some (CArr acc_h')
             /\ Forall2 (rep (after nowhere target) (snd (fill f target hs st)))
                        acc_h' (acc_t ++ ts')
       | Throw e, Throw e' => e = e'
       | _, _ => False
       end.
Proof.
  intros Hsim HD. induction Hsim as [ | t ts Ht _ IH ];
    intros hs st acc_h acc_t Htarget Hall Hcell Hacc.
  - apply Forall2_length in Hall as Hlen. destruct hs; [ | discriminate ].
    simpl. split; [ apply agree_refl | ]. exists acc_h. now rewrite app_nil_r.
  - destruct hs as [ | h hs' ]; [ now apply Forall2_length in Hall | ].
    apply Forall2_cons_iff in Hall. destruct Hall as [Hh Hall].
    assert (Hb : bounded D st) by (intros l Hl; specialize (HD l Hl); lia).
    destruct (Ht D st h Hb Hh) as [Hagree Hres].
    rewrite fill_cons. simpl mapM.
    destruct (f h st) as [[v | e] st1], (f' t) as [v' | e']; simpl in *;
      try contradiction.
    + set (st2 := update st1 target (pushed v)).
      assert (Hagree2 : agree (fun l => l <> target) st st2).
      { apply (agree_trans _ st st1).
        - now apply (agree_weaken everywhere).
        - apply agree_update. }
      assert (Hcell1 : nth_error st1 target = Some (CArr acc_h)).
      { destruct Hagree as [_ Hsame]. rewrite Hsame; trivial. exact I. }
      assert (Hcell2 : nth_error st2 target = Some (CArr (acc_h ++ [v]))).
      { unfold st2. rewrite nth_error_update_same, Hcell1. reflexivity. }
      assert (Hlen2 : target < length st2).
      { unfold st2. rewrite length_update. destruct Hagree. lia. }
      assert (Hall2 : Forall2 (rep D st2) hs' ts).
      { apply (rep_elems_stable D D (fun l => l <> target) st st2); trivial.
        intros l Hl _. split; trivial. specialize (HD l Hl). lia. }
      assert (Hacc2 : Forall2 (rep (after nowhere target) st2) (acc_h ++ [v])
                        (acc_t ++ [v'])).
      { apply Forall2_app.
        - apply (rep_elems_stable (after nowhere target) _ (fun l => l <> target) st st2);
            trivial.
          intros l Hl _. split; trivial. destruct Hl as [[] | Hl]. lia.
        - constructor; [ | constructor ].
          apply (rep_stable (grown nowhere st) _ (fun l => l <> target) st1 st2); trivial.
          + apply agree_update.
          + intros l Hl _. destruct Hl as [[] | Hl]. split; [ right | ]; lia. }
      destruct (IH hs' st2 (acc_h ++ [v]) (acc_t ++ [v']) Hlen2 Hall2 Hcell2 Hacc2)
        as [Hagree3 Hres3].
      split; [ now apply (agree_trans _ st st2) | ].
      revert Hres3.
      destruct (fst (fill f target hs' st2)), (mapM f' ts) as [ts' | ]; simpl; trivial.
      intros (acc_h' & Hc & Hr). exists acc_h'. split; trivial.
      now rewrite <- app_assoc in Hr.
    + split; [ | exact Hres ]. now apply (agree_weaken everywhere).
Qed.

Lemma new_array_new (g : hval -> M hval) (g' : val -> res val) (D : nat -> Prop)
  (st : store) (hs : list hval) (elems : list val) :
  bounded D st ->
  Forall (builds g g') elems ->
  Forall2 (rep D st) hs elems ->
  ok rep nowhere st
     ((target <~ alloc (CArr []) ;; _ <~ fill g target hs ;; ret (HRef target)) st)
     (elems' <- mapM g' elems ;; Ok (VArr elems')).
Proof.
  intros Hb Hg Hall. unfold mbind at 1, alloc. simpl fst. simpl snd.
  set (target := length st). set (st0 := st ++ [CArr []]).
  assert (Hlen0 : target < length st0)
    by (unfold st0, target; rewrite length_app; simpl; lia).
  assert (Hall0 : Forall2 (rep D st0) hs elems).
  { apply (rep_elems_stable D D everywhere st st0); trivial; [ apply agree_alloc | ].
    intros; split; trivial. exact I. }
  destruct (fill_new g g' D target elems Hg Hb hs st0 [] [] Hlen0 Hall0
              (nth_error_alloc st (CArr [])) (Forall2_nil _)) as [Hagree Hres].
  unfold mbind.
  destruct (fill g target hs st0) as [[u | e] st1], (mapM g' elems) as [ts' | e'];
    simpl in *; try contradiction.
  - split; [ now apply (agree_after_alloc st (CArr [])) | ]. simpl.
    destruct Hres as (acc & Hacc & Hrepacc).
    apply rep_arr. exists target, acc. repeat split; trivial.
    + right. unfold target. lia.
    + apply (rep_elems_frame (after nowhere target) _ st1 st1); trivial.
      intros x Hx. split; trivial. destruct Hx as [[] | Hx].
      right. unfold target in Hx. lia.
  - split; [ now apply (agree_after_alloc st (CArr [])) | exact Hres ].
Qed.

Lemma copy_loop_new (f : hval -> M hval) (f' : val -> res val) (D : nat -> Prop)
  (result : nat) (ps : list (string * val)) :
  Forall (fun p => startsWith_underscore (fst p)
                   || String.eqb (JS.typeof (snd p)) "function" = false ->
                   builds f f' (snd p)) ps ->
  (forall l, D l -> l < result) ->
  forall hps st acc_h acc_t,
    result < length st ->
    Forall2 (rep_prop D st) hps ps ->
    nth_error st result = Some (CObj acc_h) ->
    Forall2 (rep_prop (after nowhere result) st) acc_h acc_t ->
    agree (fun l => l <> result) st (snd (Heap.copy_loop f result hps st))
    /\ match fst (Heap.copy_loop f result hps st), Skill.copy_loop f' ps acc_t with
       | Ok _, Ok acc' =>
           exists acc_h',
             nth_error (snd (Heap.copy_loop f result hps st)) result = Some (CObj acc_h')
             /\ Forall2 (rep_prop (after nowhere result)
                           (snd (Heap.copy_loop f result hps st)))
                        acc_h' acc'
       | Throw e, Throw e' => e = e'
       | _, _ => False
       end.
Proof.
  intros Hsim HD. induction Hsim as [ | [key t] ps Ht _ IH ];
    intros hps st acc_h acc_t Hresult Hall Hcell Hacc.
  - apply Forall2_length in Hall as Hlen. destruct hps; [ | discriminate ].
    simpl. split; [ apply agree_refl | ]. now exists acc_h.
  - destruct hps as [ | [hkey h] hps' ]; [ now apply Forall2_length in Hall | ].
    apply Forall2_cons_iff in Hall. destruct Hall as [[Hk Hh] Hall].
    simpl in Hk, Hh, Ht. subst hkey.
    rewrite copy_loop_cons. simpl Skill.copy_loop.
    destruct (startsWith_underscore key); [ now apply (IH hps' st acc_h acc_t) | ].
    rewrite (rep_typeof D st h t Hh).
    destruct (JS.typeof t =? "function"); [ now apply (IH hps' st acc_h acc_t) | ].
    assert (Hb : bounded D st) by (intros l Hl; specialize (HD l Hl); lia).
    destruct (Ht eq_refl D st h Hb Hh) as [Hagree Hres].
    destruct (f h st) as [[v | e] st1], (f' t) as [v' | e']; simpl in *;
      try contradiction.
    + destruct (assign_step nowhere result st st1 acc_h acc_t key v v'
                  ltac:(intros l []) Hresult Hagree Hcell Hacc Hres)
        as (Hagree2 & Hlen2 & Hcell2 & Hacc2).
      set (st2 := update st1 result (assigned key v)) in *.
      pose proof (rep_props_outside D result st st2 hps' ps HD Hagree2 Hall) as Hall2.
      destruct (IH hps' st2 _ _ Hlen2 Hall2 Hcell2 Hacc2) as [Hagree3 Hres3].
      split; [ now apply (agree_trans _ st st2) | exact Hres3 ].
    + split; [ | exact Hres ]. now apply (agree_weaken everywhere).
Qed.

Lemma astToObject_at_new (hlib : Heap.Library) (lib : SmilesJs.Library) (t : val) :
  inert t = true ->
  forall depth, height t < depth ->
  builds (Heap.astToObject_at hlib depth) (Skill.astToObject lib) t.
Proof.
  induction t as [ | | b | n | s | f | elems IH | props IH | props IH ]
    using val_deep_ind; intros Hinert [ | depth ] Hdepth D st h Hb Hrep; try lia;
    pose proof Hrep as Hrep0; rep_inv Hrep; subst h; simpl Heap.astToObject_at.
  - apply (ok_ret rep nowhere st _ _ stable_rep). now apply rep_undef.
  - apply (ok_ret rep nowhere st _ _ stable_rep). now apply rep_null.
  - rewrite orb_true_r. apply (ok_ret rep nowhere st _ _ stable_rep). now apply rep_bool.
  - rewrite orb_true_r. apply (ok_ret rep nowhere st _ _ stable_rep). now apply rep_num.
  - rewrite orb_true_r. apply (ok_ret rep nowhere st _ _ stable_rep). now apply rep_str.
  - apply (ok_ret rep nowhere st _ _ stable_rep). now apply rep_fun.
  - (* an array *)
    unfold Heap.has_toObject, Heap.isArray, elements_in, get_in. simpl cell_of.
    rewrite Hcell. simpl.
    apply (new_array_new _ _ D); trivial.
    simpl in Hinert. rewrite forallb_forall in Hinert.
    rewrite Forall_forall in IH. apply Forall_forall. intros e He.
    apply IH; trivial; [ now apply Hinert | ].
    pose proof (height_elem elems e He). lia.
  - (* a plain object *)
    simpl in Hinert. apply andb_prop in Hinert. destruct Hinert as [Hto Hall'].
    apply negb_true_iff in Hto.
    pose proof (rep_get D st _ _ "toObject" Hrep0) as Hget.
    apply rep_truthy in Hget.
    unfold Heap.has_toObject, Heap.isArray, entries_in. simpl cell_of.
    rewrite Hcell. rewrite Hget.
    change (Skill.astToObject lib (VObj props))
      with (if JS.truthy (JS.get (VObj props) "toObject")
            then Skill.call_toObject lib (VObj props)
            else result <- Skill.copy_loop (Skill.astToObject lib) props [] ;;
                 Ok (VObj result)).
    change (JS.truthy (JS.get (VObj props) "toObject"))
      with (JS.truthy (match lookup "toObject" props with Some m => m | None => VUndef end)).
    rewrite Hto. simpl.
    apply (new_object_ok nowhere st (Heap.copy_loop (Heap.astToObject_at hlib depth)
                                       (length st) hs)
             (Skill.copy_loop (Skill.astToObject lib) props []));
      [ apply bounded_nowhere | ].
    assert (Hsim : Forall (fun p => startsWith_underscore (fst p)
                            || String.eqb (JS.typeof (snd p)) "function" = false ->
                            builds (Heap.astToObject_at hlib depth)
                              (Skill.astToObject lib) (snd p)) props).
    { rewrite Forall_forall in IH. rewrite forallb_forall in Hall'.
      apply Forall_forall. intros [k e] He Hskip.
      specialize (Hall' (k, e) He). unfold inert_entry in Hall'. simpl in Hall', Hskip.
      rewrite Hskip in Hall'. simpl in Hall'.
      apply (IH (k, e)); trivial. pose proof (height_prop props k e He). simpl. lia. }
    apply (copy_loop_new _ _ D (length st) props Hsim Hb hs (st ++ [CObj []]) [] []).
    + rewrite length_app. simpl. lia.
    + apply (rep_props_stable D D everywhere st); trivial; [ apply agree_alloc | ].
      intros; split; trivial. exact I.
    + apply nth_error_alloc.
    + constructor.
  - discriminate Hinert.
Qed.

(** X16: a record of astToObject that holds no function shares no object
    with the value converted.  On a value that holds no library node and
    no object with a truthy [toObject], astToObject on the store returns
    the record that astToObject returns on trees; when no function is in
    it, it is made of objects that did not exist before the call, whatever
    the library is.  The call writes to no object that existed before, so
    the value converted is as it was.  (A function that is the argument
    or an element of an array is returned as it is, the same object; the
    store keeps no identity of functions, and nothing is stated for
    records that hold one.) *)
Theorem astToObject_builds_new_objects (hlib : Heap.Library) (lib : SmilesJs.Library)
  (st : store) (h : hval) (t t' : val) :
  inert t = true ->
  represents st h t ->
  Skill.astToObject lib t = Ok t' ->
  function_free t' = true ->
  let run := Heap.astToObject hlib h st in
  (forall l, l < length st -> nth_error (snd run) l = nth_error st l)
  /\ represents (snd run) h t
  /\ exists h', fst run = Ok h' /\ rep (new_in st) (snd run) h' t'.
Proof.
  intros Hinert Hrep Hpure _ run.
  pose proof (rep_height everywhere st h t Hrep) as Hheight.
  pose proof (rep_within everywhere st h t Hrep) as Hrep'.
  destruct (astToObject_at_new hlib lib t Hinert (S (length st)) ltac:(lia)
              (within everywhere st) st h (bounded_within everywhere st) Hrep')
    as [Hagree Hres].
  fold (Heap.astToObject hlib h st) in Hagree, Hres. fold run in Hagree, Hres.
  rewrite Hpure in Hres.
  split; [ intros l Hl; destruct Hagree as [_ Hsame]; apply Hsame; [ exact Hl | exact I ] | ].
  split; [ now apply (represents_later st) | ].
  destruct (fst run) as [h' | e]; [ | destruct Hres ].
  exists h'. split; trivial.
  apply (rep_frame (grown nowhere st) (new_in st) (snd run) (snd run)); trivial.
  intros l [[] | Hl]. split; [ exact Hl | reflexivity ].
Qed.

Lemma astToObject_builds_new_objects_witness :
  let hlib := loaded Engine.reference in
  let node := place annotated_chain (loaded_store Engine.reference) in
  let run := Heap.astToObject hlib (fst node) (snd node) in
  (length (snd node), fst node, fst run) = (65, HRef 64, Ok (HRef 65))
  /\ exists h',
       fst run = Ok h'
       /\ rep (new_in (snd node)) (snd run) h'
            (VObj [("type", VStr "linear"); ("atoms", VArr [VStr "C"; VStr "O"])]).
Proof.
  intros hlib node run. split; [ vm_compute; reflexivity | ].
  destruct (place_ok annotated_chain (loaded_store Engine.reference)) as [_ Hnode].
  exact (proj2 (proj2 (astToObject_builds_new_objects hlib Engine.reference (snd node)
                         (fst node) annotated_chain _ eq_refl Hnode eq_refl eq_refl))).
Defined.

Lemma get_common_fragments_steps (hlib : Heap.Library) (st : store) :
  Heap.get_common_fragments hlib st =
    match for_each (Heap.add_fragment hlib (length st)) (Heap.common hlib)
            (st ++ [CObj []]) with
    | (Ok _, st1) =>
        match literal categories st1 with
        | (Ok groups, st2) =>
            (Ok (HRef (length st2)),
             st2 ++ [CObj [("success", HBool true); ("fragments", HRef (length st));
                           ("categories", groups)]])
        | (Throw e, st2) => (Throw e, st2)
        end
    | (Throw e, st1) => (Throw e, st1)
    end.
Proof.
  unfold Heap.get_common_fragments, mbind, alloc, ret, new. simpl.
  destruct (for_each (Heap.add_fragment hlib (length st)) (Heap.common hlib)
              (st ++ [CObj []])) as [[u | e] st1]; trivial.
Qed.

(** X17: every call of get_common_fragments returns new objects.  The
    result record, its fragments map and its categories, with their lists
    of names, did not exist before the call, whatever the argument: what a
    caller does to them has no effect on a later call. *)
Theorem get_common_fragments_returns_new_objects (hlib : Heap.Library)
  (lib : SmilesJs.Library) (st : store) (input : hval) :
  faithful hlib lib ->
  table_in hlib lib st ->
  let run := Heap.tools hlib tool_get_common_fragments input st in
  exists l,
    fst run = Ok (HRef l) /\ new_in st l
    /\ (exists m, get_in (snd run) (HRef l) "fragments" = HRef m /\ new_in st m)
    /\ rep (new_in st) (snd run) (get_in (snd run) (HRef l) "categories") categories.
Proof.
  intros Hlib Htable run. unfold run. simpl Heap.tools.
  rewrite get_common_fragments_steps.
  assert (Hb : forall l, within everywhere st l -> l < length st) by (intros l [_ Hl]; exact Hl).
  destruct (fragments_loop_ok hlib lib Hlib (within everywhere st) (length st)
              (SmilesJs.common lib) Hb (Heap.common hlib) (st ++ [CObj []]) [] [])
    as [Hagree1 Hres1].
  { rewrite length_app. simpl. lia. }
  { apply (rep_props_stable everywhere _ everywhere st); trivial; [ apply agree_alloc | ].
    intros l _ Hl. split; [ split; trivial | ]; exact I. }
  { apply nth_error_alloc. }
  { constructor. }
  destruct (for_each (Heap.add_fragment hlib (length st)) (Heap.common hlib)
              (st ++ [CObj []])) as [[u | e] st1];
    cbv beta iota delta [fst snd] in Hagree1, Hres1; [ | destruct Hres1 ].
  assert (Hlen1 : length st < length st1).
  { destruct Hagree1 as [Hlen _]. rewrite length_app in Hlen. simpl in Hlen. lia. }
  destruct (literal_ok categories nowhere st1 (bounded_nowhere st1)) as [Hagree2 Hres2].
  destruct (literal categories st1) as [[groups | e] st2];
    cbv beta iota delta [fst snd] in Hagree2, Hres2; [ | destruct Hres2 ].
  assert (Hlen2 : length st1 <= length st2) by (destruct Hagree2; trivial).
  exists (length st2). simpl fst. simpl snd. split; trivial.
  split; [ unfold new_in; lia | ].
  set (record := CObj [("success", HBool true); ("fragments", HRef (length st));
                        ("categories", groups)]).
  assert (Hfragments : get_in (st2 ++ [record]) (HRef (length st2)) "fragments"
                       = HRef (length st)).
  { unfold get_in. simpl cell_of. rewrite nth_error_alloc. reflexivity. }
  assert (Hgroups : get_in (st2 ++ [record]) (HRef (length st2)) "categories" = groups).
  { unfold get_in. simpl cell_of. rewrite nth_error_alloc. reflexivity. }
  rewrite Hfragments, Hgroups.
  split; [ exists (length st); split; trivial; unfold new_in; lia | ].
  apply (rep_stable (grown nowhere st1) _ everywhere st2); trivial; [ apply agree_alloc | ].
  intros l [[] | Hl] _. split; [ unfold new_in; lia | exact I ].
Qed.

Lemma get_common_fragments_returns_new_objects_witness :
  let hlib := loaded Engine.reference in
  let st := loaded_store Engine.reference in
  let run1 := Heap.tools hlib tool_get_common_fragments HUndef st in
  let run2 := Heap.tools hlib tool_get_common_fragments HUndef (snd run1) in
  (length st, fst run1, fst run2) = (62, Ok (HRef 84), Ok (HRef 107))
  /\ exists l,
       fst run2 = Ok (HRef l) /\ new_in (snd run1) l
       /\ rep (new_in (snd run1)) (snd run2) (get_in (snd run2) (HRef l) "categories")
            categories.
Proof.
  intros hlib st run1 run2. split; [ vm_compute; reflexivity | ].
  pose proof (on_store_faithful Engine.reference (loaded_table Engine.reference)) as Hlib.
  assert (Hundef : represents st HUndef VUndef) by now apply rep_undef.
  destruct (tool_run hlib Engine.reference tool_get_common_fragments st HUndef VUndef
              Hlib (install_ok Engine.reference) Hundef) as [Hagree _].
  pose proof (table_in_later hlib Engine.reference st (snd run1) Hagree
                (install_ok Engine.reference)) as Htable.
  destruct (get_common_fragments_returns_new_objects hlib Engine.reference (snd run1)
              HUndef Hlib Htable) as (l & Hl & Hnew & _ & Hcategories).
  exists l. split; [ exact Hl | split; [ exact Hnew | exact Hcategories ] ].
Defined.

End HeapLaws.
